(** * useEffectState: the effect dispatch engine

    A shallow embedding of [src/useEffectState/useEffectState.ts] (the
    three-argument hook with the circular dispatch guard) together with the
    properties its specification states.

    The hook keeps its data in React refs and closes over them.  Here the
    refs are the fields of one record, [config], that every operation takes
    and returns.  Three kinds of JavaScript objects have an identity that
    the code depends on, and each is modelled by an address:

    - trace objects ([TraceDispatch]) live in a heap and are mutated in
      place by [getNextTrace]; a nested dispatch receives the address of
      the trace of its parent, not a copy;
    - promises live in a table indexed by a promise id;
    - listener closures made by [getListener] carry the number of the
      allocation that created them, which is what [Array.prototype.includes]
      and [EventTarget] compare.

    User code (the effects) is a small command tree, [prog]: it can return,
    throw, call the [dispatch] function it was given and await a promise.
    An effect reaches the hook through that [dispatch] argument only.

    Two other versions of the hook are embedded in modules of their own:
    [V1], the two-argument hook of the same file, which keeps the promises
    of its dispatches in a map, and [Payload], the hook of
    [src/useEffectState1/useEffectState.ts], whose actions carry a
    payload.
    The host's run-to-completion scheduling is a FIFO queue of microtasks. *)

From stdpp Require Import base list strings numbers gmap fin_maps pretty.

Open Scope Z_scope.

(** ** Values, errors and settlements *)

Abbreviation action := string (only parsing).
Abbreviation loc := nat (only parsing).
Abbreviation pid := nat (only parsing).

(** The values a state of type [S | void] can take.  Objects are the
    [Record<string, number>] of the test-suite.  Numbers are integers; NaN
    (the one other falsy number) is outside the model. *)
Inductive value :=
  | VUndefined
  | VNull
  | VBool (b : bool)
  | VNum (n : Z)
  | VStr (s : string)
  | VObj (o : gmap string Z).

(** JavaScript truthiness, as tested by [if (newState)]. *)
Definition truthy (v : value) : bool :=
  match v with
  | VUndefined | VNull => false
  | VBool b => b
  | VNum n => negb (n =? 0)
  | VStr s => negb (String.eqb s "")
  | VObj _ => true
  end.

(** Property read [state.k] on an object state. *)
Definition get_prop (v : value) (k : string) : value :=
  match v with
  | VObj o => match o !! k with Some n => VNum n | None => VUndefined end
  | _ => VUndefined
  end.

(** What can be thrown: the guard's [Error], a [TypeError] of the
    language, or whatever an effect throws. *)
Inductive error :=
  | MaxDepthError (traceCount : Z) (a : action)
  | TypeError (message : string)
  | Thrown (v : value).

(** The [message] of an error; the guard's is built by its template
    literal. *)
Definition error_message (e : error) : string :=
  match e with
  | MaxDepthError traceCount a =>
      "Max circular dispatch depth of " +:+ pretty traceCount +:+
      " reached for " +:+ a
  | TypeError message => message
  | Thrown _ => ""
  end.

Inductive settlement :=
  | Fulfilled (v : value)
  | Rejected (e : error).

(** Outcome of a piece of synchronous code: a value, an exception, or the
    interpreter's fuel ran out (non-termination of the modelled code). *)
Inductive result (A : Type) :=
  | Done (x : A)
  | Raise (e : error)
  | Timeout.
Arguments Done {A} x.
Arguments Raise {A} e.
Arguments Timeout {A}.

(** ** Options *)

Record EffectStateOptions := { dispatchMaxCircularCalls : option Z }.

(** Modelled from the spec: the constant [MAXDEPTH] of
    [useEffectState.constants], a file that is not part of the sources; the
    spec and the doc comment in [useEffectState.types.ts] both give 20. *)
Definition MAXDEPTH : Z := 20.

(** [options?.dispatchMaxCircularCalls || MAXDEPTH]: an absent option and
    the falsy number 0 both select the default. *)
Definition maxTraceDepth (options : option EffectStateOptions) : Z :=
  match options with
  | Some o =>
      match dispatchMaxCircularCalls o with
      | Some n => if n =? 0 then MAXDEPTH else n
      | None => MAXDEPTH
      end
  | None => MAXDEPTH
  end.

(** ** Plain objects used as maps

    The trace objects and the registry [allEffectsArray.current] are plain
    objects indexed by the action.  A read [o[k]] that finds no own
    property [k] goes on to [Object.prototype]: for the names below it
    yields a member of the prototype (a function, and for [__proto__] the
    prototype itself) and not [undefined].  Such a value is truthy, it is
    not a number and it is not an array.  The names are those the language
    gives [Object.prototype]. *)
Definition object_prototype_keys : list string :=
  ["constructor"; "hasOwnProperty"; "isPrototypeOf"; "propertyIsEnumerable";
   "toLocaleString"; "toString"; "valueOf"; "__proto__";
   "__defineGetter__"; "__defineSetter__"; "__lookupGetter__";
   "__lookupSetter__"].

Definition inherited (k : string) : bool :=
  existsb (String.eqb k) object_prototype_keys.

(** [o[k]] is a member of the prototype: [o] has no own property [k] and
    [k] names one. *)
Definition inherits {A : Type} (o : gmap string A) (k : string) : bool :=
  match o !! k with
  | Some _ => false
  | None => inherited k
  end.

(** ** The circular dispatch guard *)

(** The heap of trace objects.  A trace is modelled by its counts: the own
    properties that hold a number (the only other value the engine ever
    stores in a trace is the text described below). *)
Abbreviation trace := (gmap string Z) (only parsing).
Abbreviation heap := (gmap nat (gmap string Z)) (only parsing).

(** [getNextTrace(action, trace?)].  Without a trace a new object
    [{[action]: 1}] is allocated (a computed key makes an own property,
    whatever the name).  Otherwise the object at [l] is updated in place
    and [l] itself is returned; when the count already exceeds the maximum
    the function throws before writing anything.

    When [trace[action]] is a member of the prototype, [traceCount] is
    truthy and [traceCount > maxTraceDepth] is false (the member is not a
    number), so the guard passes.  What [trace[action] = traceCount + 1]
    then assigns is a text, not a count (and for [__proto__] the
    assignment is ignored): the counts stay as they are, and when the text
    is read again it is truthy and not greater than a number, as the
    member was. *)
Definition getNextTrace (maxDepth : Z) (a : action) (prev : option loc)
    (h : heap) : result (loc * heap) :=
  match prev with
  | None =>
      let l := fresh (dom h) in
      Done (l, <[l := {[a := 1]}]> h)
  | Some l =>
      let t := default ∅ (h !! l) in
      if inherits t a then Done (l, <[l := t]> h)
      else
        let traceCount := default 0 (t !! a) in
        if negb (traceCount =? 0) then
          if maxDepth <? traceCount then Raise (MaxDepthError traceCount a)
          else Done (l, <[l := <[a := traceCount + 1]> t]> h)
        else Done (l, <[l := <[a := 1]> t]> h)
  end.

(** ** Effects, listeners and tasks *)

(** The body of an effect, once applied to the state snapshot.  [Dispatch]
    is a call of the trace-bound [dispatch] argument and binds the promise
    it returns; [Await] suspends on a promise and resumes with its
    settlement (an effect that does not catch a rejection continues with
    [Throw]). *)
Inductive prog :=
  | Return (v : value)
  | Throw (e : error)
  | Dispatch (a : action) (k : pid → prog)
  | Await (q : pid) (k : settlement → prog).

(** An effect function: [eff_ref] stands for the identity of the function
    object (what [===] compares), [eff_async] tells an [async] function
    from a plain one and [eff_body] is what a call does.  An exception in a
    plain function reaches its caller at once; in an [async] function it
    rejects the promise the function returned. *)
Record Effect :=
  { eff_ref : nat; eff_async : bool; eff_body : value → prog }.

(** The closure returned by [getListener(effect)]; [l_id] is its identity. *)
Record listener := { l_id : nat; l_effect : Effect }.

(** The [detail] of the custom event: the promise to settle ([resolve] and
    [reject] are the two faces of one promise) and the trace object. *)
Record frame := { f_promise : pid; f_trace : loc }.

(** Microtasks: an effect body resumed after an [await], and the rest of
    the listener after [await effect(...)] produced a value or threw. *)
Inductive task :=
  | TResume (fr : frame) (p : prog)
  | TAfter (fr : frame) (o : settlement).

Definition task_frame (t : task) : frame :=
  match t with TResume fr _ | TAfter fr _ => fr end.

Inductive pstate :=
  | Pending
  | Settled (s : settlement).

(** An effect body suspended at [await q]: the promise awaited, the event
    the body runs for, and the rest of the body. *)
Record waiter :=
  { w_promise : pid; w_frame : frame; w_cont : settlement → prog }.

(** One call of a listener, kept for the theorems only. *)
Record invocation :=
  { i_action : action; i_effect : nat; i_listener : nat; i_promise : pid }.

(** One evaluation of the guard, kept for the theorems only: the trace
    object it ran on, the action, the promise of the [dispatch] call and
    the error the guard threw, if any. *)
Record guard_event :=
  { g_trace : loc; g_action : action; g_promise : pid;
    g_error : option error }.

(** ** The refs of one hook instance *)

Record config := {
  stateRef : value;
  state : value;
  target : option (list (string * listener));
  allEffectsArray : gmap string (list listener);
  traces : gmap nat (gmap string Z);
  promises : gmap nat pstate;
  microtasks : list task;
  waiting : list waiter;
  next_listener : nat;
  (* history, never read by the engine *)
  invoked : list invocation;
  returned : list value;
  settle_calls : list (pid * settlement);
  guarded : list guard_event
}.

(** [stateRef.current = newState; setState(newState)].  The observed state
    is React state: [setState] changes nothing once the component is
    unmounted, which is when React runs [cleanup] and the event target is
    discarded. *)
Definition with_state (v : value) (c : config) : config :=
  {| stateRef := v;
     state := match target c with Some _ => v | None => state c end;
     target := target c;
     allEffectsArray := allEffectsArray c; traces := traces c;
     promises := promises c; microtasks := microtasks c;
     waiting := waiting c;
     next_listener := next_listener c; invoked := invoked c;
     returned := returned c; settle_calls := settle_calls c;
     guarded := guarded c |}.

Definition with_target (t : option (list (string * listener))) (c : config)
    : config :=
  {| stateRef := stateRef c; state := state c; target := t;
     allEffectsArray := allEffectsArray c; traces := traces c;
     promises := promises c; microtasks := microtasks c;
     waiting := waiting c;
     next_listener := next_listener c; invoked := invoked c;
     returned := returned c; settle_calls := settle_calls c;
     guarded := guarded c |}.

Definition with_allEffectsArray (r : gmap string (list listener))
    (c : config) : config :=
  {| stateRef := stateRef c; state := state c; target := target c;
     allEffectsArray := r; traces := traces c;
     promises := promises c; microtasks := microtasks c;
     waiting := waiting c;
     next_listener := next_listener c; invoked := invoked c;
     returned := returned c; settle_calls := settle_calls c;
     guarded := guarded c |}.

Definition with_traces (h : gmap nat (gmap string Z)) (c : config) : config :=
  {| stateRef := stateRef c; state := state c; target := target c;
     allEffectsArray := allEffectsArray c; traces := h;
     promises := promises c; microtasks := microtasks c;
     waiting := waiting c;
     next_listener := next_listener c; invoked := invoked c;
     returned := returned c; settle_calls := settle_calls c;
     guarded := guarded c |}.

Definition with_promises (ps : gmap nat pstate) (c : config) : config :=
  {| stateRef := stateRef c; state := state c; target := target c;
     allEffectsArray := allEffectsArray c; traces := traces c;
     promises := ps; microtasks := microtasks c;
     waiting := waiting c;
     next_listener := next_listener c; invoked := invoked c;
     returned := returned c; settle_calls := settle_calls c;
     guarded := guarded c |}.

Definition with_microtasks (q : list task) (c : config) : config :=
  {| stateRef := stateRef c; state := state c; target := target c;
     allEffectsArray := allEffectsArray c; traces := traces c;
     promises := promises c; microtasks := q;
     waiting := waiting c;
     next_listener := next_listener c; invoked := invoked c;
     returned := returned c; settle_calls := settle_calls c;
     guarded := guarded c |}.

Definition with_waiting (w : list waiter) (c : config) : config :=
  {| stateRef := stateRef c; state := state c; target := target c;
     allEffectsArray := allEffectsArray c; traces := traces c;
     promises := promises c; microtasks := microtasks c;
     waiting := w;
     next_listener := next_listener c; invoked := invoked c;
     returned := returned c; settle_calls := settle_calls c;
     guarded := guarded c |}.

Definition with_next_listener (n : nat) (c : config) : config :=
  {| stateRef := stateRef c; state := state c; target := target c;
     allEffectsArray := allEffectsArray c; traces := traces c;
     promises := promises c; microtasks := microtasks c;
     waiting := waiting c;
     next_listener := n; invoked := invoked c;
     returned := returned c; settle_calls := settle_calls c;
     guarded := guarded c |}.

Definition log_invoked (i : invocation) (c : config) : config :=
  {| stateRef := stateRef c; state := state c; target := target c;
     allEffectsArray := allEffectsArray c; traces := traces c;
     promises := promises c; microtasks := microtasks c;
     waiting := waiting c;
     next_listener := next_listener c; invoked := invoked c ++ [i];
     returned := returned c; settle_calls := settle_calls c;
     guarded := guarded c |}.

Definition log_returned (v : value) (c : config) : config :=
  {| stateRef := stateRef c; state := state c; target := target c;
     allEffectsArray := allEffectsArray c; traces := traces c;
     promises := promises c; microtasks := microtasks c;
     waiting := waiting c;
     next_listener := next_listener c; invoked := invoked c;
     returned := returned c ++ [v]; settle_calls := settle_calls c;
     guarded := guarded c |}.

Definition log_settle (p : pid) (s : settlement) (c : config) : config :=
  {| stateRef := stateRef c; state := state c; target := target c;
     allEffectsArray := allEffectsArray c; traces := traces c;
     promises := promises c; microtasks := microtasks c;
     waiting := waiting c;
     next_listener := next_listener c; invoked := invoked c;
     returned := returned c; settle_calls := settle_calls c ++ [(p, s)];
     guarded := guarded c |}.

Definition log_guarded (g : guard_event) (c : config) : config :=
  {| stateRef := stateRef c; state := state c; target := target c;
     allEffectsArray := allEffectsArray c; traces := traces c;
     promises := promises c; microtasks := microtasks c;
     waiting := waiting c;
     next_listener := next_listener c; invoked := invoked c;
     returned := returned c; settle_calls := settle_calls c;
     guarded := guarded c ++ [g] |}.

(** ** Promises *)

Definition enqueue (t : task) (c : config) : config :=
  with_microtasks (microtasks c ++ [t]) c.

(** [new Promise(...)] before its executor runs. *)
Definition new_promise (c : config) : pid * config :=
  let p := fresh (dom (promises c)) in
  (p, with_promises (<[p := Pending]> (promises c)) c).

(** [Promise.resolve(v)]. *)
Definition promise_resolved (v : value) (c : config) : pid * config :=
  let p := fresh (dom (promises c)) in
  (p, with_promises (<[p := Settled (Fulfilled v)]> (promises c)) c).

Definition waits_for (p : pid) (w : waiter) : bool :=
  Nat.eqb (w_promise w) p.

Definition reaction_task (s : settlement) (w : waiter) : task :=
  TResume (w_frame w) (w_cont w s).

(** A call of [resolve] or [reject] of promise [p].  Only the first call
    settles the promise and schedules the bodies waiting for it, in the
    order they started to wait; later calls do nothing. *)
Definition settle (p : pid) (s : settlement) (c : config) : config :=
  let c := log_settle p s c in
  match promises c !! p with
  | Some Pending =>
      with_waiting (List.filter (λ w, negb (waits_for p w)) (waiting c))
        (with_microtasks
           (microtasks c ++
              List.map (reaction_task s) (List.filter (waits_for p) (waiting c)))
           (with_promises (<[p := Settled s]> (promises c)) c))
  | _ => c
  end.

Definition resolve (p : pid) (v : value) : config → config :=
  settle p (Fulfilled v).
Definition reject (p : pid) (e : error) : config → config :=
  settle p (Rejected e).

(** [await q] inside an effect running for the event [fr]. *)
Definition await (fr : frame) (q : pid) (k : settlement → prog)
    (c : config) : config :=
  match promises c !! q with
  | Some Pending =>
      with_waiting
        (waiting c ++ [{| w_promise := q; w_frame := fr; w_cont := k |}]) c
  | Some (Settled s) => enqueue (TResume fr (k s)) c
  | None => c
  end.

(** ** The event target *)

Definition same_listener (a : action) (l : listener)
    (e : string * listener) : bool :=
  String.eqb e.1 a && Nat.eqb (l_id e.2) (l_id l).

(** [addEventListener]: a callback already registered for the type is not
    added again. *)
Definition addEventListener (a : action) (l : listener)
    (tg : list (string * listener)) : list (string * listener) :=
  if existsb (same_listener a l) tg then tg else tg ++ [(a, l)].

Definition removeEventListener (a : action) (l : listener)
    (tg : list (string * listener)) : list (string * listener) :=
  List.filter (λ e, negb (same_listener a l e)) tg.

(** The callbacks [dispatchEvent] calls for an event of type [a], in the
    order they were added. *)
Definition listeners_for (a : action) (tg : list (string * listener))
    : list listener :=
  snd <$> List.filter (λ e, String.eqb e.1 a) tg.

(** ** The engine *)

Section Engine.

Variable options : option EffectStateOptions.

(** The part of [dispatchTrace] and of the listener that does not depend
    on how effect bodies are run; [run] executes the synchronous part of
    one effect body. *)
Section Dispatch.

Variable run : bool → frame → prog → config → result config.

(** The listener built by [getListener(effect)], called with an event
    whose detail is [fr]: the effect is called at once with
    [stateRef.current] and [dispatchTrace(trace)]. *)
Definition call_listener (a : action) (fr : frame) (l : listener)
    (c : config) : result config :=
  let c :=
    log_invoked {| i_action := a; i_effect := eff_ref (l_effect l);
                   i_listener := l_id l;
                   i_promise := f_promise fr |} c in
  run (negb (eff_async (l_effect l))) fr
    (eff_body (l_effect l) (stateRef c)) c.

Fixpoint call_listeners (a : action) (fr : frame) (ls : list listener)
    (c : config) : result config :=
  match ls with
  | [] => Done c
  | l :: ls =>
      match call_listener a fr l c with
      | Done c' => call_listeners a fr ls c'
      | r => r
      end
  end.

(** [target.current?.dispatchEvent(new CustomEvent(action, {detail}))] *)
Definition dispatchEvent (a : action) (fr : frame) (c : config)
    : result config :=
  match target c with
  | Some tg => call_listeners a fr (listeners_for a tg) c
  | None => Done c
  end.

(** [dispatchTrace(previousTrace)(action)].  The executor of the new
    promise runs the guard and publishes the event; a throw inside an
    executor rejects the promise under construction. *)
Definition dispatchTrace_with (prev : option loc) (a : action)
    (c : config) : result (pid * config) :=
  match target c with
  | Some _ =>
      let '(p, c) := new_promise c in
      match getNextTrace (maxTraceDepth options) a prev (traces c) with
      | Done (l, h) =>
          let c := log_guarded {| g_trace := l; g_action := a;
                                  g_promise := p; g_error := None |}
                     (with_traces h c) in
          match dispatchEvent a {| f_promise := p; f_trace := l |} c with
          | Done c' => Done (p, c')
          | Raise e => Raise e
          | Timeout => Timeout
          end
      | Raise e =>
          let c := match prev with
                   | Some l =>
                       log_guarded {| g_trace := l; g_action := a;
                                      g_promise := p;
                                      g_error := Some e |} c
                   | None => c
                   end in
          Done (p, reject p e c)
      | Timeout => Timeout
      end
  | None => Done (promise_resolved VUndefined c)
  end.

End Dispatch.

(** The synchronous part of an effect body running for the event [fr].
    When the body ends, the listener's [await effect(...)] schedules the
    rest of the listener as a microtask.  [plain] holds while a function
    that is not [async] runs: an exception then lands in the [catch] of the
    listener at once. *)
Fixpoint exec (n : nat) (plain : bool) (fr : frame) (p : prog) (c : config)
    : result config :=
  match n with
  | O => Timeout
  | S n =>
      match p with
      | Return v => Done (enqueue (TAfter fr (Fulfilled v)) (log_returned v c))
      | Throw e =>
          if plain then Done (reject (f_promise fr) e c)
          else Done (enqueue (TAfter fr (Rejected e)) c)
      | Dispatch a k =>
          match dispatchTrace_with (exec n) (Some (f_trace fr)) a c with
          | Done (q, c') => exec n plain fr (k q) c'
          | Raise e => Raise e
          | Timeout => Timeout
          end
      | Await q k => Done (await fr q k c)
      end
  end.

Definition dispatchTrace (n : nat) : option loc → action → config →
    result (pid * config) :=
  dispatchTrace_with (exec n).

(** [dispatch = action => dispatchTrace()(action)] *)
Definition dispatch (n : nat) (a : action) (c : config)
    : result (pid * config) :=
  dispatchTrace n None a c.

(** The listener after [await effect(...)]: [try { if (newState) ...
    else resolve() } catch (error) { reject(error) }]. *)
Definition after_await (fr : frame) (o : settlement) (c : config)
    : config :=
  match o with
  | Fulfilled newState =>
      if truthy newState
      then resolve (f_promise fr) newState (with_state newState c)
      else resolve (f_promise fr) VUndefined c
  | Rejected e => reject (f_promise fr) e c
  end.

Definition run_task (n : nat) (t : task) (c : config) : result config :=
  match t with
  | TResume fr p => exec n false fr p c
  | TAfter fr o => Done (after_await fr o c)
  end.

(** One turn of the microtask queue. *)
Definition tick (n : nat) (c : config) : result config :=
  match microtasks c with
  | [] => Done c
  | t :: q => run_task n t (with_microtasks q c)
  end.

(** Run microtasks until the queue is empty. *)
Fixpoint drain (n : nat) (c : config) : result config :=
  match n with
  | O => Timeout
  | S n =>
      match microtasks c with
      | [] => Done c
      | _ => match tick n c with
             | Done c' => drain n c'
             | r => r
             end
      end
  end.

(** [getListener(effect)]: every call makes a new closure. *)
Definition getListener (effect : Effect) (c : config) : listener * config :=
  ({| l_id := next_listener c; l_effect := effect |},
   with_next_listener (S (next_listener c)) c).

(** [handlers.includes(listener)] *)
Definition includes (l : listener) (handlers : list listener) : bool :=
  existsb (λ h, Nat.eqb (l_id h) (l_id l)) handlers.

(** The exception of [addEffect(action, effect)], if it throws.  When
    [handlers = allEffectsArray.current[action]] is a member of the
    prototype it is truthy and has no method [includes], so the test
    [handlers && !handlers.includes(listener)] throws a [TypeError]. *)
Definition addEffect_error (a : action) (c : config) : option error :=
  if inherits (allEffectsArray c) a
  then Some (TypeError "handlers.includes is not a function")
  else None.

(** The refs after [addEffect(action, effect)].  A call that throws has
    written nothing (the closure [getListener] made for it is dropped): the
    refs are as before. *)
Definition addEffect (a : action) (effect : Effect) (c : config) : config :=
  match addEffect_error a c with
  | Some _ => c
  | None =>
      let '(l, c) := getListener effect c in
      let c :=
        match allEffectsArray c !! a with
        | Some handlers =>
            if negb (includes l handlers)
            then with_allEffectsArray
                   (<[a := handlers ++ [l]]> (allEffectsArray c)) c
            else with_allEffectsArray (<[a := [l]]> (allEffectsArray c)) c
        | None => with_allEffectsArray (<[a := [l]]> (allEffectsArray c)) c
        end in
      match target c with
      | Some tg => with_target (Some (addEventListener a l tg)) c
      | None => c
      end
  end.

(** The two loops of [cleanup]: every listener of every action of
    [allEffectsArray] is removed from the target. *)
Definition remove_listeners (a : action) (ls : list listener)
    (c : config) : config :=
  foldl (λ c l,
           match target c with
           | Some tg => with_target (Some (removeEventListener a l tg)) c
           | None => c
           end) c ls.

Definition cleanup_loop (c : config) : config :=
  foldl (λ c e, remove_listeners e.1 e.2 c) c
        (map_to_list (allEffectsArray c)).

(** [cleanup]: the loops, then [target.current = undefined]. *)
Definition cleanup (c : config) : config :=
  with_target None (cleanup_loop c).

(** The refs as the first render creates them. *)
Definition init (initialState : value) : config :=
  {| stateRef := initialState; state := initialState;
     target := Some []; allEffectsArray := ∅; traces := ∅;
     promises := ∅; microtasks := []; waiting := [];
     next_listener := O;
     invoked := []; returned := []; settle_calls := []; guarded := [] |}.

(** The mount effect: [addEffect] for every entry of [initialEffects], in
    the order of the entries.  An exception of [addEffect] ends the loop:
    that entry and the ones after it are not registered.  (The exception
    then leaves the mount effect; what React does with a component whose
    effect threw is not modelled, the refs stay as the loop left them.) *)
Fixpoint mount (initialEffects : list (string * Effect)) (c : config)
    : config :=
  match initialEffects with
  | [] => c
  | e :: rest =>
      match addEffect_error e.1 c with
      | Some _ => c
      | None => mount rest (addEffect e.1 e.2 c)
      end
  end.

Definition useEffectState (initialState : value)
    (initialEffects : list (string * Effect)) : config :=
  mount initialEffects (init initialState).

(** *** What can happen to a mounted hook

    The component calls [dispatch] or [addEffect], React unmounts it, or
    the host runs the next microtask. *)
Inductive op :=
  | Op_dispatch (a : action)
  | Op_addEffect (a : action) (effect : Effect)
  | Op_cleanup
  | Op_tick.

Definition apply_op (n : nat) (o : op) (c : config) : result config :=
  match o with
  | Op_dispatch a =>
      match dispatch n a c with
      | Done (_, c') => Done c'
      | Raise e => Raise e
      | Timeout => Timeout
      end
  | Op_addEffect a effect =>
      match addEffect_error a c with
      | Some e => Raise e
      | None => Done (addEffect a effect c)
      end
  | Op_cleanup => Done (cleanup c)
  | Op_tick => tick n c
  end.

Definition step (c c' : config) : Prop :=
  ∃ n o, apply_op n o c = Done c'.

(** The configurations a hook created with [initialState] can be in. *)
Definition reachable (initialState : value) (c : config) : Prop :=
  ∃ initialEffects,
    rtc step (useEffectState initialState initialEffects) c.

End Engine.

(** * The vocabulary of the properties *)

(** While a dispatch is being delivered the JavaScript stack holds effect
    bodies that are running and events that are being published.  An
    invariant of the engine is a predicate on that stack and on the
    configuration. *)
Inductive activity :=
  | Running (fr : frame)
  | Publishing (fr : frame).

(** The trace a [dispatch] call inherits: the one bound to the effect body
    that makes the call, none for a call by the component. *)
Definition prev_of (stk : list activity) : option loc :=
  match stk with
  | Running fr :: _ => Some (f_trace fr)
  | _ => None
  end.

(** Number of elements of a list that pass a test. *)
Definition count {A : Type} (f : A → bool) (l : list A) : nat :=
  length (List.filter f l).

(** The listener is registered in [allEffectsArray] under its action. *)
Definition registered (a : action) (l : listener) (c : config) : Prop :=
  ∃ ls, allEffectsArray c !! a = Some ls ∧ l ∈ ls.

(** Every listener attached to the event target is registered, and
    listener identities are older than the next allocation. *)
Definition registry_inv (c : config) : Prop :=
  (∀ tg a l, target c = Some tg → (a, l) ∈ tg →
     registered a l c ∧ (l_id l < next_listener c)%nat) ∧
  (∀ a l, registered a l c → (l_id l < next_listener c)%nat).

(** The count the trace object at [l] holds for an action ([0] when the
    object or the entry does not exist). *)
Definition trace_count (h : gmap nat (gmap string Z)) (l : loc)
    (a : action) : Z :=
  default 0 (default ∅ (h !! l) !! a).

(** The own properties [{...state}] copies. *)
Definition obj_of (v : value) : gmap string Z :=
  match v with VObj o => o | _ => ∅ end.

(** The effects of the test-suite: [state => ({...state, a: 1})] and
    [state => ({...state, b: 2})]. *)
Definition effectA : Effect :=
  {| eff_ref := 1; eff_async := false;
     eff_body := λ st, Return (VObj (<["a" := 1]> (obj_of st))) |}.

Definition effectB : Effect :=
  {| eff_ref := 2; eff_async := false;
     eff_body := λ st, Return (VObj (<["b" := 2]> (obj_of st))) |}.

(** The observed state is the initial one or a truthy value an effect body
    returned; while the hook is mounted the snapshot agrees with it; and
    every listener that waits to finish with a value holds a value an
    effect body returned. *)
Definition provenance_inv (s0 : value) (c : config) : Prop :=
  (state c = s0 ∨ (state c ∈ returned c ∧ truthy (state c) = true)) ∧
  (target c ≠ None → stateRef c = state c) ∧
  ∀ fr v, TAfter fr (Fulfilled v) ∈ microtasks c → v ∈ returned c.

(** Between [c] and [c'] the guard was evaluated on trace [l] only, and
    every other trace is as it was. *)
Definition confined (l : loc) (c c' : config) : Prop :=
  (∃ evs, guarded c' = guarded c ++ evs ∧ ∀ g, g ∈ evs → g_trace g = l) ∧
  ∀ l0, l0 ≠ l → traces c' !! l0 = traces c !! l0.

(** Guard evaluations of one chain: those on trace [l] for action [a]. *)
Definition same_chain (l : loc) (a : action) (g : guard_event) : bool :=
  Nat.eqb (g_trace g) l && String.eqb (g_action g) a.

(** How often the action of the [i]-th guard evaluation [g] was dispatched
    before on the same trace. *)
Definition earlier_dispatches (i : nat) (gs : list guard_event)
    (g : guard_event) : Z :=
  Z.of_nat (count (same_chain (g_trace g) (g_action g)) (take i gs)).

(** The count at which a trace entry stops growing. *)
Definition guard_limit (maxDepth : Z) : Z := Z.max 1 (maxDepth + 1).

(** What the guard answers to a dispatch of [a] that [r] dispatches of [a]
    on the same trace precede. *)
Definition verdict (maxDepth : Z) (r : Z) (a : action) : option error :=
  if (0 <? r) && (maxDepth <? r)
  then Some (MaxDepthError (guard_limit maxDepth) a)
  else None.

(** For an action that is not the name of a member of the prototype, the
    count of a trace is the number of its dispatches on that trace, up to
    the limit, and every evaluation of the guard answered accordingly; a
    dispatch the guard refused has its promise rejected with the error. *)
Definition guard_inv (maxDepth : Z) (c : config) : Prop :=
  (∀ l a, inherited a = false →
          trace_count (traces c) l a =
          Z.min (Z.of_nat (count (same_chain l a) (guarded c)))
                (guard_limit maxDepth)) ∧
  (∀ i g, guarded c !! i = Some g → inherited (g_action g) = false →
          g_error g = verdict maxDepth (earlier_dispatches i (guarded c) g)
                        (g_action g)) ∧
  (∀ g e, g ∈ guarded c → g_error g = Some e →
          promises c !! g_promise g = Some (Settled (Rejected e))).

(** Settled promises of [c0] are settled in the same way in [c1]. *)
Definition settled_mono (c0 c1 : config) : Prop :=
  ∀ q s, promises c0 !! q = Some (Settled s) →
         promises c1 !! q = Some (Settled s).

(** The circular effects of the test-suite, [async (state, dispatch) =>
    { await dispatch(B); return {...state, a: ...} }] and its mirror image;
    a rejection of the awaited promise leaves the body as an exception.
    (The number the test stores is NaN, which is outside the model; [1]
    stands for it.) *)
Definition circularEffect (ref : nat) (next : action) : Effect :=
  {| eff_ref := ref; eff_async := true;
     eff_body := λ st,
       Dispatch next (λ q,
         Await q (λ r,
           match r with
           | Fulfilled _ => Return (VObj (<["a" := 1]> (obj_of st)))
           | Rejected e => Throw e
           end)) |}.

Definition circularEffectA : Effect := circularEffect 3 "B".
Definition circularEffectB : Effect := circularEffect 4 "A".

(** An effect that dispatches the same action [k] times, without awaiting:
    [(state, dispatch) => { dispatch(a); ...; dispatch(a); }]. *)
Fixpoint dispatch_times (k : nat) (a : action) : prog :=
  match k with
  | O => Return VUndefined
  | S k => Dispatch a (λ _, dispatch_times k a)
  end.

Definition dispatchTimes (ref : nat) (k : nat) (a : action) : Effect :=
  {| eff_ref := ref; eff_async := false;
     eff_body := λ _, dispatch_times k a |}.

(** A reducer of a numeric state that returns 0: [state => 0]. *)
Definition zeroEffect : Effect :=
  {| eff_ref := 6; eff_async := false; eff_body := λ _, Return (VNum 0) |}.

(** An [async] effect that awaits a dispatch and then returns 0:
    [async (state, dispatch) => { await dispatch(a); return 0 }]. *)
Definition zeroAfter (ref : nat) (a : action) : Effect :=
  {| eff_ref := ref; eff_async := true;
     eff_body := λ _,
       Dispatch a (λ q,
         Await q (λ r,
           match r with
           | Fulfilled _ => Return (VNum 0)
           | Rejected e => Throw e
           end)) |}.

(** A plain function that throws: [() => { throw 'no' }]. *)
Definition throwingEffect : Effect :=
  {| eff_ref := 7; eff_async := false;
     eff_body := λ _, Throw (Thrown (VStr "no")) |}.

(** The configuration after an operation (unchanged if the operation does
    not complete within the fuel). *)
Definition after_op (options : option EffectStateOptions) (n : nat) (o : op)
    (c : config) : config :=
  match apply_op options n o c with
  | Done c' => c'
  | _ => c
  end.

(** ** Accounting for listeners

    Each call of a listener makes one piece of code that will end with one
    call of [resolve] or [reject] of the promise of its event: an effect
    body on the stack, a microtask, or a body waiting for a promise. *)

Definition running_for (p : pid) (x : activity) : bool :=
  match x with
  | Running fr => Nat.eqb (f_promise fr) p
  | Publishing _ => false
  end.

Definition task_for (p : pid) (t : task) : bool :=
  Nat.eqb (f_promise (task_frame t)) p.

Definition waiter_for (p : pid) (w : waiter) : bool :=
  Nat.eqb (f_promise (w_frame w)) p.

(** The code in flight that will settle promise [p]. *)
Definition tokens (stk : list activity) (c : config) (p : pid) : nat :=
  (count (running_for p) stk + count (task_for p) (microtasks c)
   + count (waiter_for p) (waiting c))%nat.

Definition call_for (p : pid) (x : pid * settlement) : bool := Nat.eqb x.1 p.

(** The calls of [resolve] and [reject] of promise [p], in order. *)
Definition calls_for (p : pid) (c : config) : list settlement :=
  snd <$> List.filter (call_for p) (settle_calls c).

Definition invoked_for (p : pid) (i : invocation) : bool :=
  Nat.eqb (i_promise i) p.

(** The number of listeners called for the dispatch that returned [p]. *)
Definition ninvoked (c : config) (p : pid) : nat :=
  count (invoked_for p) (invoked c).

Definition rejected_for (p : pid) (g : guard_event) : bool :=
  Nat.eqb (g_promise g) p &&
  match g_error g with Some _ => true | None => false end.

Definition nrejected (c : config) (p : pid) : nat :=
  count (rejected_for p) (guarded c).

Definition publishing_for (p : pid) (x : activity) : bool :=
  match x with
  | Publishing fr => Nat.eqb (f_promise fr) p
  | Running _ => false
  end.

Definition accounting_inv (stk : list activity) (c : config) : Prop :=
  (∀ p, (tokens stk c p + length (calls_for p c)
         ≤ ninvoked c p + nrejected c p)%nat) ∧
  (∀ p, p ∉ dom (promises c) → ninvoked c p = O ∧ nrejected c p = O) ∧
  (∀ p, nrejected c p = O ∨ ninvoked c p = O) ∧
  (∀ p s, promises c !! p = Some (Settled s) →
          calls_for p c ≠ [] ∨ ninvoked c p = O) ∧
  (∀ fr, Publishing fr ∈ stk →
         f_promise fr ∈ dom (promises c) ∧
         nrejected c (f_promise fr) = O ∧
         ∀ s, promises c !! f_promise fr = Some (Settled s) →
              calls_for (f_promise fr) c ≠ []).

(** What the calls of [resolve] and [reject] say about a promise: a
    dispatch that the guard rejected has had its call of [reject], and the
    first call made for a promise is the settlement the promise has. *)
Definition outcome_inv (c : config) : Prop :=
  (∀ p, (nrejected c p ≤ length (calls_for p c))%nat) ∧
  (∀ p s rest, calls_for p c = s :: rest →
               promises c !! p = Some (Settled s)).

Definition ledger_inv (stk : list activity) (c : config) : Prop :=
  accounting_inv stk c ∧ outcome_inv c.

(** Promise [p] exists, [k] listeners were called for it, and no event for
    it is being published. *)
Definition calm_inv (p : pid) (k : nat) (stk : list activity) (c : config)
    : Prop :=
  p ∈ dom (promises c) ∧ ninvoked c p = k ∧
  count (publishing_for p) stk = O.

(** Nothing in flight will settle promise [p]: its state [st] and the calls
    made so far are final, and it gets no further listener. *)
Definition quiet_inv (p : pid) (st : pstate) (calls : list settlement)
    (k : nat) (stk : list activity) (c : config) : Prop :=
  promises c !! p = Some st ∧
  calls_for p c = calls ∧
  ninvoked c p = k ∧
  tokens stk c p = O ∧
  count (publishing_for p) stk = O.

(** What the listener does with the outcome of [await effect(...)]. *)
Definition settlement_of (o : settlement) : settlement :=
  match o with
  | Fulfilled v => if truthy v then Fulfilled v else Fulfilled VUndefined
  | Rejected e => Rejected e
  end.

(** The configuration once the microtask queue has run dry (unchanged if
    that takes more than the fuel). *)
Definition drained (options : option EffectStateOptions) (n : nat)
    (c : config) : config :=
  match drain options n c with
  | Done c' => c'
  | _ => c
  end.

(** ** Listeners and what a dispatch calls *)

(** The calls of listeners made for the dispatch that returned [p], in
    order. *)
Definition invocations_for (p : pid) (c : config) : list invocation :=
  List.filter (invoked_for p) (invoked c).

(** The record of a call of listener [l] for a dispatch of [a] that
    returned [p]. *)
Definition invocation_of (a : action) (p : pid) (l : listener)
    : invocation :=
  {| i_action := a; i_effect := eff_ref (l_effect l);
     i_listener := l_id l; i_promise := p |}.

(** Promise [p] exists, the calls of listeners made for it are [L], and no
    event for it is being published. *)
Definition roll_inv (p : pid) (L : list invocation) (stk : list activity)
    (c : config) : Prop :=
  p ∈ dom (promises c) ∧ invocations_for p c = L ∧
  count (publishing_for p) stk = O.

(** While the hook is mounted, the registry entry of an action lists the
    listeners the event target has for it, in the same order. *)
Definition mirror_inv (c : config) : Prop :=
  ∀ tg a, target c = Some tg →
          listeners_for a tg = default [] (allEffectsArray c !! a).

(** The listeners made for a list of effects, numbered from [k]. *)
Definition listeners_from (k : nat) (effs : list (string * Effect))
    : list (string * listener) :=
  imap (λ i e, (e.1, {| l_id := k + i; l_effect := e.2 |})) effs.

(** The registry has no entry under a name of the prototype. *)
Definition plain_registry (c : config) : Prop :=
  ∀ a, inherited a = true → allEffectsArray c !! a = None.

(** The entries of [initialEffects] that come before the first one whose
    action is a name of the prototype. *)
Fixpoint accepted_effects (effs : list (string * Effect))
    : list (string * Effect) :=
  match effs with
  | [] => []
  | e :: rest => if inherited e.1 then [] else e :: accepted_effects rest
  end.

(** The hook is unmounted, no event is being published, and the calls of
    listeners, the evaluations of the guard and the traces are the given
    ones. *)
Definition unmounted_inv (I : list invocation) (G : list guard_event)
    (T : gmap nat (gmap string Z)) (stk : list activity) (c : config)
    : Prop :=
  target c = None ∧ invoked c = I ∧ guarded c = G ∧ traces c = T ∧
  ∀ fr, Publishing fr ∉ stk.

(** ** Why synchronous dispatch ends *)

(** How many more dispatches of actions that have a listener the guard
    can let pass on trace [l]: for every listener of the event target, the
    distance of the count of its action from the cap. *)
Definition slack (maxDepth : Z) (l : loc) (c : config) : nat :=
  match target c with
  | Some tg =>
      sum_list ((λ e, Z.to_nat (guard_limit maxDepth
                                - trace_count (traces c) l e.1)) <$> tg)
  | None => O
  end.

(** The event target has no listener for a name of the prototype. *)
Definition plain_target (c : config) : Prop :=
  ∀ tg a, target c = Some tg → listeners_for a tg ≠ [] →
          inherited a = false.

(** From [c] to [c'] the event target is the same and no count of trace
    [l] went down. *)
Definition advanced (l : loc) (c c' : config) : Prop :=
  target c' = target c ∧
  ∀ a, trace_count (traces c) l a ≤ trace_count (traces c') l a.

(** Promise [p] exists and holds no value: it is pending or rejected. *)
Definition not_fulfilled (p : pid) (c : config) : Prop :=
  promises c !! p = Some Pending ∨
  ∃ e, promises c !! p = Some (Settled (Rejected e)).

(** * The first version of the hook

    The two-argument [useEffectState] of [useEffectState.ts]: no guard and
    no traces, effects take the state only, and the [resolve] and [reject]
    of a dispatch wait in the map [promises], under a symbol that travels
    in the event. *)
Module V1.

(** What a call of an effect comes to: a state (or nothing), or an
    exception.  A plain function hands it over at once, an [async] one
    through the promise it returns. *)
Inductive outcome :=
  | Returns (v : value)
  | Throws (e : error).

Record Effect :=
  { eff_ref : nat; eff_async : bool; eff_body : value → outcome }.

Record listener := { l_id : nat; l_effect : Effect }.

(** The rest of a listener after [await effect(...)]: the symbol of the
    event, the record the listener found in the map when it started, and
    what the effect produced. *)
Record task :=
  { t_symbol : nat; t_record : option pid; t_outcome : settlement }.

(** The refs of one hook instance.  [promises] is the map of the source,
    from the symbol of a dispatch to its promise; [table] holds the
    promises themselves. *)
Record config := {
  stateRef : value;
  state : value;
  target : option (list (string * listener));
  promises : gmap nat pid;
  allEffectsArray : gmap string (list listener);
  table : gmap nat pstate;
  microtasks : list task;
  next_symbol : nat;
  next_listener : nat;
  (* history, never read by the hook *)
  issued : list (nat * pid)
}.

(** [stateRef.current = newState; setState(newState)]; [setState] changes
    nothing once the component is unmounted. *)
Definition with_state (v : value) (c : config) : config :=
  {| stateRef := v;
     state := match target c with Some _ => v | None => state c end;
     target := target c;
     promises := promises c; allEffectsArray := allEffectsArray c;
     table := table c; microtasks := microtasks c;
     next_symbol := next_symbol c; next_listener := next_listener c;
     issued := issued c |}.

Definition with_target (t : option (list (string * listener))) (c : config)
    : config :=
  {| stateRef := stateRef c; state := state c; target := t;
     promises := promises c; allEffectsArray := allEffectsArray c;
     table := table c; microtasks := microtasks c;
     next_symbol := next_symbol c; next_listener := next_listener c;
     issued := issued c |}.

Definition with_promises (m : gmap nat pid) (c : config) : config :=
  {| stateRef := stateRef c; state := state c; target := target c;
     promises := m; allEffectsArray := allEffectsArray c;
     table := table c; microtasks := microtasks c;
     next_symbol := next_symbol c; next_listener := next_listener c;
     issued := issued c |}.

Definition with_allEffectsArray (r : gmap string (list listener))
    (c : config) : config :=
  {| stateRef := stateRef c; state := state c; target := target c;
     promises := promises c; allEffectsArray := r;
     table := table c; microtasks := microtasks c;
     next_symbol := next_symbol c; next_listener := next_listener c;
     issued := issued c |}.

Definition with_table (t : gmap nat pstate) (c : config) : config :=
  {| stateRef := stateRef c; state := state c; target := target c;
     promises := promises c; allEffectsArray := allEffectsArray c;
     table := t; microtasks := microtasks c;
     next_symbol := next_symbol c; next_listener := next_listener c;
     issued := issued c |}.

Definition with_microtasks (q : list task) (c : config) : config :=
  {| stateRef := stateRef c; state := state c; target := target c;
     promises := promises c; allEffectsArray := allEffectsArray c;
     table := table c; microtasks := q;
     next_symbol := next_symbol c; next_listener := next_listener c;
     issued := issued c |}.

Definition with_next_listener (n : nat) (c : config) : config :=
  {| stateRef := stateRef c; state := state c; target := target c;
     promises := promises c; allEffectsArray := allEffectsArray c;
     table := table c; microtasks := microtasks c;
     next_symbol := next_symbol c; next_listener := n;
     issued := issued c |}.

(** [Symbol()], [new Promise(...)] and [promises.current.set(...)]. *)
Definition new_dispatch (c : config) : nat * pid * config :=
  let sym := next_symbol c in
  let p := fresh (dom (table c)) in
  (sym, p,
   {| stateRef := stateRef c; state := state c; target := target c;
      promises := <[sym := p]> (promises c);
      allEffectsArray := allEffectsArray c;
      table := <[p := Pending]> (table c); microtasks := microtasks c;
      next_symbol := S sym; next_listener := next_listener c;
      issued := issued c ++ [(sym, p)] |}).

Definition enqueue (t : task) (c : config) : config :=
  with_microtasks (microtasks c ++ [t]) c.

(** A call of [resolve] or [reject] of promise [p]: only the first call
    settles the promise. *)
Definition settle (p : pid) (s : settlement) (c : config) : config :=
  match table c !! p with
  | Some Pending => with_table (<[p := Settled s]> (table c)) c
  | _ => c
  end.

(** [resolve?.(...)] and [reject?.(...)] on [promises.current.get(keySymbol)
    || {}]: without a record nothing is called. *)
Definition settle_opt (r : option pid) (s : settlement) (c : config)
    : config :=
  match r with
  | Some p => settle p s c
  | None => c
  end.

(** The listener from the end of [await effect(...)] on:
    [if (newState) ... else resolve?.()], [catch (error) { reject?.(error) }]
    and [promises.current.delete(keySymbol)]. *)
Definition finish (sym : nat) (r : option pid) (o : settlement)
    (c : config) : config :=
  let c :=
    match o with
    | Fulfilled newState =>
        if truthy newState
        then settle_opt r (Fulfilled newState) (with_state newState c)
        else settle_opt r (Fulfilled VUndefined) c
    | Rejected e => settle_opt r (Rejected e) c
    end in
  with_promises (delete sym (promises c)) c.

(** The listener built by [getListener(effect)], called with an event
    whose detail is [sym].  It reads the record, calls the effect with
    [stateRef.current] and waits for the result; an exception of a plain
    function is caught at once. *)
Definition call_listener (sym : nat) (l : listener) (c : config) : config :=
  let r := promises c !! sym in
  match eff_body (l_effect l) (stateRef c) with
  | Returns v =>
      enqueue {| t_symbol := sym; t_record := r;
                 t_outcome := Fulfilled v |} c
  | Throws e =>
      if eff_async (l_effect l)
      then enqueue {| t_symbol := sym; t_record := r;
                      t_outcome := Rejected e |} c
      else finish sym r (Rejected e) c
  end.

Definition same_listener (a : action) (l : listener)
    (e : string * listener) : bool :=
  String.eqb e.1 a && Nat.eqb (l_id e.2) (l_id l).

Definition addEventListener (a : action) (l : listener)
    (tg : list (string * listener)) : list (string * listener) :=
  if existsb (same_listener a l) tg then tg else tg ++ [(a, l)].

Definition removeEventListener (a : action) (l : listener)
    (tg : list (string * listener)) : list (string * listener) :=
  List.filter (λ e, negb (same_listener a l e)) tg.

Definition listeners_for (a : action) (tg : list (string * listener))
    : list listener :=
  snd <$> List.filter (λ e, String.eqb e.1 a) tg.

(** [dispatch]: with an event target, a new promise whose executor stores
    the record and publishes the event; without one, [undefined]. *)
Definition dispatch (a : action) (c : config) : option pid * config :=
  match target c with
  | Some tg =>
      let '(sym, p, c) := new_dispatch c in
      (Some p, foldl (λ c l, call_listener sym l c) c (listeners_for a tg))
  | None => (None, c)
  end.

(** One turn of the microtask queue. *)
Definition tick (c : config) : config :=
  match microtasks c with
  | [] => c
  | t :: q =>
      finish (t_symbol t) (t_record t) (t_outcome t) (with_microtasks q c)
  end.

Definition includes (l : listener) (handlers : list listener) : bool :=
  existsb (λ h, Nat.eqb (l_id h) (l_id l)) handlers.

(** [getListener(effect)]: every call makes a new closure. *)
Definition getListener (effect : Effect) (c : config) : listener * config :=
  ({| l_id := next_listener c; l_effect := effect |},
   with_next_listener (S (next_listener c)) c).

(** The exception of [addEffect(action, effect)], if it throws.  When
    [handlers = allEffectsArray.current[action]] is a member of the
    prototype it is truthy and has no method [includes], so the test
    [handlers && !handlers.includes(listener)] throws a [TypeError]. *)
Definition addEffect_error (a : action) (c : config) : option error :=
  if inherits (allEffectsArray c) a
  then Some (TypeError "handlers.includes is not a function")
  else None.

(** The refs after [addEffect(action, effect)].  A call that throws has
    written nothing (the closure [getListener] made for it is dropped): the
    refs are as before. *)
Definition addEffect (a : action) (effect : Effect) (c : config) : config :=
  match addEffect_error a c with
  | Some _ => c
  | None =>
      let '(l, c) := getListener effect c in
      let c :=
        match allEffectsArray c !! a with
        | Some handlers =>
            if negb (includes l handlers)
            then with_allEffectsArray
                   (<[a := handlers ++ [l]]> (allEffectsArray c)) c
            else with_allEffectsArray (<[a := [l]]> (allEffectsArray c)) c
        | None => with_allEffectsArray (<[a := [l]]> (allEffectsArray c)) c
        end in
      match target c with
      | Some tg => with_target (Some (addEventListener a l tg)) c
      | None => c
      end
  end.

(** [cleanup]: every listener of every action of [allEffectsArray] is
    removed from the target, then [target.current = undefined]. *)
Definition cleanup (c : config) : config :=
  let c :=
    foldl (λ c e,
             foldl (λ c l,
                      match target c with
                      | Some tg =>
                          with_target (Some (removeEventListener e.1 l tg)) c
                      | None => c
                      end) c e.2)
          c (map_to_list (allEffectsArray c)) in
  with_target None c.

Definition init (initialState : value) : config :=
  {| stateRef := initialState; state := initialState;
     target := Some []; promises := ∅; allEffectsArray := ∅;
     table := ∅; microtasks := []; next_symbol := O;
     next_listener := O; issued := [] |}.

(** The mount effect: [addEffect] for every entry of [initialEffects]; an
    exception of [addEffect] ends the loop. *)
Fixpoint mount (initialEffects : list (string * Effect)) (c : config)
    : config :=
  match initialEffects with
  | [] => c
  | e :: rest =>
      match addEffect_error e.1 c with
      | Some _ => c
      | None => mount rest (addEffect e.1 e.2 c)
      end
  end.

Definition useEffectState (initialState : value)
    (initialEffects : list (string * Effect)) : config :=
  mount initialEffects (init initialState).

Inductive op :=
  | Op_dispatch (a : action)
  | Op_addEffect (a : action) (effect : Effect)
  | Op_cleanup
  | Op_tick.

(** The refs after a call (a call of [addEffect] that throws leaves them as
    they are). *)
Definition apply_op (o : op) (c : config) : config :=
  match o with
  | Op_dispatch a => (dispatch a c).2
  | Op_addEffect a effect => addEffect a effect c
  | Op_cleanup => cleanup c
  | Op_tick => tick c
  end.

Definition step (c c' : config) : Prop := ∃ o, apply_op o c = c'.

Definition reachable (initialState : value) (c : config) : Prop :=
  ∃ initialEffects,
    rtc step (useEffectState initialState initialEffects) c.

(** The map [promises] against the dispatches made so far: a dispatch is
    in the map with a pending promise, or it has left the map and its
    promise is settled; a scheduled listener holds the record of its own
    dispatch, and holds none only if the record is gone. *)
Definition records_inv (c : config) : Prop :=
  (∀ sym p, (sym, p) ∈ issued c →
            (sym < next_symbol c)%nat ∧ p ∈ dom (table c)) ∧
  (∀ sym p sym' p', (sym, p) ∈ issued c → (sym', p') ∈ issued c →
                    (sym = sym' ↔ p = p')) ∧
  (∀ sym p, promises c !! sym = Some p →
            (sym, p) ∈ issued c ∧ table c !! p = Some Pending) ∧
  (∀ sym p, (sym, p) ∈ issued c → promises c !! sym = None →
            ∃ s, table c !! p = Some (Settled s)) ∧
  (∀ t, t ∈ microtasks c →
        (t_symbol t < next_symbol c)%nat ∧
        match t_record t with
        | Some p => (t_symbol t, p) ∈ issued c
        | None => promises c !! t_symbol t = None
        end).

(** The dispatch with symbol [sym] keeps its record: no listener is
    scheduled for it. *)
Definition stuck_inv (sym : nat) (p : pid) (c : config) : Prop :=
  records_inv c ∧ promises c !! sym = Some p ∧
  ∀ t, t ∈ microtasks c → t_symbol t ≠ sym.

End V1.

(** * The hook with payloads

    [src/useEffectState1/useEffectState.ts]: actions are objects with a
    type and a payload, there is no registry and no teardown, and the
    trace of a dispatch lives in a variable of the closure [getDispatch]
    returns, which every call of that closure reassigns. *)
Module Payload.

Inductive error :=
  | TypeError
  | Thrown (v : value).

Inductive settlement :=
  | Fulfilled (v : value)
  | Rejected (e : error).

Inductive pstate :=
  | Pending
  | Settled (s : settlement).

Record ActionObject := { type : action; payload : value }.

(** The body of an effect, once applied to the payload and the state.
    [Dispatch] calls the dispatch function the effect was given. *)
Inductive prog :=
  | Return (v : value)
  | Throw (e : error)
  | Dispatch (act : ActionObject) (k : pid → prog)
  | Await (q : pid) (k : settlement → prog).

Record Effect :=
  { eff_async : bool; eff_body : value → value → prog }.

(** The promise of the event, and the dispatch closure made for the
    effect: the address of its variable [trace]. *)
Record frame := { f_promise : pid; f_dispatch : nat }.

Inductive task :=
  | TResume (fr : frame) (p : prog)
  | TAfter (fr : frame) (o : settlement).

Record waiter :=
  { w_promise : pid; w_frame : frame; w_cont : settlement → prog }.

(** [closures] holds the variable [trace] of every closure made by
    [getDispatch]: [None] is [undefined]. *)
Record config := {
  stateRef : value;
  state : value;
  target : list (string * Effect);
  closures : gmap nat (option (gmap string Z));
  promises : gmap nat pstate;
  microtasks : list task;
  waiting : list waiter;
  (* history, never read by the hook *)
  invoked : list (action * pid)
}.

Definition with_state (v : value) (c : config) : config :=
  {| stateRef := v; state := v; target := target c;
     closures := closures c; promises := promises c;
     microtasks := microtasks c; waiting := waiting c;
     invoked := invoked c |}.

Definition with_target (t : list (string * Effect)) (c : config) : config :=
  {| stateRef := stateRef c; state := state c; target := t;
     closures := closures c; promises := promises c;
     microtasks := microtasks c; waiting := waiting c;
     invoked := invoked c |}.

Definition with_closures (h : gmap nat (option (gmap string Z)))
    (c : config) : config :=
  {| stateRef := stateRef c; state := state c; target := target c;
     closures := h; promises := promises c;
     microtasks := microtasks c; waiting := waiting c;
     invoked := invoked c |}.

Definition with_promises (ps : gmap nat pstate) (c : config) : config :=
  {| stateRef := stateRef c; state := state c; target := target c;
     closures := closures c; promises := ps;
     microtasks := microtasks c; waiting := waiting c;
     invoked := invoked c |}.

Definition with_microtasks (q : list task) (c : config) : config :=
  {| stateRef := stateRef c; state := state c; target := target c;
     closures := closures c; promises := promises c;
     microtasks := q; waiting := waiting c;
     invoked := invoked c |}.

Definition with_waiting (w : list waiter) (c : config) : config :=
  {| stateRef := stateRef c; state := state c; target := target c;
     closures := closures c; promises := promises c;
     microtasks := microtasks c; waiting := w;
     invoked := invoked c |}.

Definition log_invoked (i : action * pid) (c : config) : config :=
  {| stateRef := stateRef c; state := state c; target := target c;
     closures := closures c; promises := promises c;
     microtasks := microtasks c; waiting := waiting c;
     invoked := invoked c ++ [i] |}.

Definition enqueue (t : task) (c : config) : config :=
  with_microtasks (microtasks c ++ [t]) c.

Definition settle (p : pid) (s : settlement) (c : config) : config :=
  match promises c !! p with
  | Some Pending =>
      with_waiting
        (List.filter (λ w, negb (Nat.eqb (w_promise w) p)) (waiting c))
        (with_microtasks
           (microtasks c ++
              List.map (λ w, TResume (w_frame w) (w_cont w s))
                (List.filter (λ w, Nat.eqb (w_promise w) p) (waiting c)))
           (with_promises (<[p := Settled s]> (promises c)) c))
  | _ => c
  end.

Definition await (fr : frame) (q : pid) (k : settlement → prog)
    (c : config) : config :=
  match promises c !! q with
  | Some Pending =>
      with_waiting
        (waiting c ++ [{| w_promise := q; w_frame := fr; w_cont := k |}]) c
  | Some (Settled s) => enqueue (TResume fr (k s)) c
  | None => c
  end.

(** [trace[type] ? { ...trace, [type]: trace[type] + 1 } : { [type]: 1 }]
    for a trace that is an object (modelled, as above, by its counts): a
    type that is not counted yet starts a new object, which drops the
    counts of all other types.  When [trace[type]] is a member of the
    prototype it is truthy: the spread keeps all counts, and what is
    stored under the type is a text, not a count. *)
Definition next_trace (trace : gmap string Z) (ty : action)
    : gmap string Z :=
  if inherits trace ty then trace
  else
    let n := default 0 (trace !! ty) in
    if negb (n =? 0) then <[ty := n + 1]> trace else {[ty := 1]}.

(** The same expression for the variable of a closure: reading a property
    of [undefined] throws. *)
Definition next_trace_of (trace : option (gmap string Z)) (ty : action)
    : error + gmap string Z :=
  match trace with
  | Some t => inr (next_trace t ty)
  | None => inl TypeError
  end.

Section Dispatch.

Variable run : bool → frame → prog → config → result config.

(** The listener [addEffect] attaches, called with an event: it makes a
    dispatch closure for the trace of the event and calls the effect. *)
Definition call_listener (act : ActionObject) (p : pid)
    (trace : gmap string Z) (effect : Effect) (c : config)
    : result config :=
  let d := fresh (dom (closures c)) in
  let c := with_closures (<[d := Some trace]> (closures c)) c in
  let c := log_invoked (type act, p) c in
  run (negb (eff_async effect)) {| f_promise := p; f_dispatch := d |}
    (eff_body effect (payload act) (stateRef c)) c.

Fixpoint call_listeners (act : ActionObject) (p : pid)
    (trace : gmap string Z) (ls : list Effect) (c : config)
    : result config :=
  match ls with
  | [] => Done c
  | l :: ls =>
      match call_listener act p trace l c with
      | Done c' => call_listeners act p trace ls c'
      | r => r
      end
  end.

Definition listeners_for (a : action) (tg : list (string * Effect))
    : list Effect :=
  snd <$> List.filter (λ e, String.eqb e.1 a) tg.

(** A call of the closure at [d] that [getDispatch] returned.  The
    executor of the new promise reassigns the variable [trace] and
    publishes the event; when the variable is [undefined] the executor
    throws, which rejects the promise. *)
Definition call_dispatch (d : nat) (act : ActionObject) (c : config)
    : result (pid * config) :=
  let p := fresh (dom (promises c)) in
  let c := with_promises (<[p := Pending]> (promises c)) c in
  match next_trace_of (default None (closures c !! d)) (type act) with
  | inr trace =>
      let c := with_closures (<[d := Some trace]> (closures c)) c in
      match call_listeners act p trace
              (listeners_for (type act) (target c)) c with
      | Done c' => Done (p, c')
      | Raise e => Raise e
      | Timeout => Timeout
      end
  | inl e => Done (p, settle p (Rejected e) c)
  end.

End Dispatch.

Fixpoint exec (n : nat) (plain : bool) (fr : frame) (p : prog) (c : config)
    : result config :=
  match n with
  | O => Timeout
  | S n =>
      match p with
      | Return v => Done (enqueue (TAfter fr (Fulfilled v)) c)
      | Throw e =>
          if plain then Done (settle (f_promise fr) (Rejected e) c)
          else Done (enqueue (TAfter fr (Rejected e)) c)
      | Dispatch act k =>
          match call_dispatch (exec n) (f_dispatch fr) act c with
          | Done (q, c') => exec n plain fr (k q) c'
          | Raise e => Raise e
          | Timeout => Timeout
          end
      | Await q k => Done (await fr q k c)
      end
  end.

(** [firstDispatch = getDispatch()]: the closure at address 0, whose
    variable [trace] starts out [undefined]. *)
Definition firstDispatch (n : nat) (act : ActionObject) (c : config)
    : result (pid * config) :=
  call_dispatch (exec n) O act c.

(** The listener after [await effect(...)]. *)
Definition after_await (fr : frame) (o : settlement) (c : config)
    : config :=
  match o with
  | Fulfilled newState =>
      if truthy newState
      then settle (f_promise fr) (Fulfilled newState)
             (with_state newState c)
      else settle (f_promise fr) (Fulfilled VUndefined) c
  | Rejected e => settle (f_promise fr) (Rejected e) c
  end.

Definition tick (n : nat) (c : config) : result config :=
  match microtasks c with
  | [] => Done c
  | TResume fr p :: q => exec n false fr p (with_microtasks q c)
  | TAfter fr o :: q => Done (after_await fr o (with_microtasks q c))
  end.

(** [addEffect]: a new listener on the event target, nothing else. *)
Definition addEffect (actionType : action) (effect : Effect) (c : config)
    : config :=
  with_target (target c ++ [(actionType, effect)]) c.

Definition useEffectState (initialState : value) : config :=
  {| stateRef := initialState; state := initialState; target := [];
     closures := {[ O := None ]}; promises := ∅; microtasks := [];
     waiting := []; invoked := [] |}.

Inductive op :=
  | Op_dispatch (act : ActionObject)
  | Op_addEffect (actionType : action) (effect : Effect)
  | Op_tick.

Definition apply_op (n : nat) (o : op) (c : config) : result config :=
  match o with
  | Op_dispatch act =>
      match firstDispatch n act c with
      | Done (_, c') => Done c'
      | Raise e => Raise e
      | Timeout => Timeout
      end
  | Op_addEffect a effect => Done (addEffect a effect c)
  | Op_tick => tick n c
  end.

Definition step (c c' : config) : Prop :=
  ∃ n o, apply_op n o c = Done c'.

Definition reachable (initialState : value) (c : config) : Prop :=
  rtc step (useEffectState initialState) c.

(** Nothing has ever run: the variable of [firstDispatch] is [undefined],
    no effect was called, nothing is scheduled, and the state is the
    initial one. *)
Definition idle_inv (s0 : value) (c : config) : Prop :=
  closures c !! O = Some None ∧ invoked c = [] ∧ microtasks c = [] ∧
  waiting c = [] ∧ state c = s0 ∧ stateRef c = s0.

(** The trace at the end of a chain of nested dispatches of the given
    types. *)
Definition trace_after (trace : gmap string Z) (tys : list action)
    : gmap string Z :=
  foldl next_trace trace tys.

(** No type of the chain [a :: tys] is followed by itself. *)
Fixpoint no_repeat (a : action) (tys : list action) : bool :=
  match tys with
  | [] => true
  | b :: tys => negb (String.eqb a b) && no_repeat b tys
  end.

End Payload.

(** * Invariants of the engine *)

Section Sync_invariant.

Variable options : option EffectStateOptions.
Variable P : list activity → config → Prop.

Hypothesis P_return : ∀ fr stk v c,
  P (Running fr :: stk) c →
  P stk (enqueue (TAfter fr (Fulfilled v)) (log_returned v c)).
Hypothesis P_throw : ∀ fr stk e c,
  P (Running fr :: stk) c →
  P stk (enqueue (TAfter fr (Rejected e)) c).
Hypothesis P_throw_plain : ∀ fr stk e c,
  P (Running fr :: stk) c → P stk (reject (f_promise fr) e c).
Hypothesis P_await : ∀ fr stk q k c,
  P (Running fr :: stk) c → P stk (await fr q k c).
Hypothesis P_guard_pass : ∀ stk a c tg l h,
  P stk c → target c = Some tg →
  getNextTrace (maxTraceDepth options) a (prev_of stk) (traces c)
    = Done (l, h) →
  let p := fresh (dom (promises c)) in
  P (Publishing {| f_promise := p; f_trace := l |} :: stk)
    (log_guarded {| g_trace := l; g_action := a; g_promise := p;
                    g_error := None |}
       (with_traces h (new_promise c).2)).
Hypothesis P_guard_fail : ∀ stk a c tg l e,
  P stk c → target c = Some tg → prev_of stk = Some l →
  getNextTrace (maxTraceDepth options) a (Some l) (traces c) = Raise e →
  let p := fresh (dom (promises c)) in
  P stk (reject p e
           (log_guarded {| g_trace := l; g_action := a; g_promise := p;
                           g_error := Some e |} (new_promise c).2)).
Hypothesis P_invoke : ∀ stk fr a l c,
  P (Publishing fr :: stk) c →
  P (Running fr :: Publishing fr :: stk)
    (log_invoked {| i_action := a; i_effect := eff_ref (l_effect l);
                    i_listener := l_id l; i_promise := f_promise fr |} c).
Hypothesis P_published : ∀ stk fr c, P (Publishing fr :: stk) c → P stk c.
Hypothesis P_unmounted : ∀ stk c,
  P stk c → target c = None → P stk (promise_resolved VUndefined c).2.

Lemma getNextTrace_fresh_never_raises maxDepth a h e :
  getNextTrace maxDepth a None h ≠ Raise e.
Proof. done. Qed.

Lemma getNextTrace_never_times_out maxDepth a prev h :
  getNextTrace maxDepth a prev h ≠ Timeout.
Proof.
  unfold getNextTrace. destruct prev; [|done].
  repeat case_match; done.
Qed.

Section Dispatch_step.

Variable n : nat.
Hypothesis exec_pres : ∀ plain fr p stk c c',
  P (Running fr :: stk) c → exec options n plain fr p c = Done c' →
  P stk c'.

Lemma call_listeners_pres ls : ∀ a fr stk c c',
  P (Publishing fr :: stk) c →
  call_listeners (exec options n) a fr ls c = Done c' →
  P (Publishing fr :: stk) c'.
Proof.
  induction ls as [|l ls IH]; intros a fr stk c c' HP Hc; simpl in Hc.
  - by injection Hc as <-.
  - destruct (call_listener _ a fr l c) as [c1| |] eqn:E; try done.
    eapply IH; [|exact Hc].
    eapply exec_pres; [|exact E]. by apply P_invoke.
Qed.

Lemma dispatchTrace_pres stk a c q c' :
  P stk c →
  dispatchTrace options n (prev_of stk) a c = Done (q, c') →
  P stk c'.
Proof.
  intros HP. unfold dispatchTrace, dispatchTrace_with.
  destruct (target c) as [tg|] eqn:Htg.
  - simpl.
    destruct (getNextTrace _ a (prev_of stk) (traces c))
      as [[l h]| e |] eqn:G.
    + pose proof (P_guard_pass stk a c tg l h HP Htg G) as HP'.
      simpl in HP'.
      unfold dispatchEvent. simpl. rewrite Htg.
      destruct (call_listeners _ _ _ _ _) as [c1| |] eqn:E; try done.
      intros [= <- <-]. eapply P_published, call_listeners_pres; eauto.
    + destruct (prev_of stk) as [l|] eqn:Hprev; [|done].
      intros [= <- <-].
      exact (P_guard_fail stk a c tg l e HP Htg Hprev G).
    + done.
  - intros [= <- <-]. by apply P_unmounted.
Qed.

End Dispatch_step.

Lemma exec_pres n : ∀ plain fr p stk c c',
  P (Running fr :: stk) c → exec options n plain fr p c = Done c' →
  P stk c'.
Proof.
  induction n as [|n IH]; intros plain fr p stk c c' HP He; [done|].
  destruct p as [v|e|a k|q k]; simpl in He.
  - injection He as <-. by apply P_return.
  - destruct plain; injection He as <-;
      [by apply P_throw_plain|by apply P_throw].
  - destruct (dispatchTrace_with _ _ _ _ _) as [[q c1]| |] eqn:E; try done.
    eapply IH; [|exact He].
    eapply (dispatchTrace_pres n IH (Running fr :: stk)); [exact HP|].
    exact E.
  - injection He as <-. by apply P_await.
Qed.

Lemma dispatch_pres n a c q c' :
  P [] c → dispatch options n a c = Done (q, c') → P [] c'.
Proof.
  intros HP Hd. eapply (dispatchTrace_pres n (exec_pres n) []); eauto.
Qed.

(** *** Invariants of whole runs *)

Hypothesis P_resume : ∀ fr p q c,
  P [] c → microtasks c = TResume fr p :: q →
  P [Running fr] (with_microtasks q c).
Hypothesis P_after : ∀ fr o q c,
  P [] c → microtasks c = TAfter fr o :: q →
  P [] (after_await fr o (with_microtasks q c)).
Hypothesis P_addEffect : ∀ a effect c, P [] c → P [] (addEffect a effect c).
Hypothesis P_cleanup : ∀ c, P [] c → P [] (cleanup c).

Lemma tick_pres n c c' : P [] c → tick options n c = Done c' → P [] c'.
Proof.
  intros HP. unfold tick.
  destruct (microtasks c) as [|[fr p|fr o] q] eqn:Hq; simpl.
  - by intros [= <-].
  - intros He. eapply exec_pres; [|exact He]. by eapply P_resume.
  - intros [= <-]. by apply P_after.
Qed.

Lemma step_pres c c' : P [] c → step options c c' → P [] c'.
Proof.
  intros HP (n & o & Ho). destruct o as [a|a effect| |]; simpl in Ho.
  - destruct (dispatch options n a c) as [[q c1]| |] eqn:E; try done.
    injection Ho as <-. eapply dispatch_pres; eauto.
  - destruct (addEffect_error a c); [done|].
    injection Ho as <-. by apply P_addEffect.
  - injection Ho as <-. by apply P_cleanup.
  - eapply tick_pres; eauto.
Qed.

Lemma steps_pres c c' : P [] c → rtc (step options) c c' → P [] c'.
Proof. intros HP Hr. induction Hr; eauto using step_pres. Qed.

Lemma mount_pres effs c : P [] c → P [] (mount effs c).
Proof.
  revert c. induction effs as [|[a e] effs IH]; intros c HP; [done|].
  cbn [mount fst snd]. destruct (addEffect_error a c); [done|].
  apply IH. by apply P_addEffect.
Qed.

Lemma reachable_pres s0 c :
  P [] (init s0) → reachable options s0 c → P [] c.
Proof.
  intros HP (effs & Hr). eapply steps_pres; [|exact Hr].
  by apply mount_pres.
Qed.

End Sync_invariant.

(** * Basic facts *)

(** Reduce the projections of updated configurations, and nothing else. *)
Ltac fields :=
  cbn [stateRef state target allEffectsArray traces promises microtasks
       waiting next_listener invoked returned settle_calls guarded
       with_state with_target with_allEffectsArray with_traces
       with_promises with_microtasks with_waiting with_next_listener
       log_returned log_invoked log_settle log_guarded
       fst snd f_promise f_trace] in *.

Ltac prim :=
  unfold after_await, resolve, reject, settle, await, enqueue, new_promise,
    promise_resolved in *;
  fields; repeat (case_match; fields); try done; try congruence.

(** [cleanup] writes the event target and nothing else. *)
Lemma with_target_id c : with_target (target c) c = c.
Proof. by destruct c. Qed.

Lemma with_target_twice t t' c :
  with_target t (with_target t' c) = with_target t c.
Proof. done. Qed.

Lemma remove_listeners_only_target a ls c :
  remove_listeners a ls c = with_target (target (remove_listeners a ls c)) c.
Proof.
  unfold remove_listeners. revert c.
  induction ls as [|l ls IH]; intros c; simpl.
  - by rewrite with_target_id.
  - destruct (target c) as [tg|]; [|apply IH].
    rewrite IH at 1. by rewrite with_target_twice.
Qed.

Lemma cleanup_loop_only_target c :
  cleanup_loop c = with_target (target (cleanup_loop c)) c.
Proof.
  unfold cleanup_loop.
  generalize (map_to_list (allEffectsArray c)). intros es. revert c.
  induction es as [|[a ls] es IH]; intros c; simpl.
  - by rewrite with_target_id.
  - rewrite IH at 1.
    set (t := target (foldl _ (remove_listeners a ls c) es)).
    by rewrite (remove_listeners_only_target a ls c), with_target_twice.
Qed.

Lemma cleanup_only_target c : cleanup c = with_target None c.
Proof.
  unfold cleanup. rewrite cleanup_loop_only_target.
  by rewrite with_target_twice.
Qed.

Lemma after_await_unfold fr o c :
  after_await fr o c =
    settle (f_promise fr) (settlement_of o)
      (match o with
       | Fulfilled v => if truthy v then with_state v c else c
       | Rejected _ => c
       end).
Proof.
  unfold after_await, resolve, reject, settlement_of.
  destruct o as [v|e]; [|done]. by destruct (truthy v).
Qed.

Section Unmounted.

Variable options : option EffectStateOptions.

Lemma addEffect_target_None a effect c :
  target c = None → target (addEffect a effect c) = None.
Proof. intros H. unfold addEffect, getListener. prim. Qed.

(** Nothing re-creates the event target once it is gone. *)
Lemma unmounted_forever c c' :
  target c = None → rtc (step options) c c' → target c' = None.
Proof.
  intros H Hr.
  apply (steps_pres options (λ _ c, target c = None)) with (c := c);
    try done; clear; intros; try (by apply addEffect_target_None); prim.
Qed.

End Unmounted.

Lemma addEffect_fields a effect c :
  state (addEffect a effect c) = state c ∧
  stateRef (addEffect a effect c) = stateRef c ∧
  traces (addEffect a effect c) = traces c ∧
  promises (addEffect a effect c) = promises c ∧
  microtasks (addEffect a effect c) = microtasks c ∧
  waiting (addEffect a effect c) = waiting c ∧
  invoked (addEffect a effect c) = invoked c ∧
  returned (addEffect a effect c) = returned c ∧
  settle_calls (addEffect a effect c) = settle_calls c ∧
  guarded (addEffect a effect c) = guarded c.
Proof. unfold addEffect, getListener. prim. Qed.

Lemma fresh_promise_None (c : config) :
  promises c !! fresh (dom (promises c)) = None.
Proof. apply not_elem_of_dom, is_fresh. Qed.

Lemma fresh_promise_ne (c : config) p st :
  promises c !! p = Some st → fresh (dom (promises c)) ≠ p.
Proof. intros H <-. by rewrite fresh_promise_None in H. Qed.

Section Settled.

Variable options : option EffectStateOptions.

(** A settled promise keeps its settlement. *)
Lemma settled_forever p s c c' :
  promises c !! p = Some (Settled s) →
  rtc (step options) c c' →
  promises c' !! p = Some (Settled s).
Proof.
  intros H Hr.
  apply (steps_pres options (λ _ c, promises c !! p = Some (Settled s)))
    with (c := c); try done; clear; intros;
    try rewrite cleanup_only_target;
    try (unfold addEffect, getListener); prim;
    repeat (rewrite lookup_insert_ne; [|first [by eapply fresh_promise_ne
                                              |congruence]]);
    done.
Qed.

End Settled.

(** * The claims *)

(** C3.  After teardown every call of a dispatch function, the one of the
    hook or one bound to a trace, for any action and at any later time,
    returns at once (whatever the fuel) a promise that is already resolved
    with [undefined] and stays so; nothing is thrown, no listener is called,
    nothing is scheduled and the state is unchanged. *)
Theorem dispatch_after_teardown (options : option EffectStateOptions)
    (c c' : config) (n : nat) (prev : option loc) (a : action) :
  rtc (step options) (cleanup c) c' →
  ∃ p c'',
    dispatchTrace options n prev a c' = Done (p, c'') ∧
    promises c'' !! p = Some (Settled (Fulfilled VUndefined)) ∧
    (∀ c3, rtc (step options) c'' c3 →
           promises c3 !! p = Some (Settled (Fulfilled VUndefined))) ∧
    state c'' = state c' ∧ stateRef c'' = stateRef c' ∧
    invoked c'' = invoked c' ∧ microtasks c'' = microtasks c' ∧
    waiting c'' = waiting c' ∧ settle_calls c'' = settle_calls c'.
Proof.
  intros Hr.
  assert (target c' = None) as Ht
    by (eapply unmounted_forever; [|exact Hr]; done).
  unfold dispatchTrace, dispatchTrace_with. rewrite Ht.
  eexists _, _. split; [reflexivity|].
  assert (promises (promise_resolved VUndefined c').2
            !! (promise_resolved VUndefined c').1
          = Some (Settled (Fulfilled VUndefined))) as Hp
    by (simpl; by rewrite lookup_insert_eq).
  split; [exact Hp|]. split; [|done].
  intros c3 H3. by eapply settled_forever.
Qed.

Lemma dispatch_after_teardown_witness :
  ∃ p c'',
    dispatchTrace None 0 None "A" (cleanup (init (VNum 1))) = Done (p, c'') ∧
    promises c'' !! p = Some (Settled (Fulfilled VUndefined)) ∧
    (∀ c3, rtc (step None) c'' c3 →
           promises c3 !! p = Some (Settled (Fulfilled VUndefined))) ∧
    state c'' = state (cleanup (init (VNum 1))) ∧
    stateRef c'' = stateRef (cleanup (init (VNum 1))) ∧
    invoked c'' = invoked (cleanup (init (VNum 1))) ∧
    microtasks c'' = microtasks (cleanup (init (VNum 1))) ∧
    waiting c'' = waiting (cleanup (init (VNum 1))) ∧
    settle_calls c'' = settle_calls (cleanup (init (VNum 1))).
Proof.
  apply (dispatch_after_teardown None (init (VNum 1))
           (cleanup (init (VNum 1))) 0 None "A").
  apply rtc_refl.
Defined.

(** C6.  When the guard trips (that is, [getNextTrace] throws) in a call of
    a dispatch function, the call itself returns normally, whatever the
    fuel: the error is the rejection of the promise the call returns, and
    remains so.  The event is not published: no listener is called, the
    traces and the state are as before. *)
Theorem guard_error_rejects_the_promise (options : option EffectStateOptions)
    (n : nat) (prev : option loc) (a : action) (c : config)
    (tg : list (string * listener)) (e : error) :
  target c = Some tg →
  getNextTrace (maxTraceDepth options) a prev (traces c) = Raise e →
  ∃ p c',
    dispatchTrace options n prev a c = Done (p, c') ∧
    promises c' !! p = Some (Settled (Rejected e)) ∧
    (∀ c3, rtc (step options) c' c3 →
           promises c3 !! p = Some (Settled (Rejected e))) ∧
    invoked c' = invoked c ∧ traces c' = traces c ∧
    state c' = state c ∧ stateRef c' = stateRef c.
Proof.
  intros Ht Hg. unfold dispatchTrace, dispatchTrace_with. rewrite Ht.
  cbn [new_promise]. fields. rewrite Hg.
  eexists _, _. split; [reflexivity|].
  match goal with |- ?A ∧ _ => assert A as Hp end.
  { unfold reject, settle. destruct prev; fields;
      rewrite lookup_insert_eq; fields; by rewrite lookup_insert_eq. }
  split; [exact Hp|]. split; [intros c3 H3; by eapply settled_forever|].
  unfold reject, settle. destruct prev; fields;
    rewrite lookup_insert_eq; by fields.
Qed.

Lemma guard_error_rejects_the_promise_witness :
  let c := with_traces {[ 0%nat := {[ "A" := 21 ]} ]} (init (VNum 1)) in
  ∃ p c',
    dispatchTrace None 0 (Some 0%nat) "A" c = Done (p, c') ∧
    promises c' !! p = Some (Settled (Rejected (MaxDepthError 21 "A"))) ∧
    (∀ c3, rtc (step None) c' c3 →
           promises c3 !! p
             = Some (Settled (Rejected (MaxDepthError 21 "A")))) ∧
    invoked c' = invoked c ∧ traces c' = traces c ∧
    state c' = state c ∧ stateRef c' = stateRef c.
Proof.
  intros c.
  apply (guard_error_rejects_the_promise None 0 (Some 0%nat) "A" c []
           (MaxDepthError 21 "A")).
  - reflexivity.
  - vm_compute. reflexivity.
Defined.

(** * The registry and the event target *)

Lemma same_listener_refl a l : same_listener a l (a, l) = true.
Proof.
  unfold same_listener. cbn [fst snd].
  by rewrite String.eqb_refl, Nat.eqb_refl.
Qed.

Lemma includes_newer l hs :
  (∀ h, h ∈ hs → (l_id h < l_id l)%nat) → includes l hs = false.
Proof.
  intros H. unfold includes. apply not_true_is_false. intros Hex.
  apply existsb_exists in Hex as (h & Hin & Heq).
  apply Nat.eqb_eq in Heq. apply list_elem_of_In, H in Hin. lia.
Qed.

Lemma addEventListener_newer a l tg :
  (∀ a' l', (a', l') ∈ tg → (l_id l' < l_id l)%nat) →
  addEventListener a l tg = tg ++ [(a, l)].
Proof.
  intros H. unfold addEventListener.
  destruct (existsb _ tg) eqn:E; [|done].
  apply existsb_exists in E as ([a' l'] & Hin & Heq).
  unfold same_listener in Heq. cbn [fst snd] in Heq.
  apply andb_true_iff in Heq as [_ Heq]. apply Nat.eqb_eq in Heq.
  apply list_elem_of_In, H in Hin. lia.
Qed.

(** [addEffect] throws for the names of the prototype that have no entry,
    and for no other action. *)
Lemma addEffect_error_plain a c :
  inherited a = false → addEffect_error a c = None.
Proof.
  intros H. unfold addEffect_error, inherits. rewrite H.
  by destruct (allEffectsArray c !! a).
Qed.

Lemma addEffect_error_Some a c e :
  addEffect_error a c = Some e →
  e = TypeError "handlers.includes is not a function" ∧
  inherited a = true ∧ allEffectsArray c !! a = None.
Proof.
  unfold addEffect_error, inherits.
  destruct (allEffectsArray c !! a); [done|].
  destruct (inherited a); [|done]. by intros [= <-].
Qed.

Lemma addEffect_thrown a effect c e :
  addEffect_error a c = Some e → addEffect a effect c = c.
Proof. intros H. unfold addEffect. by rewrite H. Qed.

(** What [addEffect] does, when it does not throw, in a configuration that
    satisfies the invariant: the new closure is appended to the registry
    entry and to the target. *)
Lemma addEffect_unfold a effect c :
  addEffect_error a c = None →
  registry_inv c →
  let l := {| l_id := next_listener c; l_effect := effect |} in
  addEffect a effect c =
    with_target
      ((λ tg, tg ++ [(a, l)]) <$> target c)
      (with_allEffectsArray
         (<[a := default [] (allEffectsArray c !! a) ++ [l]]>
            (allEffectsArray c))
         (with_next_listener (S (next_listener c)) c)).
Proof.
  intros He [Htg Hreg] l. unfold addEffect, getListener. rewrite He. fields.
  destruct (allEffectsArray c !! a) as [hs|] eqn:Ha; fields.
  - rewrite includes_newer.
    2:{ intros h Hh. apply (Hreg a). by exists hs. }
    cbn [negb]. fields.
    destruct (target c) as [tg|] eqn:Ht; cbn [fmap option_fmap option_map].
    + rewrite addEventListener_newer; [done|].
      intros a' l' Hin. by apply (Htg tg a' l').
    + destruct c. fields. by subst.
  - destruct (target c) as [tg|] eqn:Ht; cbn [fmap option_fmap option_map].
    + rewrite addEventListener_newer; [done|].
      intros a' l' Hin. by apply (Htg tg a' l').
    + destruct c. fields. by subst.
Qed.

Lemma addEffect_registry_inv a effect c :
  registry_inv c → registry_inv (addEffect a effect c).
Proof.
  intros Hinv. destruct (addEffect_error a c) as [e|] eqn:He;
    [by rewrite (addEffect_thrown a effect c e He)|].
  rewrite addEffect_unfold by done.
  destruct Hinv as [Htg Hreg].
  assert (∀ a' l', registered a' l' c →
            registered a' l'
              (with_target ((λ tg, tg ++ [(a, {| l_id := next_listener c;
                                                  l_effect := effect |})])
                              <$> target c)
                 (with_allEffectsArray
                    (<[a := default [] (allEffectsArray c !! a) ++
                              [{| l_id := next_listener c;
                                  l_effect := effect |}]]>
                       (allEffectsArray c))
                    (with_next_listener (S (next_listener c)) c)))) as Hmono.
  { intros a' l' (ls & Hl & Hin). unfold registered. fields.
    destruct (decide (a = a')) as [<-|Hne].
    - rewrite lookup_insert_eq, Hl. cbn [default].
      eexists. split; [done|]. apply elem_of_app. by left.
    - rewrite lookup_insert_ne by done. eauto. }
  assert (∀ a' l',
            registered a' l'
              (with_target ((λ tg, tg ++ [(a, {| l_id := next_listener c;
                                                  l_effect := effect |})])
                              <$> target c)
                 (with_allEffectsArray
                    (<[a := default [] (allEffectsArray c !! a) ++
                              [{| l_id := next_listener c;
                                  l_effect := effect |}]]>
                       (allEffectsArray c))
                    (with_next_listener (S (next_listener c)) c))) →
            (l_id l' < S (next_listener c))%nat) as Hnew.
  { intros a' l' (ls & Hl & Hin). fields.
    destruct (decide (a = a')) as [<-|Hne].
    - rewrite lookup_insert_eq in Hl. injection Hl as <-.
      apply elem_of_app in Hin as [Hin|Hin].
      + destruct (allEffectsArray c !! a) as [hs|] eqn:Ha;
          cbn [default] in Hin; [|set_solver].
        assert (l_id l' < next_listener c)%nat; [|lia].
        apply (Hreg a). by exists hs.
      + apply list_elem_of_singleton in Hin as ->. cbn [l_id]. lia.
    - rewrite lookup_insert_ne in Hl by done.
      assert (l_id l' < next_listener c)%nat; [|lia].
      apply (Hreg a'). by exists ls. }
  split.
  - intros tg' a' l'. fields. intros Ht Hin.
    destruct (target c) as [tg|] eqn:Htc; [|done].
    injection Ht as <-.
    apply elem_of_app in Hin as [Hin|Hin].
    + destruct (Htg tg a' l' eq_refl Hin) as [Hr Hlt].
      split; [by apply Hmono|lia].
    + apply list_elem_of_singleton in Hin. injection Hin as -> ->.
      split; [|cbn [l_id]; lia].
      unfold registered. fields. rewrite lookup_insert_eq.
      eexists. split; [done|]. apply elem_of_app. right.
      by apply list_elem_of_singleton.
  - intros a' l' Hr. fields. by apply (Hnew a').
Qed.

Lemma init_registry_inv s0 : registry_inv (init s0).
Proof.
  split.
  - intros tg a l [= <-] Hin. set_solver.
  - intros a l (ls & Hl & _). unfold init in Hl. fields.
    by rewrite lookup_empty in Hl.
Qed.

Section Registry.

Variable options : option EffectStateOptions.

Lemma reachable_registry_inv s0 c :
  reachable options s0 c → registry_inv c.
Proof.
  apply (reachable_pres options (λ _ c, registry_inv c)); try done.
  all: try (by apply init_registry_inv).
  all: try (by intros; apply addEffect_registry_inv).
  all: try (intros ? Hc; rewrite cleanup_only_target; destruct Hc as [? ?];
            split; [by fields|done]).
  all: unfold registry_inv, registered; intros; prim.
Qed.

End Registry.

(** After the loops of [cleanup] a listener is still on the target only if
    no entry of the registry names it. *)
Lemma remove_listeners_target a ls c tg :
  target c = Some tg →
  ∃ tg', target (remove_listeners a ls c) = Some tg' ∧
         ∀ e, e ∈ tg' ↔ e ∈ tg ∧ ∀ l, l ∈ ls → same_listener a l e = false.
Proof.
  unfold remove_listeners. revert c tg.
  induction ls as [|l ls IH]; intros c tg Ht; cbn [foldl].
  - exists tg. split; [done|]. intros e. split; [|tauto].
    intros He. split; [done|]. intros l Hl. by apply elem_of_nil in Hl.
  - rewrite Ht.
    destruct (IH (with_target (Some (removeEventListener a l tg)) c)
                 (removeEventListener a l tg) eq_refl) as (tg' & Ht' & Hiff).
    exists tg'. split; [exact Ht'|]. intros e. rewrite Hiff.
    unfold removeEventListener.
    rewrite (list_elem_of_In (List.filter _ tg)), filter_In,
      <- list_elem_of_In, negb_true_iff.
    split.
    + intros [[He Hl] Hls]. split; [done|]. intros l0 Hl0.
      apply elem_of_cons in Hl0 as [->|Hl0]; auto.
    + intros [He Hls]. repeat split; [done|..].
      * apply Hls. by left.
      * intros l0 Hl0. apply Hls. by right.
Qed.

Lemma cleanup_loop_target c tg :
  target c = Some tg →
  ∃ tg', target (cleanup_loop c) = Some tg' ∧
         ∀ e, e ∈ tg' →
              e ∈ tg ∧ ∀ a ls l, allEffectsArray c !! a = Some ls →
                                 l ∈ ls → same_listener a l e = false.
Proof.
  unfold cleanup_loop.
  assert (∀ es c0 tg0,
            target c0 = Some tg0 →
            ∃ tg', target (foldl (λ c e, remove_listeners e.1 e.2 c) c0 es)
                     = Some tg' ∧
                   ∀ e, e ∈ tg' →
                        e ∈ tg0 ∧ ∀ a ls l, (a, ls) ∈ es → l ∈ ls →
                                            same_listener a l e = false)
    as Hfold.
  { induction es as [|[a ls] es IH]; intros c0 tg0 Ht0; cbn [foldl fst snd].
    - exists tg0. split; [done|]. intros e He. split; [done|].
      intros a ls l Hin. by apply elem_of_nil in Hin.
    - destruct (remove_listeners_target a ls c0 tg0 Ht0)
        as (tg1 & Ht1 & Hiff1).
      destruct (IH _ tg1 Ht1) as (tg' & Ht' & Himp).
      exists tg'. split; [exact Ht'|]. intros e He.
      destruct (Himp e He) as [He1 Hes]. apply Hiff1 in He1 as [He0 Hls].
      split; [done|]. intros a' ls' l Hin Hl.
      apply elem_of_cons in Hin as [[= -> ->]|Hin]; eauto. }
  intros Ht. destruct (Hfold (map_to_list (allEffectsArray c)) c tg Ht)
    as (tg' & Ht' & Himp).
  exists tg'. split; [exact Ht'|]. intros e He.
  destruct (Himp e He) as [He0 Hes]. split; [done|].
  intros a ls l Hl Hin. apply (Hes a ls l); [|done].
  by apply elem_of_map_to_list.
Qed.

Lemma cleanup_loop_unmounted c :
  target c = None → target (cleanup_loop c) = None.
Proof.
  unfold cleanup_loop. generalize (map_to_list (allEffectsArray c)).
  intros es. revert c.
  induction es as [|[a ls] es IH]; intros c Ht; cbn [foldl fst snd];
    [done|].
  apply IH. unfold remove_listeners. clear IH. revert c Ht.
  induction ls as [|l ls IH]; intros c Ht; cbn [foldl]; [done|].
  rewrite Ht. by apply IH.
Qed.

(** C9, as the code has it.  Teardown removes every listener from the event
    target (after the loops of [cleanup] the target has no listener left)
    and then discards the target; the registry [allEffectsArray] is not
    cleared: it holds after teardown exactly the entries it held before. *)
Theorem teardown_detaches_and_keeps_registry
    (options : option EffectStateOptions) (s0 : value) (c : config) :
  reachable options s0 c →
  target (cleanup_loop c) = (λ _, []) <$> target c ∧
  target (cleanup c) = None ∧
  allEffectsArray (cleanup c) = allEffectsArray c.
Proof.
  intros Hr. apply reachable_registry_inv in Hr as [Htg _].
  split; [|by rewrite cleanup_only_target].
  destruct (target c) as [tg|] eqn:Ht; cbn [fmap option_fmap option_map].
  - destruct (cleanup_loop_target c tg Ht) as (tg' & Ht' & Himp).
    rewrite Ht'. f_equal.
    destruct tg' as [|[a l] tg']; [done|]. exfalso.
    destruct (Himp (a, l) ltac:(by left)) as [Hin Hno].
    destruct (Htg tg a l eq_refl Hin) as [(ls & Hls & Hl) _].
    specialize (Hno a ls l Hls Hl). by rewrite same_listener_refl in Hno.
  - by apply cleanup_loop_unmounted.
Qed.

Lemma teardown_detaches_and_keeps_registry_witness :
  let f := {| eff_ref := 0; eff_async := false;
              eff_body := λ _, Return VUndefined |} in
  let c := useEffectState (VNum 1) [("A", f); ("B", f)] in
  target (cleanup_loop c) = (λ _, []) <$> target c ∧
  target (cleanup c) = None ∧
  allEffectsArray (cleanup c) = allEffectsArray c.
Proof.
  intros f c.
  apply (teardown_detaches_and_keeps_registry None (VNum 1) c).
  exists [("A", f); ("B", f)]. apply rtc_refl.
Defined.

(** C9, as the specification states it, fails: after the teardown of a
    hook created with one initial effect the registry still holds that
    entry. *)
Lemma teardown_keeps_registry_entries :
  let f := {| eff_ref := 0; eff_async := false;
              eff_body := λ _, Return VUndefined |} in
  let c := cleanup (useEffectState (VNum 1) [("A", f)]) in
  target c = None ∧
  allEffectsArray c !! "A" = Some [{| l_id := 0; l_effect := f |}] ∧
  allEffectsArray c ≠ ∅.
Proof.
  intros f c. split; [reflexivity|].
  assert (allEffectsArray c !! "A" = Some [{| l_id := 0; l_effect := f |}])
    as H by (vm_compute; reflexivity).
  split; [exact H|]. intros He. rewrite He in H. by rewrite lookup_empty in H.
Qed.

Lemma listeners_for_app a tg1 tg2 :
  listeners_for a (tg1 ++ tg2) = listeners_for a tg1 ++ listeners_for a tg2.
Proof. unfold listeners_for. by rewrite List.filter_app, fmap_app. Qed.

Lemma listeners_for_here a l : listeners_for a [(a, l)] = [l].
Proof.
  unfold listeners_for. cbn [List.filter fst]. by rewrite String.eqb_refl.
Qed.

(** Registration is not idempotent.  [addEffect] wraps the effect in a new
    closure at every call, so neither [handlers.includes(listener)] nor the
    event target ever sees a listener it already has: registering the same
    effect function twice for an action (one that [addEffect] accepts)
    leaves two listeners for that action, both calling this effect. *)
Theorem addEffect_twice_registers_two_listeners
    (options : option EffectStateOptions) (s0 : value) (c : config)
    (tg : list (string * listener)) (a : action) (effect : Effect) :
  reachable options s0 c →
  target c = Some tg →
  inherited a = false →
  ∃ tg2,
    target (addEffect a effect (addEffect a effect c)) = Some tg2 ∧
    listeners_for a tg2 =
      listeners_for a tg ++
        [ {| l_id := next_listener c; l_effect := effect |};
          {| l_id := S (next_listener c); l_effect := effect |} ].
Proof.
  intros Hr Ht Ha. apply reachable_registry_inv in Hr.
  pose proof (addEffect_registry_inv a effect c Hr) as Hr1.
  rewrite (addEffect_unfold a effect (addEffect a effect c)
             (addEffect_error_plain a _ Ha) Hr1).
  rewrite (addEffect_unfold a effect c (addEffect_error_plain a _ Ha) Hr).
  fields. rewrite Ht.
  cbn [fmap option_fmap option_map]. eexists. split; [reflexivity|].
  by rewrite !listeners_for_app, !listeners_for_here, <- app_assoc.
Qed.

Lemma addEffect_twice_registers_two_listeners_witness :
  let f := {| eff_ref := 0; eff_async := false;
              eff_body := λ _, Return VUndefined |} in
  ∃ tg2,
    target (addEffect "A" f (addEffect "A" f (init VNull))) = Some tg2 ∧
    listeners_for "A" tg2 =
      listeners_for "A" [] ++
        [ {| l_id := next_listener (init VNull); l_effect := f |};
          {| l_id := S (next_listener (init VNull)); l_effect := f |} ].
Proof.
  intros f.
  apply (addEffect_twice_registers_two_listeners None VNull (init VNull)
           [] "A" f).
  - exists []. apply rtc_refl.
  - reflexivity.
  - reflexivity.
Defined.

(** C2 fails on the code: after [addEffect('A', effectA)] was called
    twice on a new hook, one [dispatch('A')] calls [effectA] twice, through
    the listeners 0 and 1. *)
Theorem same_effect_twice_is_invoked_twice :
  let c := addEffect "A" effectA (addEffect "A" effectA (init (VObj ∅))) in
  ∃ p c',
    dispatch None 2 "A" c = Done (p, c') ∧
    i_effect <$> invoked c' = [eff_ref effectA; eff_ref effectA] ∧
    i_listener <$> invoked c' = [0%nat; 1%nat].
Proof.
  intros c. exists 0%nat, (after_op None 2 (Op_dispatch "A") c).
  split; [vm_compute; reflexivity|]. split; vm_compute; reflexivity.
Qed.

(** * Where states come from *)

Lemma settle_microtasks p s c :
  ∃ ws, microtasks (settle p s c)
          = microtasks c ++ List.map (reaction_task s) ws.
Proof.
  unfold settle. fields. destruct (promises c !! p) as [[|]|]; fields.
  - by eexists.
  - exists []. by rewrite app_nil_r.
  - exists []. by rewrite app_nil_r.
Qed.

Lemma settle_state p s c :
  state (settle p s c) = state c ∧ stateRef (settle p s c) = stateRef c ∧
  returned (settle p s c) = returned c ∧ invoked (settle p s c) = invoked c ∧
  traces (settle p s c) = traces c ∧ guarded (settle p s c) = guarded c ∧
  target (settle p s c) = target c.
Proof. unfold settle. prim. Qed.

Lemma TAfter_not_reaction fr o s ws :
  TAfter fr o ∈ List.map (reaction_task s) ws → False.
Proof.
  intros H. apply list_elem_of_In, in_map_iff in H as (w & Hw & _).
  discriminate.
Qed.

Lemma TAfter_settle fr o p s c :
  TAfter fr o ∈ microtasks (settle p s c) → TAfter fr o ∈ microtasks c.
Proof.
  destruct (settle_microtasks p s c) as (ws & ->).
  intros [H|H]%elem_of_app; [done|]. by apply TAfter_not_reaction in H.
Qed.

Lemma settle_provenance s0 p s c :
  provenance_inv s0 c → provenance_inv s0 (settle p s c).
Proof.
  intros (Hs & Hr & Hq). unfold provenance_inv.
  destruct (settle_state p s c) as (-> & -> & -> & _ & _ & _ & ->).
  repeat split; try done.
  intros fr v H. apply TAfter_settle in H. eauto.
Qed.

Section Provenance.

Variable options : option EffectStateOptions.

Lemma reachable_provenance_inv s0 c :
  reachable options s0 c → provenance_inv s0 c.
Proof.
  apply (reachable_pres options (λ _ c, provenance_inv s0 c)).
  - (* return *)
    intros fr stk v c0 (Hs & Hr & Hq). unfold provenance_inv, enqueue.
    fields. repeat split; [|done|].
    + destruct Hs as [?|[? ?]]; [by left|right].
      split; [|done]. apply elem_of_app. by left.
    + intros fr' v' [H|H]%elem_of_app; apply elem_of_app.
      * left. eauto.
      * right. apply list_elem_of_singleton in H. injection H as _ <-.
        by apply list_elem_of_singleton.
  - (* throw *)
    intros fr stk e c0 (Hs & Hr & Hq). unfold provenance_inv, enqueue.
    fields. repeat split; try done.
    intros fr' v' [H|H]%elem_of_app; [eauto|].
    by apply list_elem_of_singleton in H.
  - (* throw in a plain function *)
    intros fr stk e c0 Hinv. by apply settle_provenance.
  - (* await *)
    intros fr stk q k c0 (Hs & Hr & Hq). unfold provenance_inv, await, enqueue.
    destruct (promises c0 !! q) as [[|s]|]; fields; repeat split; try done.
    intros fr' v' [H|H]%elem_of_app; [eauto|].
    by apply list_elem_of_singleton in H.
  - (* guard passes *) intros. by prim.
  - (* guard fails *)
    intros stk a c0 tg l e Hinv _ _ _ p. by apply settle_provenance.
  - (* a listener is called *) intros. by prim.
  - (* the event is published *) done.
  - (* unmounted *) intros. by prim.
  - (* a body resumes *)
    intros fr p q c0 (Hs & Hr & Hq) Hm. unfold provenance_inv. fields.
    repeat split; try done.
    intros fr' v' H. apply (Hq fr'). rewrite Hm. by right.
  - (* a listener finishes *)
    intros fr o q c0 (Hs & Hr & Hq) Hm. unfold after_await.
    assert (provenance_inv s0 (with_microtasks q c0)) as Hinv.
    { unfold provenance_inv. fields. repeat split; try done.
      intros fr' v' H. apply (Hq fr'). rewrite Hm. by right. }
    destruct o as [v|e]; [|by apply settle_provenance].
    destruct (truthy v) eqn:Hv; [|by apply settle_provenance].
    apply settle_provenance. unfold provenance_inv. fields.
    assert (v ∈ returned c0) as Hv'.
    { apply (Hq fr). rewrite Hm. by left. }
    destruct (target c0) as [tg|] eqn:Ht.
    + split; [by right|]. split; [done|].
      intros fr' v' H. apply (Hq fr'). rewrite Hm. by right.
    + split; [done|]. split; [done|].
      intros fr' v' H. apply (Hq fr'). rewrite Hm. by right.
  - (* addEffect *)
    intros a effect c0 (Hs & Hr & Hq).
    destruct (addEffect_fields a effect c0)
      as (Hst & Hsr & _ & _ & Hm & _ & _ & Hret & _).
    unfold provenance_inv. rewrite Hst, Hsr, Hm, Hret.
    split; [done|]. split; [|done].
    intros Ht. apply Hr. intros Hn. apply Ht.
    by apply addEffect_target_None.
  - (* cleanup *)
    intros c0 (Hs & Hr & Hq). rewrite cleanup_only_target.
    split; [done|]. split; [|done]. by intros ?.
  - (* init *)
    unfold provenance_inv, init. fields. split; [by left|]. split; [done|].
    intros fr v H. by apply elem_of_nil in H.
Qed.

(** Running the synchronous part of an effect body, or a whole dispatch
    call, changes neither the observed state nor the snapshot. *)
Lemma exec_state n plain fr p c c' :
  exec options n plain fr p c = Done c' →
  state c' = state c ∧ stateRef c' = stateRef c.
Proof.
  intros He.
  apply (exec_pres options
           (λ _ c0, state c0 = state c ∧ stateRef c0 = stateRef c))
    with (n := n) (plain := plain) (fr := fr) (p := p) (stk := []) (c := c);
    try done.
  all: clear; intros; prim.
Qed.

Lemma dispatchTrace_state n prev a c p c' :
  dispatchTrace options n prev a c = Done (p, c') →
  state c' = state c ∧ stateRef c' = stateRef c.
Proof.
  intros Hd.
  pose (stk := match prev with
               | Some l => [Running {| f_promise := 0; f_trace := l |}]
               | None => []
               end).
  assert (prev = prev_of stk) as Hprev by (by destruct prev).
  rewrite Hprev in Hd.
  eapply (dispatchTrace_pres options
            (λ _ c0, state c0 = state c ∧ stateRef c0 = stateRef c));
    [..|exact Hd].
  all: try (by clear; intros; prim).
  intros plain fr p0 _ c0 c1 [H1 H2] He.
  by destruct (exec_state _ _ _ _ _ _ He) as [-> ->].
Qed.

End Provenance.

(** C4.  In every configuration a hook can reach, whatever was dispatched
    and in whatever order the microtasks ran, the observed state is the
    initial state or a (truthy) value that an effect body returned.  A
    listener whose effect returned nothing finishes without touching the
    state, and so does the synchronous run of any effect body. *)
Theorem state_only_from_effect_results (options : option EffectStateOptions)
    (s0 : value) (c : config) :
  reachable options s0 c →
  (state c = s0 ∨ (state c ∈ returned c ∧ truthy (state c) = true)) ∧
  (∀ fr, state (after_await fr (Fulfilled VUndefined) c) = state c) ∧
  (∀ n plain fr p c',
     exec options n plain fr p c = Done c' → state c' = state c).
Proof.
  intros Hr. split; [by apply (reachable_provenance_inv options)|]. split.
  - intros fr. unfold after_await. cbn [truthy]. unfold resolve.
    by destruct (settle_state (f_promise fr) (Fulfilled VUndefined) c)
      as (-> & _).
  - intros n plain fr p c' He.
    by destruct (exec_state options n plain fr p c c' He).
Qed.

(** * Traces *)

Lemma getNextTrace_None maxDepth a h :
  getNextTrace maxDepth a None h
    = Done (fresh (dom h), <[fresh (dom h) := {[a := 1]}]> h).
Proof. done. Qed.

Lemma getNextTrace_Some_Done maxDepth a l h l' h' :
  getNextTrace maxDepth a (Some l) h = Done (l', h') →
  l' = l ∧ ∃ t, h' = <[l := t]> h.
Proof.
  unfold getNextTrace. repeat case_match; intros [= <- <-]; eauto.
Qed.

Lemma getNextTrace_Done_other maxDepth a prev h l h' l0 :
  getNextTrace maxDepth a prev h = Done (l, h') →
  l0 ≠ l → h' !! l0 = h !! l0.
Proof.
  destruct prev as [l1|].
  - intros (-> & t & ->)%getNextTrace_Some_Done Hne.
    by rewrite lookup_insert_ne.
  - rewrite getNextTrace_None. intros [= <- <-] Hne.
    by rewrite lookup_insert_ne.
Qed.

Lemma getNextTrace_Done_where maxDepth a prev h l h' :
  getNextTrace maxDepth a prev h = Done (l, h') →
  match prev with Some l0 => l = l0 | None => l ∉ dom h end.
Proof.
  destruct prev as [l1|].
  - by intros (-> & _)%getNextTrace_Some_Done.
  - rewrite getNextTrace_None. intros [= <- <-]. apply is_fresh.
Qed.


Section Confinement.

Variable options : option EffectStateOptions.

Lemma confined_fields l c c' :
  guarded c' = guarded c → traces c' = traces c → confined l c c'.
Proof.
  intros Hg Ht. split; [|by rewrite Ht].
  exists []. rewrite Hg, app_nil_r. split; [done|].
  intros g Hin. by apply elem_of_nil in Hin.
Qed.

Lemma confined_trans l c1 c2 c3 :
  confined l c1 c2 → confined l c2 c3 → confined l c1 c3.
Proof.
  intros [(evs1 & H1 & He1) Ht1] [(evs2 & H2 & He2) Ht2]. split.
  - exists (evs1 ++ evs2). rewrite H2, H1, app_assoc. split; [done|].
    intros g [Hin|Hin]%elem_of_app; auto.
  - intros l0 Hne. rewrite Ht2, Ht1; done.
Qed.

Lemma confined_event l c c' g :
  guarded c' = guarded c ++ [g] → g_trace g = l →
  (∀ l0, l0 ≠ l → traces c' !! l0 = traces c !! l0) →
  confined l c c'.
Proof.
  intros Hg Hl Ht. split; [|done]. exists [g]. split; [done|].
  by intros g' ->%list_elem_of_singleton.
Qed.

Lemma settle_confined l p s c : confined l c (settle p s c).
Proof.
  destruct (settle_state p s c) as (_ & _ & _ & _ & Ht & Hg & _).
  by apply confined_fields.
Qed.

Section Confined_step.

Variable n : nat.
Hypothesis exec_confined : ∀ plain fr p c c',
  exec options n plain fr p c = Done c' → confined (f_trace fr) c c'.

Lemma call_listeners_confined ls : ∀ a fr c c',
  call_listeners (exec options n) a fr ls c = Done c' →
  confined (f_trace fr) c c'.
Proof.
  induction ls as [|l ls IH]; intros a fr c c' Hc; cbn [call_listeners] in Hc.
  - injection Hc as <-. by apply confined_fields.
  - destruct (call_listener _ a fr l c) as [c1| |] eqn:E; try done.
    eapply confined_trans; [|by eapply IH].
    apply exec_confined in E.
    eapply confined_trans; [|exact E]. by apply confined_fields.
Qed.

(** A dispatch through a trace-bound dispatch function stays on the trace
    it inherited. *)
Lemma dispatchTrace_confined l a c p c' :
  dispatchTrace options n (Some l) a c = Done (p, c') → confined l c c'.
Proof.
  unfold dispatchTrace, dispatchTrace_with.
  destruct (target c) as [tg|] eqn:Ht.
  - cbn [new_promise]. fields.
    destruct (getNextTrace _ a (Some l) (traces c)) as [[l' h]|e|] eqn:G;
      [| |done].
    + destruct (getNextTrace_Some_Done _ _ _ _ _ _ G) as (-> & _).
      unfold dispatchEvent. fields. rewrite Ht.
      destruct (call_listeners _ _ _ _ _) as [c1| |] eqn:E; try done.
      intros [= <- <-].
      apply call_listeners_confined in E. cbn [f_trace] in E.
      eapply confined_trans; [|exact E].
      eapply confined_event; [done|done|].
      intros l0 Hne. fields. by eapply getNextTrace_Done_other.
    + intros [= <- <-]. unfold reject.
      eapply confined_trans; [|apply settle_confined].
      by eapply confined_event.
  - intros [= <- <-]. by apply confined_fields.
Qed.

End Confined_step.

(** The synchronous part of an effect body running for an event stays on
    the trace of that event. *)
Lemma exec_confined n : ∀ plain fr p c c',
  exec options n plain fr p c = Done c' → confined (f_trace fr) c c'.
Proof.
  induction n as [|n IH]; intros plain fr p c c' He; [done|].
  destruct p as [v|e|a k|q k]; cbn [exec] in He.
  - injection He as <-. by apply confined_fields.
  - destruct plain; injection He as <-.
    + apply settle_confined.
    + by apply confined_fields.
  - destruct (dispatchTrace_with _ _ _ _ _) as [[q c1]| |] eqn:E; try done.
    eapply confined_trans; [|by eapply IH].
    by eapply (dispatchTrace_confined n IH).
  - injection He as <-. apply confined_fields; by prim.
Qed.

End Confinement.

(** * The guard and the history of its evaluations *)

Lemma count_app {A} (f : A → bool) l1 l2 :
  count f (l1 ++ l2) = (count f l1 + count f l2)%nat.
Proof. unfold count. by rewrite List.filter_app, length_app. Qed.

Lemma count_single {A} (f : A → bool) x :
  count f [x] = if f x then 1%nat else 0%nat.
Proof. unfold count. cbn [List.filter]. by destruct (f x). Qed.

Lemma same_chain_spec l a g :
  same_chain l a g = true ↔ g_trace g = l ∧ g_action g = a.
Proof.
  unfold same_chain. by rewrite andb_true_iff, Nat.eqb_eq, String.eqb_eq.
Qed.

Lemma trace_count_insert h l t a :
  trace_count (<[l := t]> h) l a = default 0 (t !! a).
Proof. unfold trace_count. by rewrite lookup_insert_eq. Qed.

Lemma trace_count_insert_ne h l t l0 a :
  l0 ≠ l → trace_count (<[l := t]> h) l0 a = trace_count h l0 a.
Proof. intros H. unfold trace_count. by rewrite lookup_insert_ne. Qed.

Lemma inherits_true {A} (o : gmap string A) k :
  inherits o k = true → o !! k = None ∧ inherited k = true.
Proof. unfold inherits. by destruct (o !! k). Qed.

Lemma inherits_plain {A} (o : gmap string A) k :
  inherited k = false → inherits o k = false.
Proof. unfold inherits. intros ->. by destruct (o !! k). Qed.

Lemma inherits_counted h l a :
  trace_count h l a ≠ 0 → inherits (default ∅ (h !! l)) a = false.
Proof.
  unfold trace_count, inherits. by destruct (default ∅ (h !! l) !! a).
Qed.

Lemma trace_count_touch h l l0 a0 :
  trace_count (<[l := default ∅ (h !! l)]> h) l0 a0 = trace_count h l0 a0.
Proof.
  unfold trace_count. destruct (decide (l0 = l)) as [->|Hne].
  - by rewrite lookup_insert_eq.
  - by rewrite lookup_insert_ne.
Qed.

(** What a passing guard does to the counts. *)
Lemma getNextTrace_pass_count maxDepth a prev h l h' :
  getNextTrace maxDepth a prev h = Done (l, h') →
  (trace_count h l a = 0 ∨ trace_count h l a ≤ maxDepth) ∧
  (inherited a = false →
   trace_count h' l a
     = (if trace_count h l a =? 0 then 1 else trace_count h l a + 1)) ∧
  (∀ l0 a0, ¬ (l0 = l ∧ a0 = a) →
            trace_count h' l0 a0 = trace_count h l0 a0).
Proof.
  destruct prev as [l1|].
  - unfold getNextTrace.
    destruct (inherits (default ∅ (h !! l1)) a) eqn:Ei.
    { intros [= <- <-]. apply inherits_true in Ei as [Hn Hi].
      split; [left; unfold trace_count; by rewrite Hn|].
      split; [congruence|]. intros l0 a0 _. apply trace_count_touch. }
    change (default 0 (default ∅ (h !! l1) !! a))
      with (trace_count h l1 a).
    destruct (trace_count h l1 a =? 0) eqn:E0; cbn [negb].
    + intros [= <- <-]. apply Z.eqb_eq in E0. split; [by left|].
      split.
      * by rewrite trace_count_insert, lookup_insert_eq, E0.
      * intros l0 a0 Hne. destruct (decide (l0 = l1)) as [->|Hl].
        -- rewrite trace_count_insert, lookup_insert_ne; [done|].
           intros <-. by apply Hne.
        -- by rewrite trace_count_insert_ne.
    + destruct (maxDepth <? trace_count h l1 a) eqn:E1; [done|].
      intros [= <- <-]. apply Z.ltb_ge in E1. split; [by right|].
      split.
      * by rewrite trace_count_insert, lookup_insert_eq, E0.
      * intros l0 a0 Hne. destruct (decide (l0 = l1)) as [->|Hl].
        -- rewrite trace_count_insert, lookup_insert_ne; [done|].
           intros <-. by apply Hne.
        -- by rewrite trace_count_insert_ne.
  - rewrite getNextTrace_None. intros [= <- <-].
    assert (h !! fresh (dom h) = None) as Hf
      by apply not_elem_of_dom, is_fresh.
    assert (∀ a0, trace_count h (fresh (dom h)) a0 = 0) as H0.
    { intros a0. unfold trace_count. by rewrite Hf. }
    rewrite H0. split; [by left|]. split.
    + by rewrite trace_count_insert, lookup_singleton_eq.
    + intros l0 a0 Hne. destruct (decide (l0 = fresh (dom h))) as [->|Hl].
      * rewrite trace_count_insert, H0, lookup_singleton_ne; [done|].
        intros <-. by apply Hne.
      * by rewrite trace_count_insert_ne.
Qed.

(** When the guard throws. *)
Lemma getNextTrace_fail_count maxDepth a l h e :
  getNextTrace maxDepth a (Some l) h = Raise e →
  e = MaxDepthError (trace_count h l a) a ∧
  trace_count h l a ≠ 0 ∧ maxDepth < trace_count h l a.
Proof.
  unfold getNextTrace.
  destruct (inherits (default ∅ (h !! l)) a); [done|].
  change (default 0 (default ∅ (h !! l) !! a)) with (trace_count h l a).
  destruct (trace_count h l a =? 0) eqn:E0; cbn [negb]; [done|].
  destruct (maxDepth <? trace_count h l a) eqn:E1; [|done].
  intros [= <-]. apply Z.eqb_neq in E0. apply Z.ltb_lt in E1. done.
Qed.

Lemma settled_mono_refl c0 c1 : promises c1 = promises c0 → settled_mono c0 c1.
Proof. unfold settled_mono. by intros ->. Qed.

Lemma settled_mono_trans c0 c1 c2 :
  settled_mono c0 c1 → settled_mono c1 c2 → settled_mono c0 c2.
Proof. unfold settled_mono. eauto. Qed.

Lemma settled_mono_settle p s c : settled_mono c (settle p s c).
Proof.
  intros q s' Hq. unfold settle. fields.
  destruct (promises c !! p) as [[|s0]|] eqn:Hp; fields; try done.
  rewrite lookup_insert_ne; [done|]. congruence.
Qed.

Lemma settled_mono_new c : settled_mono c (new_promise c).2.
Proof.
  intros q s Hq. unfold new_promise. fields.
  rewrite lookup_insert_ne; [done|]. by eapply fresh_promise_ne.
Qed.

Lemma settled_mono_resolved v c : settled_mono c (promise_resolved v c).2.
Proof.
  intros q s Hq. unfold promise_resolved. fields.
  rewrite lookup_insert_ne; [done|]. by eapply fresh_promise_ne.
Qed.

Lemma settled_mono_await fr q k c : settled_mono c (await fr q k c).
Proof. apply settled_mono_refl. prim. Qed.

Section Guard.

Variable maxDepth : Z.

Lemma guard_limit_pos : 1 ≤ guard_limit maxDepth.
Proof. unfold guard_limit. lia. Qed.

Lemma guard_inv_fields c0 c1 :
  guarded c1 = guarded c0 → traces c1 = traces c0 → settled_mono c0 c1 →
  guard_inv maxDepth c0 → guard_inv maxDepth c1.
Proof.
  intros Hg Ht Hm (H1 & H2 & H3). unfold guard_inv. rewrite Hg, Ht.
  repeat split; try done. intros g e Hin He. apply Hm. eauto.
Qed.

(** The history grows by one evaluation [g0]. *)
Lemma guard_inv_snoc c0 c1 g0 :
  guard_inv maxDepth c0 →
  guarded c1 = guarded c0 ++ [g0] →
  settled_mono c0 c1 →
  (∀ l a, inherited a = false →
          trace_count (traces c1) l a =
          Z.min (Z.of_nat (count (same_chain l a) (guarded c0 ++ [g0])))
                (guard_limit maxDepth)) →
  (inherited (g_action g0) = false →
   g_error g0 =
     verdict maxDepth
       (Z.of_nat (count (same_chain (g_trace g0) (g_action g0)) (guarded c0)))
       (g_action g0)) →
  (∀ e, g_error g0 = Some e →
        promises c1 !! g_promise g0 = Some (Settled (Rejected e))) →
  guard_inv maxDepth c1.
Proof.
  intros (H1 & H2 & H3) Hg Hm Hcount Hverdict Hprom.
  unfold guard_inv. rewrite Hg. split; [done|]. split.
  - intros i g [[Hi Hl]|[-> <-]]%lookup_snoc_Some Hplain.
    + unfold earlier_dispatches. rewrite take_app_le by lia.
      by apply H2.
    + unfold earlier_dispatches. rewrite take_app_length.
      by apply Hverdict.
  - intros g e [Hin|Hin]%elem_of_app He.
    + apply Hm. eauto.
    + apply list_elem_of_singleton in Hin as ->. by apply Hprom.
Qed.

Lemma guard_inv_pass c0 c1 a prev l h p :
  guard_inv maxDepth c0 →
  getNextTrace maxDepth a prev (traces c0) = Done (l, h) →
  guarded c1 = guarded c0 ++
    [{| g_trace := l; g_action := a; g_promise := p; g_error := None |}] →
  traces c1 = h →
  settled_mono c0 c1 →
  guard_inv maxDepth c1.
Proof.
  intros Hinv Hg Hg1 Ht1 Hm.
  pose proof guard_limit_pos as Hlim.
  destruct (getNextTrace_pass_count _ _ _ _ _ _ Hg) as (Hle & Hnew & Hother).
  pose proof Hinv as (H1 & _ & _).
  pose proof (H1 l a) as Hla.
  set (old := Z.of_nat (count (same_chain l a) (guarded c0))) in *.
  assert (0 ≤ old) as Hold by (unfold old; lia).
  eapply guard_inv_snoc; [exact Hinv|exact Hg1|exact Hm|..].
  - intros l0 a0 Hplain. rewrite Ht1, count_app, count_single.
    destruct (same_chain l0 a0 _) eqn:Hsame.
    + apply same_chain_spec in Hsame as [<- <-].
      cbn [g_trace g_action] in *.
      specialize (Hla Hplain). rewrite (Hnew Hplain). fold old.
      destruct (trace_count (traces c0) l a =? 0) eqn:E0.
      * apply Z.eqb_eq in E0. lia.
      * apply Z.eqb_neq in E0. unfold guard_limit in *. lia.
    + rewrite Hother.
      * rewrite H1 by done. f_equal. lia.
      * intros [-> ->]. cbn [g_trace g_action] in Hsame.
        assert (same_chain l a
                  {| g_trace := l; g_action := a; g_promise := p;
                     g_error := None |} = true) as Hs
          by by apply same_chain_spec.
        congruence.
  - cbn [g_error g_trace g_action]. intros Hplain. specialize (Hla Hplain).
    fold old. unfold verdict.
    destruct ((0 <? old) && (maxDepth <? old)) eqn:E; [|done].
    apply andb_true_iff in E as [E1 E2].
    apply Z.ltb_lt in E1, E2. unfold guard_limit in *. lia.
  - done.
Qed.

Lemma guard_inv_fail c0 c1 a l e p :
  guard_inv maxDepth c0 →
  getNextTrace maxDepth a (Some l) (traces c0) = Raise e →
  guarded c1 = guarded c0 ++
    [{| g_trace := l; g_action := a; g_promise := p; g_error := Some e |}] →
  traces c1 = traces c0 →
  settled_mono c0 c1 →
  promises c1 !! p = Some (Settled (Rejected e)) →
  guard_inv maxDepth c1.
Proof.
  intros Hinv Hg Hg1 Ht1 Hm Hp.
  pose proof guard_limit_pos as Hlim.
  destruct (getNextTrace_fail_count _ _ _ _ _ Hg) as (-> & Hne & Hlt).
  pose proof Hinv as (H1 & _ & _).
  pose proof (H1 l a) as Hla.
  set (old := Z.of_nat (count (same_chain l a) (guarded c0))) in *.
  assert (0 ≤ old) as Hold by (unfold old; lia).
  eapply guard_inv_snoc; [exact Hinv|exact Hg1|exact Hm|..].
  - intros l0 a0 Hplain. rewrite Ht1, count_app, count_single.
    destruct (same_chain l0 a0 _) eqn:Hsame.
    + apply same_chain_spec in Hsame as [<- <-].
      cbn [g_trace g_action] in *. specialize (Hla Hplain).
      fold old. unfold guard_limit in *. lia.
    + rewrite H1 by done. f_equal. lia.
  - cbn [g_error g_trace g_action]. intros Hplain. specialize (Hla Hplain).
    fold old. unfold verdict.
    destruct ((0 <? old) && (maxDepth <? old)) eqn:E.
    + do 2 f_equal. unfold guard_limit in *. lia.
    + apply andb_false_iff in E as [E|E];
        [apply Z.ltb_ge in E|apply Z.ltb_ge in E];
        unfold guard_limit in *; lia.
  - cbn [g_error g_promise]. by intros e [= <-].
Qed.

End Guard.

Section Guard_reachable.

Variable options : option EffectStateOptions.

Lemma init_guard_inv s0 : guard_inv (maxTraceDepth options) (init s0).
Proof.
  pose proof (guard_limit_pos (maxTraceDepth options)).
  split; [|split].
  - intros l a _. unfold trace_count, init, count. fields.
    rewrite lookup_empty. cbn [default]. rewrite lookup_empty.
    cbn [default List.filter length]. lia.
  - intros i g Hi _. unfold init in Hi. fields. by destruct i.
  - intros g e Hin. unfold init in Hin. fields. by apply elem_of_nil in Hin.
Qed.

Lemma reachable_guard_inv s0 c :
  reachable options s0 c → guard_inv (maxTraceDepth options) c.
Proof.
  apply (reachable_pres options (λ _ c, guard_inv (maxTraceDepth options) c)).
  - (* return *)
    intros fr stk v c0. apply guard_inv_fields; try done.
    by apply settled_mono_refl.
  - (* throw *)
    intros fr stk e c0. apply guard_inv_fields; try done.
    by apply settled_mono_refl.
  - (* throw in a plain function *)
    intros fr stk e c0. unfold reject.
    destruct (settle_state (f_promise fr) (Rejected e) c0)
      as (_ & _ & _ & _ & Ht & Hg & _).
    apply guard_inv_fields; [done|done|apply settled_mono_settle].
  - (* await *)
    intros fr stk q k c0. apply guard_inv_fields; try by prim.
    apply settled_mono_await.
  - (* guard passes *)
    intros stk a c0 tg l h Hinv _ Hg p.
    eapply guard_inv_pass; [exact Hinv|exact Hg|done|done|].
    apply settled_mono_new.
  - (* guard fails *)
    intros stk a c0 tg l e Hinv _ _ Hg p.
    set (c1 := log_guarded _ _).
    destruct (settle_state p (Rejected e) c1) as (_ & _ & _ & _ & Ht & Hgd & _).
    eapply (guard_inv_fail _ c0 (reject p e c1)); [exact Hinv|exact Hg|..].
    + unfold reject. by rewrite Hgd.
    + unfold reject. by rewrite Ht.
    + eapply settled_mono_trans; [apply settled_mono_new|].
      eapply settled_mono_trans; [|apply settled_mono_settle].
      by apply settled_mono_refl.
    + unfold reject, settle, c1, new_promise. fields.
      rewrite lookup_insert_eq. fields. by rewrite lookup_insert_eq.
  - (* a listener is called *)
    intros stk fr a l c0. apply guard_inv_fields; try done.
    by apply settled_mono_refl.
  - (* the event is published *) done.
  - (* unmounted *)
    intros stk c0 Hinv _. revert Hinv. apply guard_inv_fields; try done.
    apply settled_mono_resolved.
  - (* a body resumes *)
    intros fr p q c0 Hinv _. revert Hinv. apply guard_inv_fields; try done.
    by apply settled_mono_refl.
  - (* a listener finishes *)
    intros fr o q c0 Hinv _. revert Hinv. unfold after_await, resolve, reject.
    destruct o as [v|e]; [destruct (truthy v)|].
    all: match goal with
         | |- _ → guard_inv _ (settle ?p ?s ?c) =>
             destruct (settle_state p s c) as (_ & _ & _ & _ & Ht & Hg & _);
             apply guard_inv_fields;
               [by rewrite Hg|by rewrite Ht|];
             eapply settled_mono_trans; [|apply settled_mono_settle];
             by apply settled_mono_refl
         end.
  - (* addEffect *)
    intros a effect c0.
    destruct (addEffect_fields a effect c0)
      as (_ & _ & Ht & Hp & _ & _ & _ & _ & _ & Hg).
    apply guard_inv_fields; try done. by apply settled_mono_refl.
  - (* cleanup *)
    intros c0. rewrite cleanup_only_target.
    apply guard_inv_fields; try done. by apply settled_mono_refl.
  - (* init *) apply init_guard_inv.
Qed.

End Guard_reachable.

Lemma reachable_after_op options s0 n o c :
  reachable options s0 c → reachable options s0 (after_op options n o c).
Proof.
  intros (effs & Hr). exists effs. unfold after_op.
  destruct (apply_op options n o c) as [c'| |] eqn:E; try done.
  eapply rtc_r; [exact Hr|]. by exists n, o.
Qed.

Lemma reachable_start options s0 effs :
  reachable options s0 (useEffectState s0 effs).
Proof. exists effs. apply rtc_refl. Qed.

(** C1, as the code has it.  The maximum is [dispatchMaxCircularCalls]
    when that is given and is not 0, and 20 otherwise.  Take any guard
    evaluation in the history of a hook, that is, any dispatch of an action
    X on some trace, where X is not the name of a member of
    [Object.prototype], and let [r] be the number of dispatches of X that
    precede it on the same trace (the dispatch is the [r]-th recurrence of
    X in its chain).  If [r] is at most the maximum, or X did not occur
    before, the guard lets the dispatch pass.  If X recurred more often
    than the maximum, the promise of that dispatch call is rejected with
    the error whose message names X and a count greater than the
    maximum. *)
Theorem circular_dispatch_guard (options : option EffectStateOptions)
    (s0 : value) (c : config) (i : nat) (g : guard_event) :
  reachable options s0 c →
  guarded c !! i = Some g →
  inherited (g_action g) = false →
  let maxDepth := maxTraceDepth options in
  let r := earlier_dispatches i (guarded c) g in
  (∀ n, options = Some {| dispatchMaxCircularCalls := Some n |} →
        maxDepth = if n =? 0 then 20 else n) ∧
  (options = None ∨ options = Some {| dispatchMaxCircularCalls := None |} →
   maxDepth = 20) ∧
  (r = 0 ∨ r ≤ maxDepth → g_error g = None) ∧
  (0 < r → maxDepth < r →
   ∃ cnt,
     maxDepth < cnt ∧
     g_error g = Some (MaxDepthError cnt (g_action g)) ∧
     promises c !! g_promise g
       = Some (Settled (Rejected (MaxDepthError cnt (g_action g)))) ∧
     error_message (MaxDepthError cnt (g_action g))
       = "Max circular dispatch depth of " +:+ pretty cnt +:+
         " reached for " +:+ g_action g).
Proof.
  intros Hr Hi Hplain maxDepth r.
  split; [by intros n ->|]. split; [by intros [->| ->]|].
  apply reachable_guard_inv in Hr as (_ & H2 & H3).
  pose proof (H2 i g Hi Hplain) as Hv. fold maxDepth r in Hv.
  unfold verdict in Hv.
  split.
  - intros Hle. rewrite Hv.
    destruct ((0 <? r) && (maxDepth <? r)) eqn:E; [|done].
    apply andb_true_iff in E as [E1 E2]. apply Z.ltb_lt in E1, E2. lia.
  - intros H0 Hlt. exists (guard_limit maxDepth).
    apply Z.ltb_lt in H0, Hlt. rewrite H0, Hlt in Hv. cbn [andb] in Hv.
    split; [unfold guard_limit; lia|]. split; [done|]. split; [|done].
    apply H3; [|done]. by eapply list_elem_of_lookup_2.
Qed.

Lemma circular_dispatch_guard_witness :
  let options := Some {| dispatchMaxCircularCalls := Some 3 |} in
  let c := after_op options 20 (Op_dispatch "A")
             (useEffectState (VObj ∅)
                [("A", circularEffectA); ("B", circularEffectB)]) in
  let g := {| g_trace := 0; g_action := "A"; g_promise := 8;
              g_error := Some (MaxDepthError 4 "A") |} in
  let maxDepth := maxTraceDepth options in
  let r := earlier_dispatches 8 (guarded c) g in
  (∀ n, options = Some {| dispatchMaxCircularCalls := Some n |} →
        maxDepth = if n =? 0 then 20 else n) ∧
  (options = None ∨ options = Some {| dispatchMaxCircularCalls := None |} →
   maxDepth = 20) ∧
  (r = 0 ∨ r ≤ maxDepth → g_error g = None) ∧
  (0 < r → maxDepth < r →
   ∃ cnt,
     maxDepth < cnt ∧
     g_error g = Some (MaxDepthError cnt (g_action g)) ∧
     promises c !! g_promise g
       = Some (Settled (Rejected (MaxDepthError cnt (g_action g)))) ∧
     error_message (MaxDepthError cnt (g_action g))
       = "Max circular dispatch depth of " +:+ pretty cnt +:+
         " reached for " +:+ g_action g).
Proof.
  intros options c g.
  apply (circular_dispatch_guard options (VObj ∅) c 8 g).
  - apply reachable_after_op, reachable_start.
  - vm_compute. reflexivity.
  - reflexivity.
Defined.

(** C1, as the specification states it, fails in two cases.  The first is
    a configured maximum of 0: the code takes 0 for an absent option and
    uses 20.  Here X is dispatched twice in the chain of one top-level
    dispatch, so it recurs once, which is more than 0; the guard lets both
    dispatches pass, the handler of X runs both times, and the promise of
    the second dispatch is not rejected but resolved with the state the
    handler returned.  The second is an action named like a member of
    [Object.prototype]: with a maximum of 1, [toString] is dispatched three
    times in one chain, so the third dispatch is its second recurrence; the
    guard lets all three pass, and the promise of the third is not rejected
    (it stays pending, since no handler can be registered for the name). *)
Lemma guard_is_not_always_enforced :
  (let options := Some {| dispatchMaxCircularCalls := Some 0 |} in
   let c := useEffectState (VObj ∅)
              [("S", dispatchTimes 5 2 "X"); ("X", effectA)] in
   maxTraceDepth options = 20 ∧
   ∃ p c',
     dispatch options 5 "S" c = Done (p, c') ∧
     guarded c' =
       [ {| g_trace := 0; g_action := "S"; g_promise := 0; g_error := None |};
         {| g_trace := 0; g_action := "X"; g_promise := 1; g_error := None |};
         {| g_trace := 0; g_action := "X"; g_promise := 2; g_error := None |} ]
     ∧ promises c' !! 2%nat = Some Pending
     ∧ i_action <$> invoked c' = ["S"; "X"; "X"]
     ∧ ∃ c'',
         drain options 5 c' = Done c'' ∧
         promises c'' !! 2%nat
           = Some (Settled (Fulfilled (VObj {[ "a" := 1 ]})))) ∧
  (let options := Some {| dispatchMaxCircularCalls := Some 1 |} in
   let c := useEffectState (VObj ∅) [("S", dispatchTimes 5 3 "toString")] in
   let third := {| g_trace := 0; g_action := "toString"; g_promise := 3;
                   g_error := None |} in
   maxTraceDepth options = 1 ∧
   ∃ p c',
     dispatch options 5 "S" c = Done (p, c') ∧
     guarded c' =
       [ {| g_trace := 0; g_action := "S"; g_promise := 0; g_error := None |};
         {| g_trace := 0; g_action := "toString"; g_promise := 1;
            g_error := None |};
         {| g_trace := 0; g_action := "toString"; g_promise := 2;
            g_error := None |};
         third ]
     ∧ earlier_dispatches 3 (guarded c') third = 2
     ∧ promises c' !! 3%nat = Some Pending
     ∧ ∃ c'',
         drain options 5 c' = Done c'' ∧
         promises c'' !! 3%nat = Some Pending).
Proof.
  split.
  - intros options c. split; [reflexivity|].
    exists 0%nat, (after_op options 5 (Op_dispatch "S") c).
    split; [vm_compute; reflexivity|]. split; [vm_compute; reflexivity|].
    split; [vm_compute; reflexivity|]. split; [vm_compute; reflexivity|].
    exists (drained options 5 (after_op options 5 (Op_dispatch "S") c)).
    split; vm_compute; reflexivity.
  - intros options c third. split; [reflexivity|].
    exists 0%nat, (after_op options 5 (Op_dispatch "S") c).
    split; [vm_compute; reflexivity|]. split; [vm_compute; reflexivity|].
    split; [vm_compute; reflexivity|]. split; [vm_compute; reflexivity|].
    exists (drained options 5 (after_op options 5 (Op_dispatch "S") c)).
    split; vm_compute; reflexivity.
Qed.

(** * Traces over time *)

Lemma advanced_refl l c c' :
  target c' = target c → traces c' = traces c → advanced l c c'.
Proof. intros Ht Htr. split; [done|]. intros a. rewrite Htr. lia. Qed.

Lemma advanced_trans l c1 c2 c3 :
  advanced l c1 c2 → advanced l c2 c3 → advanced l c1 c3.
Proof.
  intros [Ht1 H1] [Ht2 H2]. split; [congruence|].
  intros a. specialize (H1 a). specialize (H2 a). lia.
Qed.

Lemma advanced_settle l p s c : advanced l c (settle p s c).
Proof.
  destruct (settle_state p s c) as (_ & _ & _ & _ & Htr & _ & Ht).
  by apply advanced_refl.
Qed.

Lemma getNextTrace_counts_grow maxDepth a prev h l1 h' l b :
  getNextTrace maxDepth a prev h = Done (l1, h') →
  trace_count h l b ≤ trace_count h' l b.
Proof.
  intros G. destruct (getNextTrace_pass_count maxDepth a prev h l1 h' G)
    as (_ & _ & Hother).
  destruct (decide (l = l1 ∧ b = a)) as [[-> ->]|Hne];
    [|rewrite Hother by done; lia].
  destruct prev as [l0|].
  - unfold getNextTrace in G.
    destruct (inherits (default ∅ (h !! l0)) a).
    { injection G as <- <-. rewrite trace_count_touch. lia. }
    change (default 0 (default ∅ (h !! l0) !! a))
      with (trace_count h l0 a) in G.
    destruct (Z.eqb_spec (trace_count h l0 a) 0) as [E0|E0];
      cbn [negb] in G.
    + injection G as <- <-.
      rewrite trace_count_insert, lookup_insert_eq.
      cbn [default from_option id]. lia.
    + destruct (maxDepth <? trace_count h l0 a); [done|].
      injection G as <- <-.
      rewrite trace_count_insert, lookup_insert_eq.
      cbn [default from_option id]. lia.
  - rewrite getNextTrace_None in G. injection G as <- <-.
    rewrite trace_count_insert, lookup_singleton_eq.
    cbn [default from_option id].
    assert (trace_count h (fresh (dom h)) a = 0) as ->; [|lia].
    unfold trace_count.
    by rewrite (not_elem_of_dom_1 h (fresh (dom h)) (is_fresh _)).
Qed.



(** Nothing that runs synchronously changes the event target or lowers a
    count of a trace. *)
Lemma exec_advanced options l c0 n plain fr p c c' :
  advanced l c0 c →
  exec options n plain fr p c = Done c' →
  advanced l c0 c'.
Proof.
  intros Ha He.
  refine (exec_pres options (λ _ c, advanced l c0 c) _ _ _ _ _ _ _ _ _
            n plain fr p [] c c' Ha He).
  - intros fr0 stk v c1 H. eapply advanced_trans; [exact H|].
    by apply advanced_refl.
  - intros fr0 stk e c1 H. eapply advanced_trans; [exact H|].
    by apply advanced_refl.
  - intros fr0 stk e c1 H. eapply advanced_trans; [exact H|].
    apply advanced_settle.
  - intros fr0 stk q k c1 H. eapply advanced_trans; [exact H|].
    apply advanced_refl; by prim.
  - intros stk a c1 tg l1 h H _ G. eapply advanced_trans; [exact H|].
    split; [done|]. intros b. unfold new_promise. fields.
    by eapply getNextTrace_counts_grow.
  - intros stk a c1 tg l1 e H _ _ _. eapply advanced_trans; [exact H|].
    unfold reject. eapply advanced_trans; [|apply advanced_settle].
    by apply advanced_refl.
  - intros stk fr0 a l0 c1 H. eapply advanced_trans; [exact H|].
    by apply advanced_refl.
  - by intros stk fr0 c1 H.
  - intros stk c1 H _. eapply advanced_trans; [exact H|].
    by apply advanced_refl.
Qed.


Section Traces_over_time.

Variable options : option EffectStateOptions.



End Traces_over_time.



(** * Accounting for listeners *)

Lemma count_nil {A} (f : A → bool) : count f [] = O.
Proof. done. Qed.

Lemma count_cons {A} (f : A → bool) x l :
  count f (x :: l) = ((if f x then 1 else 0) + count f l)%nat.
Proof. unfold count. cbn [List.filter]. by destruct (f x). Qed.

Lemma count_map {A B} (f : B → bool) (g : A → B) l :
  count f (List.map g l) = count (λ x, f (g x)) l.
Proof.
  induction l as [|x l IH]; [done|].
  cbn [List.map]. by rewrite !count_cons, IH.
Qed.

Lemma count_split {A} (f g : A → bool) l :
  (count f (List.filter g l) + count f (List.filter (λ x, negb (g x)) l)
   = count f l)%nat.
Proof.
  induction l as [|x l IH]; [done|].
  cbn [List.filter]. rewrite (count_cons f x l).
  destruct (g x); cbn [negb]; rewrite count_cons; lia.
Qed.

Lemma count_zero_elem {A} (f : A → bool) l x :
  count f l = O → x ∈ l → f x = false.
Proof.
  intros H Hin. induction Hin as [x l|x y l Hin IH];
    rewrite count_cons in H.
  - destruct (f x); [lia|done].
  - apply IH. lia.
Qed.

(** [settle] moves waiting bodies to the microtask queue and loses none. *)
Lemma settle_tokens stk q s c p :
  tokens stk (settle q s c) p = tokens stk c p.
Proof.
  unfold tokens, settle. fields.
  destruct (promises c !! q) as [[|s0]|]; fields; try done.
  rewrite count_app, count_map.
  pose proof (count_split (waiter_for p) (waits_for q) (waiting c)) as Hs.
  change (λ x, task_for p (reaction_task s x)) with (waiter_for p).
  lia.
Qed.

Lemma settle_calls_for q s c p :
  calls_for p (settle q s c)
    = calls_for p c ++ (if Nat.eqb q p then [s] else []).
Proof.
  assert (settle_calls (settle q s c) = settle_calls c ++ [(q, s)]) as H
    by (unfold settle; prim).
  unfold calls_for. rewrite H, List.filter_app, fmap_app. f_equal.
  cbn [List.filter]. unfold call_for. cbn [fst].
  by destruct (Nat.eqb q p).
Qed.

Lemma settle_lookup_ne q s c p :
  p ≠ q → promises (settle q s c) !! p = promises c !! p.
Proof.
  intros Hne. unfold settle. fields.
  destruct (promises c !! q) as [[|s0]|]; fields; try done.
  by rewrite lookup_insert_ne.
Qed.

Lemma settle_lookup_pending q s c :
  promises c !! q = Some Pending →
  promises (settle q s c) !! q = Some (Settled s).
Proof.
  intros H. unfold settle. fields. rewrite H. fields.
  by rewrite lookup_insert_eq.
Qed.

Lemma settle_lookup_settled q s c p s0 :
  promises c !! p = Some (Settled s0) →
  promises (settle q s c) !! p = Some (Settled s0).
Proof. apply settled_mono_settle. Qed.

Lemma settle_dom q s c p :
  p ∈ dom (promises (settle q s c)) ↔ p ∈ dom (promises c).
Proof.
  unfold settle. fields.
  destruct (promises c !! q) as [[|s0]|] eqn:Hq; fields; try done.
  rewrite dom_insert. split; [|set_solver].
  intros [->%elem_of_singleton|H]%elem_of_union; [|done].
  by apply elem_of_dom.
Qed.

Lemma settle_lookup_inv q s c p s0 :
  promises (settle q s c) !! p = Some (Settled s0) →
  p = q ∨ promises c !! p = Some (Settled s0).
Proof.
  intros H. destruct (decide (p = q)) as [->|Hne]; [by left|right].
  by rewrite settle_lookup_ne in H.
Qed.

Lemma calls_for_snoc_nonempty (l : list settlement) s : l ++ [s] ≠ [].
Proof. by destruct l. Qed.

Lemma dom_insert_old {A} (m : gmap nat A) p x q :
  q ∈ dom m → q ∈ dom (<[p := x]> m).
Proof. intros H. rewrite dom_insert. apply elem_of_union. by right. Qed.

Lemma dom_insert_new {A} (m : gmap nat A) p x : p ∈ dom (<[p := x]> m).
Proof.
  rewrite dom_insert. apply elem_of_union. left. by apply elem_of_singleton.
Qed.

Lemma dom_insert_notin {A} (m : gmap nat A) p x q :
  q ∉ dom (<[p := x]> m) → (q ∉ dom m) ∧ q ≠ p.
Proof.
  intros H. split.
  - intros Hq. by apply H, dom_insert_old.
  - intros ->. apply H, dom_insert_new.
Qed.

Lemma accounting_inv_transfer stk0 c0 stk1 c1 :
  (∀ p, (tokens stk1 c1 p ≤ tokens stk0 c0 p)%nat) →
  promises c1 = promises c0 → invoked c1 = invoked c0 →
  guarded c1 = guarded c0 → settle_calls c1 = settle_calls c0 →
  (∀ fr, Publishing fr ∈ stk1 → Publishing fr ∈ stk0) →
  accounting_inv stk0 c0 → accounting_inv stk1 c1.
Proof.
  intros Htok Hp Hi Hg Hs Hstk (A & B & C & D & E).
  unfold accounting_inv, ninvoked, nrejected, calls_for in *.
  rewrite Hp, Hi, Hg, Hs. split; [|split; [|split; [|split]]]; try done.
  - intros p. specialize (A p). specialize (Htok p). lia.
  - intros fr Hfr. by apply E, Hstk.
Qed.

Lemma tokens_enqueue fr stk t c p :
  task_frame t = fr →
  tokens stk (enqueue t c) p = tokens (Running fr :: stk) c p.
Proof.
  intros <-. unfold tokens, enqueue. fields.
  rewrite count_app, count_single, count_cons.
  unfold task_for, running_for. lia.
Qed.

Lemma tokens_await fr stk q k c p :
  (tokens stk (await fr q k c) p ≤ tokens (Running fr :: stk) c p)%nat.
Proof.
  unfold await. destruct (promises c !! q) as [[|s]|].
  - unfold tokens. fields. rewrite count_app, count_single, count_cons.
    unfold waiter_for, running_for. cbn [w_frame]. lia.
  - by rewrite (tokens_enqueue fr).
  - unfold tokens. rewrite count_cons. lia.
Qed.

Lemma elem_of_cons_Publishing fr x stk :
  Publishing fr ∈ x :: stk → x = Publishing fr ∨ Publishing fr ∈ stk.
Proof. intros [->|H]%elem_of_cons; auto. Qed.

Lemma init_accounting_inv s0 : accounting_inv [] (init s0).
Proof.
  unfold accounting_inv, tokens, ninvoked, nrejected, calls_for, init.
  fields. split; [|split; [|split; [|split]]].
  - done.
  - done.
  - intros p. by left.
  - intros p s Hs. by rewrite lookup_empty in Hs.
  - intros fr Hfr. by apply elem_of_nil in Hfr.
Qed.

Section Accounting.

Variable options : option EffectStateOptions.

Lemma accounting_guard_pass stk a c l h :
  accounting_inv stk c →
  let p := fresh (dom (promises c)) in
  accounting_inv (Publishing {| f_promise := p; f_trace := l |} :: stk)
    (log_guarded {| g_trace := l; g_action := a; g_promise := p;
                    g_error := None |}
       (with_traces h (new_promise c).2)).
Proof.
  intros (A & B & C & D & E) p.
  assert (p ∉ dom (promises c)) as Hfresh by apply is_fresh.
  destruct (B p Hfresh) as [Bi Br].
  unfold accounting_inv, tokens, ninvoked, nrejected, calls_for, new_promise
    in *. fields. fold p.
  assert (∀ p0, count (rejected_for p0)
                  (guarded c ++ [{| g_trace := l; g_action := a;
                                    g_promise := p; g_error := None |}])
                = count (rejected_for p0) (guarded c)) as Hrej.
  { intros p0. rewrite count_app, count_single. unfold rejected_for.
    cbn [g_error]. rewrite andb_false_r. lia. }
  split; [|split; [|split; [|split]]].
  - intros p0. rewrite Hrej, count_cons. cbn [running_for].
    specialize (A p0). lia.
  - intros p0 Hp0. rewrite Hrej. apply B.
    by apply dom_insert_notin in Hp0 as [? _].
  - intros p0. rewrite Hrej. apply C.
  - intros p0 s Hs. apply D with s.
    destruct (decide (p0 = p)) as [->|Hne].
    + by rewrite lookup_insert_eq in Hs.
    + by rewrite lookup_insert_ne in Hs.
  - intros fr [[= <-]|Hfr]%elem_of_cons_Publishing.
    + cbn [f_promise]. rewrite Hrej, lookup_insert_eq.
      split; [apply dom_insert_new|]. split; [done|]. by intros s.
    + destruct (E fr Hfr) as (E1 & E2 & E3).
      rewrite Hrej. split; [by apply dom_insert_old|]. split; [done|].
      intros s. rewrite lookup_insert_ne; [apply E3|].
      intros Heq. apply Hfresh. by rewrite Heq.
Qed.

Lemma accounting_guard_fail stk a c l e :
  accounting_inv stk c →
  let p := fresh (dom (promises c)) in
  accounting_inv stk
    (reject p e
       (log_guarded {| g_trace := l; g_action := a; g_promise := p;
                       g_error := Some e |} (new_promise c).2)).
Proof.
  intros (A & B & C & D & E) p.
  assert (p ∉ dom (promises c)) as Hfresh by apply is_fresh.
  destruct (B p Hfresh) as [Bi Br].
  set (c1 := log_guarded _ _). unfold reject.
  assert (promises c1 = <[p := Pending]> (promises c)) as Hp1 by done.
  assert (∀ p0, nrejected c1 p0
                = (nrejected c p0 + if Nat.eqb p p0 then 1 else 0)%nat)
    as Hrej.
  { intros p0. unfold nrejected, c1. fields.
    rewrite count_app, count_single. unfold rejected_for.
    cbn [g_error g_promise]. by rewrite andb_true_r. }
  assert (∀ p0, tokens stk c1 p0 = tokens stk c p0) as Htok by done.
  assert (∀ p0, calls_for p0 c1 = calls_for p0 c) as Hcalls by done.
  assert (∀ p0, ninvoked (settle p (Rejected e) c1) p0 = ninvoked c p0)
    as Hinv.
  { intros p0. unfold ninvoked.
    by destruct (settle_state p (Rejected e) c1)
      as (_ & _ & _ & -> & _). }
  assert (∀ p0, nrejected (settle p (Rejected e) c1) p0 = nrejected c1 p0)
    as Hrej'.
  { intros p0. unfold nrejected.
    by destruct (settle_state p (Rejected e) c1)
      as (_ & _ & _ & _ & _ & -> & _). }
  split; [|split; [|split; [|split]]].
  - intros p0. rewrite settle_tokens, settle_calls_for, length_app, Hinv,
      Hrej', Hrej, Htok, Hcalls.
    specialize (A p0). destruct (Nat.eqb p p0); cbn [length]; lia.
  - intros p0 Hp0. rewrite Hinv, Hrej', Hrej.
    rewrite settle_dom, Hp1 in Hp0.
    apply dom_insert_notin in Hp0 as [Hp0 Hne].
    destruct (Nat.eqb_spec p p0) as [Heq|_]; [by destruct Hne|].
    destruct (B p0 Hp0) as [? ?]. lia.
  - intros p0. rewrite Hinv, Hrej', Hrej.
    destruct (Nat.eqb_spec p p0) as [<-|Hne]; [by right|].
    destruct (C p0); [left; lia|by right].
  - intros p0 s Hs. rewrite Hinv, settle_calls_for.
    destruct (Nat.eqb_spec p p0) as [<-|Hne].
    + left. apply calls_for_snoc_nonempty.
    + rewrite app_nil_r, Hcalls. apply D with s.
      rewrite settle_lookup_ne, Hp1, lookup_insert_ne in Hs; done.
  - intros fr Hfr. destruct (E fr Hfr) as (E1 & E2 & E3).
    assert (f_promise fr ≠ p) as Hne by (intros Heq; by rewrite Heq in E1).
    rewrite settle_dom, Hp1, Hrej', Hrej, settle_calls_for.
    destruct (Nat.eqb_spec p (f_promise fr)) as [Heq|_]; [done|].
    split; [by apply dom_insert_old|]. split; [lia|].
    intros s. rewrite settle_lookup_ne, Hp1, lookup_insert_ne by done.
    rewrite app_nil_r, Hcalls. apply E3.
Qed.

Lemma accounting_invoke stk fr a l c :
  accounting_inv (Publishing fr :: stk) c →
  accounting_inv (Running fr :: Publishing fr :: stk)
    (log_invoked {| i_action := a; i_effect := eff_ref (l_effect l);
                    i_listener := l_id l; i_promise := f_promise fr |} c).
Proof.
  intros (A & B & C & D & E).
  destruct (E fr) as (E1 & E2 & E3); [by left|].
  set (c1 := log_invoked _ _).
  assert (∀ p0, ninvoked c1 p0
                = (ninvoked c p0 +
                   if Nat.eqb (f_promise fr) p0 then 1 else 0)%nat) as Hinv.
  { intros p0. unfold ninvoked, c1. fields.
    by rewrite count_app, count_single. }
  assert (∀ p0, tokens (Running fr :: Publishing fr :: stk) c1 p0
                = (tokens (Publishing fr :: stk) c p0 +
                   if Nat.eqb (f_promise fr) p0 then 1 else 0)%nat) as Htok.
  { intros p0. unfold tokens, c1. fields.
    rewrite (count_cons _ (Running fr)). cbn [running_for]. lia. }
  split; [|split; [|split; [|split]]].
  - intros p0. rewrite Htok, Hinv. specialize (A p0).
    change (calls_for p0 c1) with (calls_for p0 c).
    change (nrejected c1 p0) with (nrejected c p0). lia.
  - intros p0 Hp0. rewrite Hinv.
    change (nrejected c1 p0) with (nrejected c p0).
    change (promises c1) with (promises c) in Hp0.
    destruct (Nat.eqb_spec (f_promise fr) p0) as [<-|Hne]; [done|].
    destruct (B p0 Hp0). lia.
  - intros p0. rewrite Hinv.
    change (nrejected c1 p0) with (nrejected c p0).
    destruct (Nat.eqb_spec (f_promise fr) p0) as [<-|Hne]; [by left|].
    destruct (C p0); [by left|right; lia].
  - intros p0 s Hs. rewrite Hinv.
    change (calls_for p0 c1) with (calls_for p0 c).
    change (promises c1) with (promises c) in Hs.
    destruct (Nat.eqb_spec (f_promise fr) p0) as [<-|Hne].
    + left. by apply E3 with s.
    + destruct (D p0 s Hs); [by left|right; lia].
  - intros fr0 Hfr0. apply E.
    apply elem_of_cons_Publishing in Hfr0 as [?|?]; done.
Qed.

Lemma accounting_unmounted stk c :
  accounting_inv stk c →
  accounting_inv stk (promise_resolved VUndefined c).2.
Proof.
  intros (A & B & C & D & E).
  set (p := fresh (dom (promises c))).
  assert (p ∉ dom (promises c)) as Hfresh by apply is_fresh.
  destruct (B p Hfresh) as [Bi Br].
  unfold accounting_inv, tokens, ninvoked, nrejected, calls_for,
    promise_resolved in *. fields. fold p.
  split; [done|]. split; [|split; [done|split]].
  - intros p0 Hp0. apply B. by apply dom_insert_notin in Hp0 as [? _].
  - intros p0 s Hs. destruct (decide (p0 = p)) as [->|Hne]; [by right|].
    rewrite lookup_insert_ne in Hs by done. by apply D with s.
  - intros fr Hfr. destruct (E fr Hfr) as (E1 & E2 & E3).
    split; [by apply dom_insert_old|]. split; [done|].
    intros s. rewrite lookup_insert_ne; [apply E3|].
    intros Heq. apply Hfresh. by rewrite Heq.
Qed.

Lemma accounting_after fr o q c :
  accounting_inv [] c → microtasks c = TAfter fr o :: q →
  accounting_inv [] (after_await fr o (with_microtasks q c)).
Proof.
  intros (A & B & C & D & E) Hm. rewrite after_await_unfold.
  set (c1 := match o with
             | Fulfilled v => if truthy v then with_state v _ else _
             | Rejected _ => _
             end).
  assert (promises c1 = promises c ∧ invoked c1 = invoked c ∧
          guarded c1 = guarded c ∧ settle_calls c1 = settle_calls c ∧
          microtasks c1 = q ∧ waiting c1 = waiting c)
    as (Hp1 & Hi1 & Hg1 & Hs1 & Hm1 & Hw1).
  { unfold c1. destruct o as [v|e]; [destruct (truthy v)|]; done. }
  set (s := settlement_of o). set (pf := f_promise fr).
  assert (∀ p0, (tokens [] c1 p0 + (if Nat.eqb pf p0 then 1 else 0)
                 = tokens [] c p0)%nat) as Htok.
  { intros p0. unfold tokens. rewrite Hm1, Hw1, Hm, count_cons.
    unfold task_for. cbn [task_frame]. fold pf. lia. }
  assert (∀ p0, calls_for p0 c1 = calls_for p0 c) as Hcalls
    by (intros p0; unfold calls_for; by rewrite Hs1).
  assert (∀ p0, ninvoked (settle pf s c1) p0 = ninvoked c p0) as Hinv.
  { intros p0. unfold ninvoked.
    destruct (settle_state pf s c1) as (_ & _ & _ & -> & _).
    by rewrite Hi1. }
  assert (∀ p0, nrejected (settle pf s c1) p0 = nrejected c p0) as Hrej.
  { intros p0. unfold nrejected.
    destruct (settle_state pf s c1) as (_ & _ & _ & _ & _ & -> & _).
    by rewrite Hg1. }
  split; [|split; [|split; [|split]]].
  - intros p0. rewrite settle_tokens, settle_calls_for, length_app, Hinv,
      Hrej, Hcalls.
    specialize (A p0). specialize (Htok p0).
    destruct (Nat.eqb pf p0); cbn [length]; lia.
  - intros p0 Hp0. rewrite Hinv, Hrej. apply B.
    by rewrite settle_dom, Hp1 in Hp0.
  - intros p0. rewrite Hinv, Hrej. apply C.
  - intros p0 s0 Hs0. rewrite Hinv, settle_calls_for, Hcalls.
    destruct (Nat.eqb_spec pf p0) as [<-|Hne].
    + left. apply calls_for_snoc_nonempty.
    + rewrite app_nil_r. apply D with s0.
      by rewrite settle_lookup_ne, Hp1 in Hs0.
  - intros fr0 Hfr0. by apply elem_of_nil in Hfr0.
Qed.

Lemma accounting_throw_plain fr stk e c :
  accounting_inv (Running fr :: stk) c →
  accounting_inv stk (reject (f_promise fr) e c).
Proof.
  intros (A & B & C & D & E). unfold reject.
  set (pf := f_promise fr). set (s := Rejected e).
  assert (∀ p0, (tokens stk c p0 + (if Nat.eqb pf p0 then 1 else 0)
                 = tokens (Running fr :: stk) c p0)%nat) as Htok.
  { intros p0. unfold tokens. rewrite count_cons. cbn [running_for].
    fold pf. lia. }
  assert (∀ p0, ninvoked (settle pf s c) p0 = ninvoked c p0) as Hinv.
  { intros p0. unfold ninvoked.
    by destruct (settle_state pf s c) as (_ & _ & _ & -> & _). }
  assert (∀ p0, nrejected (settle pf s c) p0 = nrejected c p0) as Hrej.
  { intros p0. unfold nrejected.
    by destruct (settle_state pf s c) as (_ & _ & _ & _ & _ & -> & _). }
  split; [|split; [|split; [|split]]].
  - intros p0. rewrite settle_tokens, settle_calls_for, length_app, Hinv,
      Hrej.
    specialize (A p0). specialize (Htok p0).
    destruct (Nat.eqb pf p0); cbn [length]; lia.
  - intros p0 Hp0. rewrite Hinv, Hrej. apply B.
    by rewrite settle_dom in Hp0.
  - intros p0. rewrite Hinv, Hrej. apply C.
  - intros p0 s0 Hs0. rewrite Hinv, settle_calls_for.
    destruct (Nat.eqb_spec pf p0) as [<-|Hne].
    + left. apply calls_for_snoc_nonempty.
    + rewrite app_nil_r. apply D with s0.
      by rewrite settle_lookup_ne in Hs0.
  - intros fr0 Hfr0. destruct (E fr0) as (E1 & E2 & E3); [by right|].
    rewrite settle_dom, Hrej, settle_calls_for.
    split; [done|]. split; [done|]. intros s0 Hs0.
    destruct (Nat.eqb_spec pf (f_promise fr0)) as [Heq|Hne].
    + apply calls_for_snoc_nonempty.
    + rewrite app_nil_r. apply E3 with s0.
      by rewrite settle_lookup_ne in Hs0.
Qed.

End Accounting.

Lemma accounting_return fr stk v c :
  accounting_inv (Running fr :: stk) c →
  accounting_inv stk (enqueue (TAfter fr (Fulfilled v)) (log_returned v c)).
Proof.
  apply accounting_inv_transfer; try done.
  - intros p.
    by rewrite (tokens_enqueue fr stk (TAfter fr (Fulfilled v))
                  (log_returned v c) p eq_refl).
  - intros fr0 H. by right.
Qed.

Lemma accounting_throw fr stk e c :
  accounting_inv (Running fr :: stk) c →
  accounting_inv stk (enqueue (TAfter fr (Rejected e)) c).
Proof.
  apply accounting_inv_transfer; try done.
  - intros p.
    by rewrite (tokens_enqueue fr stk (TAfter fr (Rejected e)) c p eq_refl).
  - intros fr0 H. by right.
Qed.

Lemma accounting_await fr stk q k c :
  accounting_inv (Running fr :: stk) c → accounting_inv stk (await fr q k c).
Proof.
  apply accounting_inv_transfer; try by prim.
  - intros p. apply tokens_await.
  - intros fr0 H. by right.
Qed.

Lemma accounting_published stk fr c :
  accounting_inv (Publishing fr :: stk) c → accounting_inv stk c.
Proof.
  apply accounting_inv_transfer; try done.
  intros fr0 H. by right.
Qed.

Lemma accounting_resume fr p q c :
  microtasks c = TResume fr p :: q →
  accounting_inv [] c → accounting_inv [Running fr] (with_microtasks q c).
Proof.
  intros Hm. apply accounting_inv_transfer; try done.
  - intros p0. unfold tokens. fields.
    rewrite Hm, !count_cons, count_nil.
    unfold task_for, running_for. cbn [task_frame]. lia.
  - intros fr0 H. apply list_elem_of_singleton in H. discriminate.
Qed.

Lemma accounting_addEffect a effect c :
  accounting_inv [] c → accounting_inv [] (addEffect a effect c).
Proof.
  destruct (addEffect_fields a effect c)
    as (_ & _ & _ & Hp & Hm & Hw & Hi & _ & Hs & Hg).
  apply accounting_inv_transfer; try done.
  intros p. unfold tokens. rewrite Hm, Hw. lia.
Qed.

Lemma accounting_cleanup c :
  accounting_inv [] c → accounting_inv [] (cleanup c).
Proof. rewrite cleanup_only_target. by apply accounting_inv_transfer. Qed.

(** * The settlement a promise has *)

Lemma outcome_inv_transfer c0 c1 :
  promises c1 = promises c0 → guarded c1 = guarded c0 →
  settle_calls c1 = settle_calls c0 →
  outcome_inv c0 → outcome_inv c1.
Proof.
  intros Hp Hg Hs. unfold outcome_inv, nrejected, calls_for.
  by rewrite Hp, Hg, Hs.
Qed.

Lemma unknown_promise_no_calls stk c p :
  accounting_inv stk c → p ∉ dom (promises c) → calls_for p c = [].
Proof.
  intros (A & B & _) Hp. destruct (B p Hp) as [Hi Hj]. specialize (A p).
  destruct (calls_for p c); [done|]. cbn [length] in A. lia.
Qed.

Lemma outcome_inv_alloc c c1 p st :
  p ∉ dom (promises c) →
  promises c1 = <[p := st]> (promises c) →
  (∀ p0, nrejected c1 p0 = nrejected c p0) →
  settle_calls c1 = settle_calls c →
  outcome_inv c → outcome_inv c1.
Proof.
  intros Hfresh Hp Hr Hs (H & F). split.
  - intros p0. rewrite Hr. unfold calls_for. rewrite Hs. apply H.
  - intros p0 s rest Hc. unfold calls_for in Hc. rewrite Hs in Hc.
    apply F in Hc. rewrite Hp, lookup_insert_ne; [done|].
    intros <-. apply Hfresh. by eapply elem_of_dom_2.
Qed.

Lemma outcome_inv_settle c pf s :
  (calls_for pf c = [] → promises c !! pf = Some Pending) →
  outcome_inv c → outcome_inv (settle pf s c).
Proof.
  intros Hpend (H & F). split.
  - intros p0. unfold nrejected.
    destruct (settle_state pf s c) as (_ & _ & _ & _ & _ & -> & _).
    rewrite settle_calls_for, length_app. specialize (H p0).
    unfold nrejected in H. lia.
  - intros p0 s0 rest. rewrite settle_calls_for.
    destruct (Nat.eqb_spec pf p0) as [<-|Hne].
    + destruct (calls_for pf c) as [|s1 r] eqn:Hc; cbn [app].
      * intros [= <- <-]. by apply settle_lookup_pending, Hpend.
      * intros [= <- <-]. apply settle_lookup_settled. by eapply F.
    + rewrite app_nil_r. intros Hc. apply settle_lookup_settled.
      by eapply F.
Qed.

(** A promise for which code is in flight and no call was made is
    pending. *)
Lemma running_promise_pending stk c pf :
  ledger_inv stk c →
  (1 ≤ tokens stk c pf)%nat → calls_for pf c = [] →
  promises c !! pf = Some Pending.
Proof.
  intros [(A & B & C & D & _) (H & _)] Htok Hc.
  specialize (A pf). specialize (H pf). rewrite Hc in A, H.
  cbn [length] in A, H.
  destruct (promises c !! pf) as [[|s]|] eqn:Hp; [done|..].
  - destruct (D pf s Hp) as [Hd|Hd]; [by rewrite Hc in Hd|lia].
  - destruct (B pf); [by apply not_elem_of_dom|lia].
Qed.

Lemma ledger_guard_pass stk a c l h :
  ledger_inv stk c →
  let p := fresh (dom (promises c)) in
  ledger_inv (Publishing {| f_promise := p; f_trace := l |} :: stk)
    (log_guarded {| g_trace := l; g_action := a; g_promise := p;
                    g_error := None |}
       (with_traces h (new_promise c).2)).
Proof.
  intros [Ha Ho] p. split; [by apply accounting_guard_pass|].
  revert Ho. apply (outcome_inv_alloc c _ p Pending); try done.
  - apply is_fresh.
  - intros p0. unfold nrejected, new_promise. fields.
    rewrite count_app, count_single. unfold rejected_for.
    cbn [g_error]. rewrite andb_false_r. lia.
Qed.

Lemma ledger_guard_fail stk a c l e :
  ledger_inv stk c →
  let p := fresh (dom (promises c)) in
  ledger_inv stk
    (reject p e
       (log_guarded {| g_trace := l; g_action := a; g_promise := p;
                       g_error := Some e |} (new_promise c).2)).
Proof.
  intros [Ha (H & F)] p. split; [by apply accounting_guard_fail|].
  assert (p ∉ dom (promises c)) as Hfresh by apply is_fresh.
  pose proof (unknown_promise_no_calls stk c p Ha Hfresh) as Hnone.
  set (c1 := log_guarded _ _). unfold reject.
  assert (promises c1 = <[p := Pending]> (promises c)) as Hp1 by done.
  assert (∀ p0, calls_for p0 c1 = calls_for p0 c) as Hcalls by done.
  assert (∀ p0, nrejected (settle p (Rejected e) c1) p0
                = (nrejected c p0 + if Nat.eqb p p0 then 1 else 0)%nat)
    as Hrej.
  { intros p0. unfold nrejected.
    destruct (settle_state p (Rejected e) c1)
      as (_ & _ & _ & _ & _ & -> & _).
    unfold c1. fields. rewrite count_app, count_single.
    unfold rejected_for. cbn [g_error g_promise]. by rewrite andb_true_r. }
  split.
  - intros p0. rewrite Hrej, settle_calls_for, length_app, Hcalls.
    specialize (H p0). destruct (Nat.eqb p p0); cbn [length]; lia.
  - intros p0 s0 rest. rewrite settle_calls_for, Hcalls.
    destruct (Nat.eqb_spec p p0) as [<-|Hne].
    + rewrite Hnone. cbn [app]. intros [= <- <-].
      apply settle_lookup_pending. by rewrite Hp1, lookup_insert_eq.
    + rewrite app_nil_r. intros Hc.
      rewrite settle_lookup_ne, Hp1, lookup_insert_ne by done.
      by eapply F.
Qed.

Lemma ledger_throw_plain fr stk e c :
  ledger_inv (Running fr :: stk) c →
  ledger_inv stk (reject (f_promise fr) e c).
Proof.
  intros Hl. split; [apply accounting_throw_plain, Hl|].
  unfold reject. apply outcome_inv_settle; [|apply Hl].
  apply (running_promise_pending (Running fr :: stk)); [done|].
  unfold tokens. rewrite count_cons. cbn [running_for].
  rewrite Nat.eqb_refl. lia.
Qed.

Lemma ledger_after fr o q c :
  ledger_inv [] c → microtasks c = TAfter fr o :: q →
  ledger_inv [] (after_await fr o (with_microtasks q c)).
Proof.
  intros Hl Hm. split; [apply accounting_after; [apply Hl|done]|].
  rewrite after_await_unfold.
  set (c1 := match o with
             | Fulfilled v => if truthy v then with_state v _ else _
             | Rejected _ => _
             end).
  assert (promises c1 = promises c ∧ guarded c1 = guarded c ∧
          settle_calls c1 = settle_calls c) as (Hp1 & Hg1 & Hs1).
  { unfold c1. destruct o as [v|e]; [destruct (truthy v)|]; done. }
  apply outcome_inv_settle.
  - unfold calls_for. rewrite Hp1, Hs1.
    apply (running_promise_pending []); [done|].
    unfold tokens. rewrite Hm, count_cons. unfold task_for.
    cbn [task_frame]. rewrite Nat.eqb_refl. lia.
  - by apply (outcome_inv_transfer c), Hl.
Qed.

Lemma init_ledger_inv s0 : ledger_inv [] (init s0).
Proof. split; [apply init_accounting_inv|]. by split. Qed.

Section Ledger_reachable.

Variable options : option EffectStateOptions.

Lemma reachable_ledger_inv s0 c :
  reachable options s0 c → ledger_inv [] c.
Proof.
  apply (reachable_pres options ledger_inv).
  - (* return *)
    intros fr stk v c0 [Ha Ho]. split; [by apply accounting_return|].
    by apply (outcome_inv_transfer c0).
  - (* throw *)
    intros fr stk e c0 [Ha Ho]. split; [by apply accounting_throw|].
    by apply (outcome_inv_transfer c0).
  - (* throw in a plain function *)
    intros. by apply ledger_throw_plain.
  - (* await *)
    intros fr stk q k c0 [Ha Ho]. split; [by apply accounting_await|].
    revert Ho. apply outcome_inv_transfer; by prim.
  - (* guard passes *)
    intros stk a c0 tg l h Hinv _ _. by apply ledger_guard_pass.
  - (* guard fails *)
    intros stk a c0 tg l e Hinv _ _ _. by apply ledger_guard_fail.
  - (* a listener is called *)
    intros stk fr a l c0 [Ha Ho]. split; [by apply accounting_invoke|].
    by apply (outcome_inv_transfer c0).
  - (* the event is published *)
    intros stk fr c0 [Ha Ho]. split; [by eapply accounting_published|done].
  - (* unmounted *)
    intros stk c0 [Ha Ho] _. split; [by apply accounting_unmounted|].
    revert Ho.
    apply (outcome_inv_alloc c0 _ (fresh (dom (promises c0)))
             (Settled (Fulfilled VUndefined))); try done.
    apply is_fresh.
  - (* a body resumes *)
    intros fr p q c0 [Ha Ho] Hm. split; [by apply (accounting_resume fr p)|].
    by apply (outcome_inv_transfer c0).
  - (* a listener finishes *)
    intros. by apply ledger_after.
  - (* addEffect *)
    intros a effect c0 [Ha Ho]. split; [by apply accounting_addEffect|].
    destruct (addEffect_fields a effect c0)
      as (_ & _ & _ & Hp & _ & _ & _ & _ & Hs & Hg).
    by apply (outcome_inv_transfer c0).
  - (* cleanup *)
    intros c0 [Ha Ho]. split; [by apply accounting_cleanup|].
    rewrite cleanup_only_target. by apply (outcome_inv_transfer c0).
  - (* init *) apply init_ledger_inv.
Qed.

Lemma reachable_accounting_inv s0 c :
  reachable options s0 c → accounting_inv [] c.
Proof. intros Hr. by apply reachable_ledger_inv in Hr as [? _]. Qed.

Lemma reachable_steps s0 c c' :
  reachable options s0 c → rtc (step options) c c' →
  reachable options s0 c'.
Proof. intros (effs & Hr) Hs. exists effs. by etrans. Qed.

(** A promise for which one listener was called has had no call of
    [resolve] or [reject] and is pending, or has had one and is settled
    with the value of that call. *)
Lemma one_listener_one_settlement s0 c p :
  reachable options s0 c → ninvoked c p = 1%nat →
  (promises c !! p = Some Pending ∧ calls_for p c = []) ∨
  (∃ s, promises c !! p = Some (Settled s) ∧ calls_for p c = [s]).
Proof.
  intros Hr Hone.
  destruct (reachable_ledger_inv s0 c Hr) as [(A & B & C & D & _) (_ & F)].
  specialize (A p). destruct (C p) as [Hrej|Hinv]; [|lia].
  destruct (calls_for p c) as [|s [|s' r]] eqn:Hc.
  - left. split; [|done].
    destruct (promises c !! p) as [[|s]|] eqn:Hp; [done|..].
    + destruct (D p s Hp) as [Hd|Hd]; [done|lia].
    + destruct (B p); [by apply not_elem_of_dom|lia].
  - right. exists s. split; [|done]. by eapply F.
  - cbn [length] in A. lia.
Qed.

End Ledger_reachable.

(** * Promises that nothing will settle *)

Section Quiet.

Variable options : option EffectStateOptions.
Variable p : pid.
Variable st : pstate.
Variable calls : list settlement.
Variable k : nat.

Lemma quiet_inv_transfer stk0 c0 stk1 c1 :
  promises c1 !! p = promises c0 !! p →
  calls_for p c1 = calls_for p c0 →
  ninvoked c1 p = ninvoked c0 p →
  (tokens stk1 c1 p ≤ tokens stk0 c0 p)%nat →
  (count (publishing_for p) stk1 ≤ count (publishing_for p) stk0)%nat →
  quiet_inv p st calls k stk0 c0 → quiet_inv p st calls k stk1 c1.
Proof.
  intros Hp Hc Hi Ht Hs (Q1 & Q2 & Q3 & Q4 & Q5). unfold quiet_inv.
  rewrite Hp, Hc, Hi. repeat split; try done; lia.
Qed.

Lemma quiet_fresh stk c :
  quiet_inv p st calls k stk c → fresh (dom (promises c)) ≠ p.
Proof. intros (Q1 & _). by eapply fresh_promise_ne. Qed.

Lemma quiet_running fr stk c :
  quiet_inv p st calls k (Running fr :: stk) c → f_promise fr ≠ p.
Proof.
  intros (_ & _ & _ & Q4 & _) Heq. unfold tokens in Q4.
  rewrite count_cons in Q4. cbn [running_for] in Q4.
  apply Nat.eqb_eq in Heq. rewrite Heq in Q4. lia.
Qed.

Lemma quiet_publishing fr stk c :
  quiet_inv p st calls k (Publishing fr :: stk) c → f_promise fr ≠ p.
Proof.
  intros (_ & _ & _ & _ & Q5) Heq.
  rewrite count_cons in Q5. cbn [publishing_for] in Q5.
  apply Nat.eqb_eq in Heq. rewrite Heq in Q5. lia.
Qed.

Lemma quiet_task t q c :
  quiet_inv p st calls k [] c → microtasks c = t :: q →
  f_promise (task_frame t) ≠ p.
Proof.
  intros (_ & _ & _ & Q4 & _) Hm Heq. unfold tokens in Q4.
  rewrite Hm, count_cons in Q4. unfold task_for in Q4.
  apply Nat.eqb_eq in Heq. rewrite Heq in Q4. lia.
Qed.

Lemma quiet_settle q s stk c :
  q ≠ p →
  quiet_inv p st calls k stk c → quiet_inv p st calls k stk (settle q s c).
Proof.
  intros Hne. apply quiet_inv_transfer; try done.
  - by apply settle_lookup_ne.
  - rewrite settle_calls_for.
    destruct (Nat.eqb_spec q p) as [?|_]; [done|]. by rewrite app_nil_r.
  - unfold ninvoked. by destruct (settle_state q s c) as (_ & _ & _ & -> & _).
  - by rewrite settle_tokens.
Qed.

Lemma steps_quiet c c' :
  quiet_inv p st calls k [] c → rtc (step options) c c' →
  quiet_inv p st calls k [] c'.
Proof.
  apply (steps_pres options (quiet_inv p st calls k)).
  - (* return *)
    intros fr stk v c0 Hq. revert Hq.
    apply quiet_inv_transfer; [done|done|done| |by rewrite count_cons].
    by rewrite (tokens_enqueue fr stk (TAfter fr (Fulfilled v))
                  (log_returned v c0) p eq_refl).
  - (* throw *)
    intros fr stk e c0 Hq. revert Hq.
    apply quiet_inv_transfer; [done|done|done| |by rewrite count_cons].
    by rewrite (tokens_enqueue fr stk (TAfter fr (Rejected e)) c0 p
                  eq_refl).
  - (* throw in a plain function *)
    intros fr stk e c0 Hq.
    pose proof (quiet_running _ _ _ Hq) as Hne.
    apply quiet_settle; [done|]. revert Hq.
    apply quiet_inv_transfer; [done|done|done| |by rewrite count_cons].
    unfold tokens. rewrite count_cons. lia.
  - (* await *)
    intros fr stk q k0 c0 Hq. revert Hq.
    apply quiet_inv_transfer;
      [by prim|by prim|by prim|apply tokens_await|by rewrite count_cons].
  - (* guard passes *)
    intros stk a c0 tg l h Hq _ _ pn.
    pose proof (quiet_fresh _ _ Hq) as Hne. revert Hq.
    apply quiet_inv_transfer; [|done|done|done|].
    + unfold new_promise. fields. by rewrite lookup_insert_ne.
    + rewrite count_cons. cbn [publishing_for f_promise].
      destruct (Nat.eqb_spec pn p); [done|lia].
  - (* guard fails *)
    intros stk a c0 tg l e Hq _ _ _ pn.
    pose proof (quiet_fresh _ _ Hq) as Hne.
    apply quiet_settle; [done|]. revert Hq.
    apply quiet_inv_transfer; [|done|done|done|done].
    unfold new_promise. fields. by rewrite lookup_insert_ne.
  - (* a listener is called *)
    intros stk fr a l c0 Hq.
    pose proof (quiet_publishing _ _ _ Hq) as Hne. revert Hq.
    apply quiet_inv_transfer; [done|done| | |].
    + unfold ninvoked. fields. rewrite count_app, count_single.
      unfold invoked_for. cbn [i_promise].
      destruct (Nat.eqb_spec (f_promise fr) p); [done|lia].
    + unfold tokens. fields. rewrite (count_cons _ (Running fr)).
      cbn [running_for]. destruct (Nat.eqb_spec (f_promise fr) p); [done|lia].
    + by rewrite (count_cons _ (Running fr)).
  - (* the event is published *)
    intros stk fr c0.
    apply quiet_inv_transfer; [done|done|done|done|].
    rewrite count_cons. lia.
  - (* unmounted *)
    intros stk c0 Hq _.
    pose proof (quiet_fresh _ _ Hq) as Hne. revert Hq.
    apply quiet_inv_transfer; [|done|done|done|done].
    unfold promise_resolved. fields. by rewrite lookup_insert_ne.
  - (* a body resumes *)
    intros fr p0 q c0 Hq Hm.
    pose proof (quiet_task _ _ _ Hq Hm) as Hne. revert Hq.
    apply quiet_inv_transfer; [done|done|done| |done].
    unfold tokens. fields. rewrite Hm, !count_cons, count_nil.
    unfold task_for, running_for. cbn [task_frame]. lia.
  - (* a listener finishes *)
    intros fr o q c0 Hq Hm.
    pose proof (quiet_task _ _ _ Hq Hm) as Hne. cbn [task_frame] in Hne.
    rewrite after_await_unfold. apply quiet_settle; [done|]. revert Hq.
    apply quiet_inv_transfer.
    + by destruct o as [v|e]; [destruct (truthy v)|].
    + by destruct o as [v|e]; [destruct (truthy v)|].
    + by destruct o as [v|e]; [destruct (truthy v)|].
    + assert (∀ c1, microtasks c1 = q → waiting c1 = waiting c0 →
                    (tokens [] c1 p ≤ tokens [] c0 p)%nat) as Ht.
      { intros c1 H1 H2. unfold tokens. rewrite H1, H2, Hm, count_cons. lia. }
      by destruct o as [v|e]; [destruct (truthy v)|]; apply Ht.
    + done.
  - (* addEffect *)
    intros a effect c0.
    destruct (addEffect_fields a effect c0)
      as (_ & _ & _ & Hp & Hm & Hw & Hi & _ & Hs & Hg).
    apply quiet_inv_transfer; [| | | |done].
    + by rewrite Hp.
    + unfold calls_for. by rewrite Hs.
    + unfold ninvoked. by rewrite Hi.
    + unfold tokens. rewrite Hm, Hw. lia.
  - (* cleanup *)
    intros c0. rewrite cleanup_only_target.
    by apply quiet_inv_transfer.
Qed.

End Quiet.

Section Calm.

Variable options : option EffectStateOptions.
Variable p : pid.
Variable k : nat.

Lemma calm_inv_transfer stk0 c0 stk1 c1 :
  (p ∈ dom (promises c0) → p ∈ dom (promises c1)) →
  invoked c1 = invoked c0 →
  (count (publishing_for p) stk1 ≤ count (publishing_for p) stk0)%nat →
  calm_inv p k stk0 c0 → calm_inv p k stk1 c1.
Proof.
  intros Hd Hi Hs (Q1 & Q2 & Q3). unfold calm_inv, ninvoked in *.
  rewrite Hi. repeat split; [auto|done|lia].
Qed.

Lemma calm_invoke stk fr a l c :
  calm_inv p k (Publishing fr :: stk) c →
  calm_inv p k (Running fr :: Publishing fr :: stk)
    (log_invoked {| i_action := a; i_effect := eff_ref (l_effect l);
                    i_listener := l_id l; i_promise := f_promise fr |} c).
Proof.
  intros (Q1 & Q2 & Q3). unfold calm_inv, ninvoked in *. fields.
  rewrite count_cons in Q3. cbn [publishing_for] in Q3.
  rewrite count_app, count_single, (count_cons _ (Running fr)),
    (count_cons _ (Publishing fr)).
  unfold invoked_for. cbn [i_promise publishing_for]. revert Q3.
  destruct (Nat.eqb (f_promise fr) p); intros Q3; [exfalso; lia|].
  split; [done|]. split; [|lia]. rewrite Nat.add_0_r. exact Q2.
Qed.

Lemma calm_sync :
  (∀ fr stk v c,
     calm_inv p k (Running fr :: stk) c →
     calm_inv p k stk (enqueue (TAfter fr (Fulfilled v)) (log_returned v c))) ∧
  (∀ fr stk e c,
     calm_inv p k (Running fr :: stk) c →
     calm_inv p k stk (enqueue (TAfter fr (Rejected e)) c)) ∧
  (∀ fr stk q k0 c,
     calm_inv p k (Running fr :: stk) c → calm_inv p k stk (await fr q k0 c)) ∧
  (∀ fr stk e c,
     calm_inv p k (Running fr :: stk) c →
     calm_inv p k stk (reject (f_promise fr) e c)) ∧
  (∀ stk a c l h,
     calm_inv p k stk c →
     calm_inv p k
       (Publishing {| f_promise := fresh (dom (promises c)); f_trace := l |}
          :: stk)
       (log_guarded {| g_trace := l; g_action := a;
                       g_promise := fresh (dom (promises c));
                       g_error := None |}
          (with_traces h (new_promise c).2))) ∧
  (∀ stk a c l e,
     calm_inv p k stk c →
     calm_inv p k stk
       (reject (fresh (dom (promises c))) e
          (log_guarded {| g_trace := l; g_action := a;
                          g_promise := fresh (dom (promises c));
                          g_error := Some e |} (new_promise c).2))) ∧
  (∀ stk fr c, calm_inv p k (Publishing fr :: stk) c → calm_inv p k stk c) ∧
  (∀ stk c, calm_inv p k stk c →
            calm_inv p k stk (promise_resolved VUndefined c).2).
Proof.
  split; [|split; [|split; [|split; [|split; [|split; [|split]]]]]].
  - intros fr stk v c. apply calm_inv_transfer; [done|done|].
    by rewrite count_cons.
  - intros fr stk e c. apply calm_inv_transfer; [done|done|].
    by rewrite count_cons.
  - intros fr stk q k0 c. apply calm_inv_transfer; [by prim|by prim|].
    by rewrite count_cons.
  - intros fr stk e c. unfold reject.
    apply calm_inv_transfer; [by rewrite settle_dom| |by rewrite count_cons].
    by destruct (settle_state (f_promise fr) (Rejected e) c)
      as (_ & _ & _ & -> & _).
  - intros stk a c l h Hc.
    assert (fresh (dom (promises c)) ≠ p) as Hne.
    { intros Heq. destruct Hc as (Q1 & _). rewrite <- Heq in Q1.
      by apply is_fresh in Q1. }
    revert Hc. apply calm_inv_transfer; [|done|].
    + unfold new_promise. fields. rewrite dom_insert. set_solver.
    + rewrite count_cons. cbn [publishing_for f_promise].
      destruct (Nat.eqb_spec (fresh (dom (promises c))) p); [done|lia].
  - intros stk a c l e. unfold reject.
    apply calm_inv_transfer; [| |done].
    + rewrite settle_dom. unfold new_promise. fields. rewrite dom_insert.
      set_solver.
    + by destruct (settle_state (fresh (dom (promises c))) (Rejected e)
                     (log_guarded
                        {| g_trace := l; g_action := a;
                           g_promise := fresh (dom (promises c));
                           g_error := Some e |} (new_promise c).2))
        as (_ & _ & _ & -> & _).
  - intros stk fr c. apply calm_inv_transfer; [done|done|].
    rewrite count_cons. lia.
  - intros stk c. apply calm_inv_transfer; [|done|done].
    unfold promise_resolved. fields. rewrite dom_insert. set_solver.
Qed.

Lemma exec_calm n plain fr prog stk c c' :
  calm_inv p k (Running fr :: stk) c →
  exec options n plain fr prog c = Done c' →
  calm_inv p k stk c'.
Proof.
  destruct calm_sync as (H1 & H2 & H3 & H3' & H4 & H5 & H6 & H7).
  apply (exec_pres options (calm_inv p k)); eauto using calm_invoke.
Qed.

Lemma steps_calm c c' :
  calm_inv p k [] c → rtc (step options) c c' → calm_inv p k [] c'.
Proof.
  destruct calm_sync as (H1 & H2 & H3 & H3' & H4 & H5 & H6 & H7).
  apply (steps_pres options (calm_inv p k)); eauto using calm_invoke.
  - (* a listener finishes *)
    intros fr o q c0 Hc _. revert Hc. rewrite after_await_unfold.
    apply calm_inv_transfer; [| |done].
    + rewrite settle_dom. by destruct o as [v|e]; [destruct (truthy v)|].
    + match goal with
      | |- invoked (settle ?a ?b ?c) = _ =>
          destruct (settle_state a b c) as (_ & _ & _ & -> & _)
      end.
      by destruct o as [v|e]; [destruct (truthy v)|].
  - (* addEffect *)
    intros a effect c0.
    destruct (addEffect_fields a effect c0)
      as (_ & _ & _ & Hp & _ & _ & Hi & _).
    apply calm_inv_transfer; [by rewrite Hp|done|done].
  - (* cleanup *)
    intros c0. rewrite cleanup_only_target. by apply calm_inv_transfer.
Qed.

End Calm.

(** A promise that does not exist yet has no history. *)
Lemma fresh_promise_quiet options s0 c p :
  reachable options s0 c → p ∉ dom (promises c) →
  tokens [] c p = O ∧ calls_for p c = [] ∧ ninvoked c p = O ∧
  nrejected c p = O.
Proof.
  intros Hr Hp. apply reachable_accounting_inv in Hr as (A & B & _).
  destruct (B p Hp) as [Hi Hj]. specialize (A p).
  repeat split; try done; try lia.
  destruct (calls_for p c); [done|]. cbn [length] in A. lia.
Qed.

(** C7, as the code has it.  Take an action for which the event target has
    no listener.  The hook's [dispatch] never trips the guard, and any
    dispatch of that action whose guard does not trip, by the hook's
    [dispatch] or by a trace-bound dispatch function, returns (whatever the
    fuel) a promise that is pending and stays pending in everything that
    can follow: [resolve] and [reject] are never called for it. *)
Theorem unhandled_dispatch_stays_pending
    (options : option EffectStateOptions) (s0 : value) (c : config)
    (tg : list (string * listener)) (a : action) :
  reachable options s0 c →
  target c = Some tg →
  listeners_for a tg = [] →
  (∀ e, getNextTrace (maxTraceDepth options) a None (traces c) ≠ Raise e) ∧
  ∀ prev n,
    (∀ e, getNextTrace (maxTraceDepth options) a prev (traces c) ≠ Raise e) →
    ∃ p c1,
      dispatchTrace options n prev a c = Done (p, c1) ∧
      promises c1 !! p = Some Pending ∧
      ∀ c2, rtc (step options) c1 c2 →
            promises c2 !! p = Some Pending ∧ calls_for p c2 = [].
Proof.
  intros Hr Ht Hl. split; [done|]. intros prev n Hg.
  unfold dispatchTrace, dispatchTrace_with. rewrite Ht.
  cbn [new_promise]. fields.
  destruct (getNextTrace _ a prev (traces c)) as [[l h]|e|] eqn:G.
  - unfold dispatchEvent. fields. rewrite Ht, Hl. cbn [call_listeners].
    eexists _, _. split; [reflexivity|].
    set (p := fresh (dom (promises c))).
    set (c1 := log_guarded _ _).
    assert (promises c1 !! p = Some Pending) as Hp
      by (unfold c1; fields; by rewrite lookup_insert_eq).
    split; [done|]. intros c2 H2.
    destruct (fresh_promise_quiet options s0 c p Hr) as (T & Cs & I & _);
      [apply is_fresh|].
    assert (quiet_inv p Pending [] O [] c1) as Hq.
    { unfold quiet_inv. repeat split; try done. }
    apply (steps_quiet options p Pending [] O c1 c2) in Hq; [|done].
    by destruct Hq as (Q1 & Q2 & _).
  - by destruct (Hg e).
  - by apply getNextTrace_never_times_out in G.
Qed.

Lemma unhandled_dispatch_stays_pending_witness :
  let c := useEffectState (VObj ∅) [("A", effectA)] in
  (∀ e, getNextTrace (maxTraceDepth None) "B" None (traces c) ≠ Raise e) ∧
  ∀ prev n,
    (∀ e, getNextTrace (maxTraceDepth None) "B" prev (traces c) ≠ Raise e) →
    ∃ p c1,
      dispatchTrace None n prev "B" c = Done (p, c1) ∧
      promises c1 !! p = Some Pending ∧
      ∀ c2, rtc (step None) c1 c2 →
            promises c2 !! p = Some Pending ∧ calls_for p c2 = [].
Proof.
  intros c.
  apply (unhandled_dispatch_stays_pending None (VObj ∅) c
           [("A", {| l_id := 0; l_effect := effectA |})] "B").
  - apply reachable_start.
  - reflexivity.
  - reflexivity.
Defined.

(** C7, as the specification states it, fails for a nested dispatch that
    trips the guard.  No handler is registered for U.  The effect of S dispatches U
    three times; with a maximum of 1 the third call returns a promise that
    is rejected by the guard. *)
Lemma unhandled_dispatch_rejected_by_guard :
  let options := Some {| dispatchMaxCircularCalls := Some 1 |} in
  let c := useEffectState (VObj ∅) [("S", dispatchTimes 5 3 "U")] in
  allEffectsArray c !! "U" = None ∧
  ∃ p c',
    dispatch options 6 "S" c = Done (p, c') ∧
    (∃ tg, target c' = Some tg ∧ listeners_for "U" tg = []) ∧
    g_action <$> guarded c' = ["S"; "U"; "U"; "U"] ∧
    g_promise <$> guarded c' = [0; 1; 2; 3]%nat ∧
    promises c' !! 3%nat = Some (Settled (Rejected (MaxDepthError 2 "U"))).
Proof.
  intros options c. split; [reflexivity|].
  exists 0%nat, (after_op options 6 (Op_dispatch "S") c).
  split; [vm_compute; reflexivity|].
  split; [eexists; split; vm_compute; reflexivity|].
  split; [vm_compute; reflexivity|]. split; vm_compute; reflexivity.
Qed.

(** A dispatch by the hook of an action with exactly one listener calls
    that listener once, and no listener is called for its promise later. *)
Lemma single_listener_invoked_once options s0 c tg a l n p c1 c2 :
  reachable options s0 c →
  target c = Some tg → listeners_for a tg = [l] →
  dispatch options n a c = Done (p, c1) →
  rtc (step options) c1 c2 →
  ninvoked c2 p = 1%nat.
Proof.
  intros Hr Ht Hl Hd H2.
  unfold dispatch, dispatchTrace, dispatchTrace_with in Hd.
  rewrite Ht in Hd. cbn [new_promise] in Hd. fields.
  rewrite getNextTrace_None in Hd. unfold dispatchEvent in Hd. fields.
  rewrite Ht, Hl in Hd. cbn [call_listeners] in Hd.
  destruct (call_listener _ _ _ _ _) as [c1'| |] eqn:Hc; try done.
  injection Hd as <- <-.
  set (p := fresh (dom (promises c))) in *.
  destruct (fresh_promise_quiet options s0 c p Hr) as (_ & _ & I & _);
    [apply is_fresh|].
  unfold call_listener in Hc.
  assert (calm_inv p 1 [] c1') as Hcalm.
  { eapply (exec_calm options p 1); [|exact Hc].
    unfold calm_inv, ninvoked in *. fields.
    rewrite count_app, count_single, I. unfold invoked_for.
    cbn [i_promise f_promise]. rewrite Nat.eqb_refl.
    split; [|done]. rewrite dom_insert. set_solver. }
  by destruct (steps_calm options p 1 c1' c2 Hcalm H2) as (_ & ? & _).
Qed.

(** An effect that is a plain function and throws has the dispatch
    rejected before [dispatch] returns. *)
Lemma plain_throw_rejects_at_once options s0 c tg a l e n :
  reachable options s0 c →
  target c = Some tg → listeners_for a tg = [l] →
  eff_async (l_effect l) = false →
  eff_body (l_effect l) (stateRef c) = Throw e →
  ∃ p c1,
    dispatch options (S n) a c = Done (p, c1) ∧
    state c1 = state c ∧
    ∀ c2, rtc (step options) c1 c2 →
          promises c2 !! p = Some (Settled (Rejected e)) ∧
          calls_for p c2 = [Rejected e].
Proof.
  intros Hr Ht Hl Ha Hb.
  assert (∃ p c1, dispatch options (S n) a c = Done (p, c1) ∧
                  state c1 = state c ∧
                  promises c1 !! p = Some (Settled (Rejected e)))
    as (p & c1 & Hd & Hs & Hp).
  { unfold dispatch, dispatchTrace, dispatchTrace_with. rewrite Ht.
    cbn [new_promise]. fields. rewrite getNextTrace_None.
    unfold dispatchEvent. fields. rewrite Ht, Hl.
    cbn [call_listeners]. unfold call_listener. fields. rewrite Ha, Hb.
    cbn [negb exec]. eexists _, _. split; [reflexivity|].
    unfold reject. split.
    - match goal with
      | |- state (settle ?p ?s ?c) = _ =>
          destruct (settle_state p s c) as (-> & _)
      end. done.
    - apply settle_lookup_pending. fields. by rewrite lookup_insert_eq. }
  exists p, c1. split; [done|]. split; [done|]. intros c2 H2.
  pose proof (settled_forever options p _ c1 c2 Hp H2) as Hp2.
  pose proof (single_listener_invoked_once options s0 c tg a l (S n) p c1 c2
                Hr Ht Hl Hd H2) as Hone.
  assert (reachable options s0 c2) as Hr2.
  { eapply reachable_steps; [|exact H2].
    eapply reachable_steps; [exact Hr|].
    apply rtc_once. exists (S n), (Op_dispatch a). cbn [apply_op].
    by rewrite Hd. }
  destruct (one_listener_one_settlement options s0 c2 p Hr2 Hone)
    as [[Hpend _]|(s & Hs2 & Hc2)]; [congruence|].
  split; [done|]. rewrite Hs2 in Hp2. by injection Hp2 as ->.
Qed.

(** What the rest of a listener does when the result of its effect
    arrives, for a dispatch that called one listener: the promise is still
    pending, and the listener settles it in one call. *)
Lemma listener_settles_once options s0 c fr o q :
  reachable options s0 c →
  microtasks c = TAfter fr o :: q →
  ninvoked c (f_promise fr) = 1%nat →
  promises c !! f_promise fr = Some Pending ∧
  calls_for (f_promise fr) c = [] ∧
  ∀ n, ∃ c',
    tick options n c = Done c' ∧
    promises c' !! f_promise fr = Some (Settled (settlement_of o)) ∧
    calls_for (f_promise fr) c' = [settlement_of o] ∧
    match o with
    | Fulfilled v =>
        if truthy v
        then stateRef c' = v ∧
             state c' = match target c with
                        | Some _ => v
                        | None => state c
                        end ∧
             settlement_of o = Fulfilled v
        else stateRef c' = stateRef c ∧ state c' = state c ∧
             settlement_of o = Fulfilled VUndefined
    | Rejected e =>
        stateRef c' = stateRef c ∧ state c' = state c ∧
        settlement_of o = Rejected e
    end ∧
    ∀ c'', rtc (step options) c' c'' →
           promises c'' !! f_promise fr = Some (Settled (settlement_of o))
           ∧ calls_for (f_promise fr) c'' = [settlement_of o].
Proof.
  intros Hr Hm Hone. set (p := f_promise fr) in *.
  pose proof (reachable_accounting_inv options s0 c Hr)
    as (A & B & C & D & _).
  assert (tokens [] c p = 1%nat ∧ calls_for p c = []) as [Htok Hcalls].
  { specialize (A p). destruct (C p) as [Hrej|Hinv]; [|lia].
    assert (1 ≤ tokens [] c p)%nat as H1.
    { unfold tokens. rewrite Hm, count_cons. unfold task_for.
      cbn [task_frame]. fold p. rewrite Nat.eqb_refl. lia. }
    destruct (calls_for p c); cbn [length] in A; [split; [lia|done]|lia]. }
  assert (promises c !! p = Some Pending) as Hpend.
  { destruct (promises c !! p) as [[|s]|] eqn:Hp; [done|..].
    - destruct (D p s Hp); [done|lia].
    - destruct (B p); [by apply not_elem_of_dom|lia]. }
  split; [done|]. split; [done|]. intros n.
  exists (after_await fr o (with_microtasks q c)).
  split; [unfold tick; by rewrite Hm|].
  rewrite after_await_unfold. fold p.
  set (c1 := match o with
             | Fulfilled v => if truthy v then with_state v _ else _
             | Rejected _ => _
             end).
  assert (promises c1 = promises c ∧ settle_calls c1 = settle_calls c ∧
          invoked c1 = invoked c ∧ microtasks c1 = q ∧
          waiting c1 = waiting c) as (Hp1 & Hs1 & Hi1 & Hm1 & Hw1).
  { unfold c1. destruct o as [v|e]; [destruct (truthy v)|]; done. }
  assert (promises (settle p (settlement_of o) c1) !! p
          = Some (Settled (settlement_of o))) as Hset
    by (apply settle_lookup_pending; by rewrite Hp1).
  assert (calls_for p (settle p (settlement_of o) c1) = [settlement_of o])
    as Hcalls'.
  { rewrite settle_calls_for, Nat.eqb_refl. unfold calls_for.
    rewrite Hs1. fold (calls_for p c). by rewrite Hcalls. }
  split; [done|]. split; [done|]. split.
  - destruct (settle_state p (settlement_of o) c1) as (-> & -> & _).
    unfold c1, settlement_of.
    destruct o as [v|e]; [destruct (truthy v)|]; done.
  - intros c'' H2.
    assert (quiet_inv p (Settled (settlement_of o)) [settlement_of o] 1 []
              (settle p (settlement_of o) c1)) as Hq.
    { unfold quiet_inv. split; [done|]. split; [done|]. split; [|split].
      - unfold ninvoked.
        destruct (settle_state p (settlement_of o) c1)
          as (_ & _ & _ & -> & _).
        by rewrite Hi1.
      - rewrite settle_tokens. unfold tokens in *.
        rewrite Hm1, Hw1. rewrite Hm, count_cons in Htok.
        assert (task_for p (TAfter fr o) = true) as Hhead
          by apply Nat.eqb_refl.
        rewrite Hhead in Htok. cbn [count List.filter length] in *. lia.
      - done. }
    apply (steps_quiet options _ _ _ _ _ c'') in Hq; [|done].
    by destruct Hq as (Q1 & Q2 & _).
Qed.

(** A dispatch by the hook of an action with one listener whose effect
    returns at once, or is [async] and throws at once: the call leaves the
    promise pending and schedules the rest of the listener with exactly
    that outcome, behind what was scheduled before. *)
Lemma dispatch_schedules_the_result options c tg a l n o :
  target c = Some tg → listeners_for a tg = [l] →
  match eff_body (l_effect l) (stateRef c) with
  | Return v => o = Fulfilled v
  | Throw e => eff_async (l_effect l) = true ∧ o = Rejected e
  | _ => False
  end →
  let p := fresh (dom (promises c)) in
  let fr := {| f_promise := p; f_trace := fresh (dom (traces c)) |} in
  ∃ c1,
    dispatch options (S n) a c = Done (p, c1) ∧
    microtasks c1 = microtasks c ++ [TAfter fr o] ∧
    promises c1 !! p = Some Pending ∧
    state c1 = state c ∧ stateRef c1 = stateRef c ∧ target c1 = Some tg.
Proof.
  intros Ht Hl Hb p fr.
  unfold dispatch, dispatchTrace, dispatchTrace_with. rewrite Ht.
  cbn [new_promise]. fields. rewrite getNextTrace_None.
  unfold dispatchEvent. fields. rewrite Ht, Hl.
  cbn [call_listeners]. unfold call_listener. fields.
  destruct (eff_body (l_effect l) (stateRef c)) as [v|e|b k|q k];
    [|destruct Hb as [Ha Hb]; rewrite Ha|done|done]; subst o;
    cbn [negb exec]; (eexists; split; [reflexivity|]);
    unfold enqueue; fields; by rewrite lookup_insert_eq.
Qed.

(** C5, as the code has it.  Let the hook be in any configuration it can
    reach.  (1) A [dispatch] of an action that has exactly one listener
    calls one listener for the promise it returns, now and ever.  (2) A
    promise for which one listener was called is pending and has had no
    call of [resolve] or [reject], or it has had exactly one and is settled
    with the value of that call.  (3) When the result of the effect arrives
    at the listener of such a dispatch, the promise is still pending; the
    listener then settles it, in one call: with the returned state if that
    is truthy (the snapshot becomes that value, and so does the observed
    state unless the hook was unmounted in between), with [undefined] if
    the effect returned nothing or a falsy value (and the state stays),
    with the error if the effect threw or its promise was rejected.  No
    further call follows.  (4) What arrives is what the handler produced:
    when the one handler returns [v], the dispatch leaves the promise
    pending and schedules the listener with the result [v]; when it is
    [async] and throws [e], with the error [e]; and if nothing else was
    scheduled, the next microtask settles the promise as in (3).  (5) When
    the one handler is a plain function that throws, the promise is
    rejected with the error before [dispatch] returns, in one call, and the
    state stays.  (6) From the state [{}] and an effect A that returns
    [{...state, a: 1}], [dispatch('A')] resolves, and then [state.a] is 1
    and [state.b] is undefined; a plain function that throws ['no'] has its
    dispatch rejected with ['no']; and with a maximum of 3, the [async]
    handler of A that awaits a dispatch of B, whose handler awaits a
    dispatch of A, has its dispatch rejected with the error of the guard,
    which its awaited promise was rejected with. *)
Theorem single_handler_settlement (options : option EffectStateOptions)
    (s0 : value) (c : config) :
  reachable options s0 c →
  (∀ tg a l n p c1 c2,
     target c = Some tg → listeners_for a tg = [l] →
     dispatch options n a c = Done (p, c1) →
     rtc (step options) c1 c2 →
     ninvoked c2 p = 1%nat) ∧
  (∀ p, ninvoked c p = 1%nat →
        (promises c !! p = Some Pending ∧ calls_for p c = []) ∨
        (∃ s, promises c !! p = Some (Settled s) ∧ calls_for p c = [s])) ∧
  (∀ fr o q,
     microtasks c = TAfter fr o :: q →
     ninvoked c (f_promise fr) = 1%nat →
     promises c !! f_promise fr = Some Pending ∧
     calls_for (f_promise fr) c = [] ∧
     ∀ n, ∃ c',
       tick options n c = Done c' ∧
       promises c' !! f_promise fr = Some (Settled (settlement_of o)) ∧
       calls_for (f_promise fr) c' = [settlement_of o] ∧
       match o with
       | Fulfilled v =>
           if truthy v
           then stateRef c' = v ∧
                state c' = match target c with
                           | Some _ => v
                           | None => state c
                           end ∧
                settlement_of o = Fulfilled v
           else stateRef c' = stateRef c ∧ state c' = state c ∧
                settlement_of o = Fulfilled VUndefined
       | Rejected e =>
           stateRef c' = stateRef c ∧ state c' = state c ∧
           settlement_of o = Rejected e
       end ∧
       ∀ c'', rtc (step options) c' c'' →
              promises c'' !! f_promise fr = Some (Settled (settlement_of o))
              ∧ calls_for (f_promise fr) c'' = [settlement_of o]) ∧
  (∀ tg a l n o,
     target c = Some tg → listeners_for a tg = [l] →
     match eff_body (l_effect l) (stateRef c) with
     | Return v => o = Fulfilled v
     | Throw e => eff_async (l_effect l) = true ∧ o = Rejected e
     | _ => False
     end →
     ∃ p c1,
       dispatch options (S n) a c = Done (p, c1) ∧
       promises c1 !! p = Some Pending ∧
       calls_for p c1 = [] ∧
       state c1 = state c ∧ stateRef c1 = stateRef c ∧
       microtasks c1 =
         microtasks c ++
         [TAfter {| f_promise := p; f_trace := fresh (dom (traces c)) |} o] ∧
       (microtasks c = [] →
        ∃ c2,
          tick options n c1 = Done c2 ∧
          promises c2 !! p = Some (Settled (settlement_of o)) ∧
          calls_for p c2 = [settlement_of o] ∧
          match o with
          | Fulfilled v =>
              if truthy v
              then stateRef c2 = v ∧ state c2 = v ∧
                   settlement_of o = Fulfilled v
              else stateRef c2 = stateRef c ∧ state c2 = state c ∧
                   settlement_of o = Fulfilled VUndefined
          | Rejected e =>
              stateRef c2 = stateRef c ∧ state c2 = state c ∧
              settlement_of o = Rejected e
          end ∧
          ∀ c3, rtc (step options) c2 c3 →
                promises c3 !! p = Some (Settled (settlement_of o)) ∧
                calls_for p c3 = [settlement_of o])) ∧
  (∀ tg a l e n,
     target c = Some tg → listeners_for a tg = [l] →
     eff_async (l_effect l) = false →
     eff_body (l_effect l) (stateRef c) = Throw e →
     ∃ p c1,
       dispatch options (S n) a c = Done (p, c1) ∧
       state c1 = state c ∧
       ∀ c2, rtc (step options) c1 c2 →
             promises c2 !! p = Some (Settled (Rejected e)) ∧
             calls_for p c2 = [Rejected e]) ∧
  (∃ p c1 c2,
     dispatch options 2 "A" (useEffectState (VObj ∅) [("A", effectA)])
       = Done (p, c1) ∧
     drain options 2 c1 = Done c2 ∧
     promises c2 !! p = Some (Settled (Fulfilled (VObj {[ "a" := 1 ]}))) ∧
     get_prop (state c2) "a" = VNum 1 ∧
     get_prop (state c2) "b" = VUndefined) ∧
  (∃ p c1,
     dispatch options 1 "T" (useEffectState (VObj ∅) [("T", throwingEffect)])
       = Done (p, c1) ∧
     promises c1 !! p = Some (Settled (Rejected (Thrown (VStr "no")))) ∧
     microtasks c1 = []) ∧
  (let options3 := Some {| dispatchMaxCircularCalls := Some 3 |} in
   ∃ p c1 c2,
     dispatch options3 20 "A"
       (useEffectState (VObj ∅)
          [("A", circularEffectA); ("B", circularEffectB)])
       = Done (p, c1) ∧
     promises c1 !! p = Some Pending ∧
     drain options3 20 c1 = Done c2 ∧
     promises c2 !! p = Some (Settled (Rejected (MaxDepthError 4 "A"))) ∧
     calls_for p c2 = [Rejected (MaxDepthError 4 "A")] ∧
     state c2 = VObj ∅).
Proof.
  intros Hr. split; [|split; [|split; [|split; [|split; [|split; [|split]]]]]].
  - intros tg a l n p c1 c2 Ht Hl Hd H2.
    by eapply single_listener_invoked_once.
  - intros p. by apply (one_listener_one_settlement options s0).
  - intros fr o q. by apply (listener_settles_once options s0).
  - intros tg a l n o Ht Hl Hb.
    destruct (dispatch_schedules_the_result options c tg a l n o Ht Hl Hb)
      as (c1 & Hd & Hm1 & Hp1 & Hs1 & Hsr1 & Ht1).
    set (p := fresh (dom (promises c))) in *.
    set (fr := {| f_promise := p; f_trace := fresh (dom (traces c)) |}) in *.
    assert (reachable options s0 c1) as Hr1.
    { eapply reachable_steps; [exact Hr|].
      apply rtc_once. exists (S n), (Op_dispatch a). cbn [apply_op].
      by rewrite Hd. }
    pose proof (single_listener_invoked_once options s0 c tg a l (S n) p c1
                  c1 Hr Ht Hl Hd (rtc_refl _ _)) as Hone.
    assert (calls_for p c1 = []) as Hc1.
    { destruct (one_listener_one_settlement options s0 c1 p Hr1 Hone)
        as [[_ ?]|(s & Hs & _)]; [done|congruence]. }
    exists p, c1. do 5 (split; [done|]). split; [done|].
    intros Hidle. rewrite Hidle in Hm1. cbn [app] in Hm1.
    destruct (listener_settles_once options s0 c1 fr o [] Hr1 Hm1 Hone)
      as (_ & _ & Hn).
    destruct (Hn n) as (c2 & Htick & Hp2 & Hc2 & Hst & Hfor).
    exists c2. cbn [f_promise fr] in *. do 3 (split; [done|]).
    split; [|done]. rewrite Ht1, Hs1, Hsr1 in Hst. exact Hst.
  - intros tg a l e n Ht Hl Ha Hb.
    by eapply plain_throw_rejects_at_once.
  - exists 0%nat,
      (after_op options 2 (Op_dispatch "A")
         (useEffectState (VObj ∅) [("A", effectA)])),
      (drained options 2
         (after_op options 2 (Op_dispatch "A")
            (useEffectState (VObj ∅) [("A", effectA)]))).
    split; [vm_compute; reflexivity|]. split; [vm_compute; reflexivity|].
    split; [vm_compute; reflexivity|]. split; vm_compute; reflexivity.
  - exists 0%nat,
      (after_op options 1 (Op_dispatch "T")
         (useEffectState (VObj ∅) [("T", throwingEffect)])).
    split; [vm_compute; reflexivity|]. split; vm_compute; reflexivity.
  - intros options3.
    exists 0%nat,
      (after_op options3 20 (Op_dispatch "A")
         (useEffectState (VObj ∅)
            [("A", circularEffectA); ("B", circularEffectB)])),
      (drained options3 20
         (after_op options3 20 (Op_dispatch "A")
            (useEffectState (VObj ∅)
               [("A", circularEffectA); ("B", circularEffectB)]))).
    split; [vm_compute; reflexivity|]. split; [vm_compute; reflexivity|].
    split; [vm_compute; reflexivity|]. split; [vm_compute; reflexivity|].
    split; vm_compute; reflexivity.
Qed.

Lemma single_handler_settlement_witness :
  let options : option EffectStateOptions := None in
  let c := after_op options 2 (Op_dispatch "A")
             (useEffectState (VObj ∅) [("A", effectA)]) in
  (∀ tg a l n p c1 c2,
     target c = Some tg → listeners_for a tg = [l] →
     dispatch options n a c = Done (p, c1) →
     rtc (step options) c1 c2 →
     ninvoked c2 p = 1%nat) ∧
  (∀ p, ninvoked c p = 1%nat →
        (promises c !! p = Some Pending ∧ calls_for p c = []) ∨
        (∃ s, promises c !! p = Some (Settled s) ∧ calls_for p c = [s])) ∧
  (∀ fr o q,
     microtasks c = TAfter fr o :: q →
     ninvoked c (f_promise fr) = 1%nat →
     promises c !! f_promise fr = Some Pending ∧
     calls_for (f_promise fr) c = [] ∧
     ∀ n, ∃ c',
       tick options n c = Done c' ∧
       promises c' !! f_promise fr = Some (Settled (settlement_of o)) ∧
       calls_for (f_promise fr) c' = [settlement_of o] ∧
       match o with
       | Fulfilled v =>
           if truthy v
           then stateRef c' = v ∧
                state c' = match target c with
                           | Some _ => v
                           | None => state c
                           end ∧
                settlement_of o = Fulfilled v
           else stateRef c' = stateRef c ∧ state c' = state c ∧
                settlement_of o = Fulfilled VUndefined
       | Rejected e =>
           stateRef c' = stateRef c ∧ state c' = state c ∧
           settlement_of o = Rejected e
       end ∧
       ∀ c'', rtc (step options) c' c'' →
              promises c'' !! f_promise fr = Some (Settled (settlement_of o))
              ∧ calls_for (f_promise fr) c'' = [settlement_of o]) ∧
  (∀ tg a l n o,
     target c = Some tg → listeners_for a tg = [l] →
     match eff_body (l_effect l) (stateRef c) with
     | Return v => o = Fulfilled v
     | Throw e => eff_async (l_effect l) = true ∧ o = Rejected e
     | _ => False
     end →
     ∃ p c1,
       dispatch options (S n) a c = Done (p, c1) ∧
       promises c1 !! p = Some Pending ∧
       calls_for p c1 = [] ∧
       state c1 = state c ∧ stateRef c1 = stateRef c ∧
       microtasks c1 =
         microtasks c ++
         [TAfter {| f_promise := p; f_trace := fresh (dom (traces c)) |} o] ∧
       (microtasks c = [] →
        ∃ c2,
          tick options n c1 = Done c2 ∧
          promises c2 !! p = Some (Settled (settlement_of o)) ∧
          calls_for p c2 = [settlement_of o] ∧
          match o with
          | Fulfilled v =>
              if truthy v
              then stateRef c2 = v ∧ state c2 = v ∧
                   settlement_of o = Fulfilled v
              else stateRef c2 = stateRef c ∧ state c2 = state c ∧
                   settlement_of o = Fulfilled VUndefined
          | Rejected e =>
              stateRef c2 = stateRef c ∧ state c2 = state c ∧
              settlement_of o = Rejected e
          end ∧
          ∀ c3, rtc (step options) c2 c3 →
                promises c3 !! p = Some (Settled (settlement_of o)) ∧
                calls_for p c3 = [settlement_of o])) ∧
  (∀ tg a l e n,
     target c = Some tg → listeners_for a tg = [l] →
     eff_async (l_effect l) = false →
     eff_body (l_effect l) (stateRef c) = Throw e →
     ∃ p c1,
       dispatch options (S n) a c = Done (p, c1) ∧
       state c1 = state c ∧
       ∀ c2, rtc (step options) c1 c2 →
             promises c2 !! p = Some (Settled (Rejected e)) ∧
             calls_for p c2 = [Rejected e]) ∧
  (∃ p c1 c2,
     dispatch options 2 "A" (useEffectState (VObj ∅) [("A", effectA)])
       = Done (p, c1) ∧
     drain options 2 c1 = Done c2 ∧
     promises c2 !! p = Some (Settled (Fulfilled (VObj {[ "a" := 1 ]}))) ∧
     get_prop (state c2) "a" = VNum 1 ∧
     get_prop (state c2) "b" = VUndefined) ∧
  (∃ p c1,
     dispatch options 1 "T" (useEffectState (VObj ∅) [("T", throwingEffect)])
       = Done (p, c1) ∧
     promises c1 !! p = Some (Settled (Rejected (Thrown (VStr "no")))) ∧
     microtasks c1 = []) ∧
  (let options3 := Some {| dispatchMaxCircularCalls := Some 3 |} in
   ∃ p c1 c2,
     dispatch options3 20 "A"
       (useEffectState (VObj ∅)
          [("A", circularEffectA); ("B", circularEffectB)])
       = Done (p, c1) ∧
     promises c1 !! p = Some Pending ∧
     drain options3 20 c1 = Done c2 ∧
     promises c2 !! p = Some (Settled (Rejected (MaxDepthError 4 "A"))) ∧
     calls_for p c2 = [Rejected (MaxDepthError 4 "A")] ∧
     state c2 = VObj ∅).
Proof.
  intros options c.
  apply (single_handler_settlement options (VObj ∅) c).
  apply reachable_after_op, reachable_start.
Defined.

(** C5, as the specification states it, fails for a state that is falsy.  The one
    handler of Z returns the state [0]; the promise of [dispatch('Z')] is
    resolved with [undefined], not with the state the handler returned, and
    the observed state stays 5. *)
Lemma falsy_state_is_not_delivered :
  let c := useEffectState (VNum 5) [("Z", zeroEffect)] in
  ∃ p c1 c2,
    dispatch None 2 "Z" c = Done (p, c1) ∧
    drain None 2 c1 = Done c2 ∧
    returned c2 = [VNum 0] ∧
    promises c2 !! p = Some (Settled (Fulfilled VUndefined)) ∧
    promises c2 !! p ≠ Some (Settled (Fulfilled (VNum 0))) ∧
    state c2 = VNum 5.
Proof.
  intros c.
  exists 0%nat, (after_op None 2 (Op_dispatch "Z") c),
    (drained None 2 (after_op None 2 (Op_dispatch "Z") c)).
  split; [vm_compute; reflexivity|]. split; [vm_compute; reflexivity|].
  split; [vm_compute; reflexivity|]. split; [vm_compute; reflexivity|].
  split; [by vm_compute|vm_compute; reflexivity].
Qed.

(** C10.  A handler result that is falsy is handled exactly like no result,
    also when it is a defined value such as [0], the empty string, [false]
    or [null].  Let the hook be in any configuration it can reach, mounted
    and with no microtask scheduled, and let the one handler of an action
    return the falsy value [v], from a plain function or an [async] one.
    Then [dispatch] of that action returns a pending promise and schedules
    the rest of the listener with the result [v]; the next microtask does
    what it does for [undefined]: the state snapshot and the observed state
    stay as they were before the dispatch, and the promise is resolved, in
    one call, with [undefined], and stays so.  The rest of a listener makes
    no difference between a falsy value and [undefined] wherever it runs,
    hence also for a value that arrives after the handler has awaited: an
    [async] handler of Z that awaits a dispatch of A and then returns 0 has
    its dispatch resolved with [undefined], and the state is the one the
    handler of A returned. *)
Theorem falsy_result_is_no_result (options : option EffectStateOptions)
    (s0 : value) (c : config) (tg : list (string * listener)) (a : action)
    (l : listener) (v : value) (n : nat) :
  reachable options s0 c →
  target c = Some tg → listeners_for a tg = [l] →
  microtasks c = [] →
  eff_body (l_effect l) (stateRef c) = Return v →
  truthy v = false →
  ∃ p c1 c2,
    let fr := {| f_promise := p; f_trace := fresh (dom (traces c)) |} in
    dispatch options (S n) a c = Done (p, c1) ∧
    promises c1 !! p = Some Pending ∧
    microtasks c1 = [TAfter fr (Fulfilled v)] ∧
    tick options n c1 = Done c2 ∧
    c2 = after_await fr (Fulfilled VUndefined) (with_microtasks [] c1) ∧
    stateRef c2 = stateRef c ∧ state c2 = state c ∧
    promises c2 !! p = Some (Settled (Fulfilled VUndefined)) ∧
    calls_for p c2 = [Fulfilled VUndefined] ∧
    (∀ c3, rtc (step options) c2 c3 →
           promises c3 !! p = Some (Settled (Fulfilled VUndefined)) ∧
           calls_for p c3 = [Fulfilled VUndefined]) ∧
    (∀ fr0 c0,
       after_await fr0 (Fulfilled v) c0
         = after_await fr0 (Fulfilled VUndefined) c0 ∧
       stateRef (after_await fr0 (Fulfilled v) c0) = stateRef c0 ∧
       state (after_await fr0 (Fulfilled v) c0) = state c0 ∧
       (promises c0 !! f_promise fr0 = Some Pending →
        promises (after_await fr0 (Fulfilled v) c0) !! f_promise fr0
          = Some (Settled (Fulfilled VUndefined)))) ∧
    (∃ q d1 d2,
       dispatch options 3 "Z"
         (useEffectState (VObj ∅) [("Z", zeroAfter 8 "A"); ("A", effectA)])
         = Done (q, d1) ∧
       drain options 5 d1 = Done d2 ∧
       returned d2 = [VObj {[ "a" := 1 ]}; VNum 0] ∧
       promises d2 !! q = Some (Settled (Fulfilled VUndefined)) ∧
       stateRef d2 = VObj {[ "a" := 1 ]} ∧ state d2 = VObj {[ "a" := 1 ]}).
Proof.
  intros Hr Ht Hl Hidle Hb Hv.
  destruct (dispatch_schedules_the_result options c tg a l n (Fulfilled v)
              Ht Hl) as (c1 & Hd & Hm1 & Hp1 & Hs1 & Hsr1 & Ht1);
    [by rewrite Hb|].
  set (p := fresh (dom (promises c))) in *.
  set (fr := {| f_promise := p; f_trace := fresh (dom (traces c)) |}) in *.
  rewrite Hidle in Hm1. cbn [app] in Hm1.
  assert (reachable options s0 c1) as Hr1.
  { eapply reachable_steps; [exact Hr|].
    apply rtc_once. exists (S n), (Op_dispatch a). cbn [apply_op].
    by rewrite Hd. }
  pose proof (single_listener_invoked_once options s0 c tg a l (S n) p c1
                c1 Hr Ht Hl Hd (rtc_refl _ _)) as Hone.
  destruct (listener_settles_once options s0 c1 fr (Fulfilled v) [] Hr1 Hm1
              Hone) as (_ & _ & Hn).
  destruct (Hn n) as (c2 & Htick & Hp2 & Hc2 & Hst & Hfor).
  assert (∀ fr0 c0, after_await fr0 (Fulfilled v) c0
                    = after_await fr0 (Fulfilled VUndefined) c0) as Hsame.
  { intros fr0 c0. unfold after_await. by rewrite Hv. }
  unfold settlement_of in Hp2, Hc2, Hst, Hfor. rewrite Hv in Hp2, Hc2, Hst, Hfor.
  destruct Hst as (Hsr2 & Hs2 & _). cbn [f_promise fr] in *.
  exists p, c1, c2. cbv zeta. fold fr.
  do 4 (split; [done|]). split.
  { rewrite <- Hsame. pose proof Htick as Htick'. unfold tick in Htick'.
    rewrite Hm1 in Htick'. by injection Htick'. }
  split; [congruence|]. split; [congruence|].
  do 3 (split; [done|]). split.
  - intros fr0 c0. split; [apply Hsame|].
    unfold after_await. rewrite Hv. cbn [truthy].
    split; [by prim|]. split; [by prim|].
    intros Hp. unfold resolve. by apply settle_lookup_pending.
  - exists 0%nat,
      (after_op options 3 (Op_dispatch "Z")
         (useEffectState (VObj ∅) [("Z", zeroAfter 8 "A"); ("A", effectA)])),
      (drained options 5
         (after_op options 3 (Op_dispatch "Z")
            (useEffectState (VObj ∅)
               [("Z", zeroAfter 8 "A"); ("A", effectA)]))).
    split; [vm_compute; reflexivity|]. split; [vm_compute; reflexivity|].
    split; [vm_compute; reflexivity|]. split; [vm_compute; reflexivity|].
    split; vm_compute; reflexivity.
Qed.

Lemma falsy_result_is_no_result_witness :
  let options : option EffectStateOptions := None in
  let c := useEffectState (VNum 5) [("Z", zeroEffect)] in
  let v := VNum 0 in
  ∃ p c1 c2,
    let fr := {| f_promise := p; f_trace := fresh (dom (traces c)) |} in
    dispatch options 1 "Z" c = Done (p, c1) ∧
    promises c1 !! p = Some Pending ∧
    microtasks c1 = [TAfter fr (Fulfilled v)] ∧
    tick options 0 c1 = Done c2 ∧
    c2 = after_await fr (Fulfilled VUndefined) (with_microtasks [] c1) ∧
    stateRef c2 = stateRef c ∧ state c2 = state c ∧
    promises c2 !! p = Some (Settled (Fulfilled VUndefined)) ∧
    calls_for p c2 = [Fulfilled VUndefined] ∧
    (∀ c3, rtc (step options) c2 c3 →
           promises c3 !! p = Some (Settled (Fulfilled VUndefined)) ∧
           calls_for p c3 = [Fulfilled VUndefined]) ∧
    (∀ fr0 c0,
       after_await fr0 (Fulfilled v) c0
         = after_await fr0 (Fulfilled VUndefined) c0 ∧
       stateRef (after_await fr0 (Fulfilled v) c0) = stateRef c0 ∧
       state (after_await fr0 (Fulfilled v) c0) = state c0 ∧
       (promises c0 !! f_promise fr0 = Some Pending →
        promises (after_await fr0 (Fulfilled v) c0) !! f_promise fr0
          = Some (Settled (Fulfilled VUndefined)))) ∧
    (∃ q d1 d2,
       dispatch options 3 "Z"
         (useEffectState (VObj ∅) [("Z", zeroAfter 8 "A"); ("A", effectA)])
         = Done (q, d1) ∧
       drain options 5 d1 = Done d2 ∧
       returned d2 = [VObj {[ "a" := 1 ]}; VNum 0] ∧
       promises d2 !! q = Some (Settled (Fulfilled VUndefined)) ∧
       stateRef d2 = VObj {[ "a" := 1 ]} ∧ state d2 = VObj {[ "a" := 1 ]}).
Proof.
  intros options c v.
  apply (falsy_result_is_no_result options (VNum 5) c
           [("Z", {| l_id := 0; l_effect := zeroEffect |})] "Z"
           {| l_id := 0; l_effect := zeroEffect |} v 0).
  - apply reachable_start.
  - reflexivity.
  - reflexivity.
  - reflexivity.
  - reflexivity.
  - reflexivity.
Defined.

Lemma state_only_from_effect_results_witness :
  let options : option EffectStateOptions := None in
  let s0 := VObj ∅ in
  let c := after_op options 2 Op_tick
             (after_op options 2 (Op_dispatch "A")
                (useEffectState s0 [("A", effectA); ("B", effectB)])) in
  (state c = s0 ∨ (state c ∈ returned c ∧ truthy (state c) = true)) ∧
  (∀ fr, state (after_await fr (Fulfilled VUndefined) c) = state c) ∧
  (∀ n plain fr p c',
     exec options n plain fr p c = Done c' → state c' = state c).
Proof.
  intros options s0 c.
  apply (state_only_from_effect_results options s0 c).
  do 2 apply reachable_after_op. apply reachable_start.
Defined.

(** * Further properties of the engine *)

(** ** Nothing is thrown synchronously *)

Section Never_raises.

Variable options : option EffectStateOptions.

Lemma call_listeners_never_raises run a fr ls :
  (∀ plain fr p c e, run plain fr p c ≠ Raise e) →
  ∀ c e, call_listeners run a fr ls c ≠ Raise e.
Proof.
  intros Hrun. induction ls as [|l ls IH]; intros c e;
    cbn [call_listeners]; [done|].
  destruct (call_listener run a fr l c) as [c1|e1|] eqn:E;
    [apply IH| |done].
  unfold call_listener in E. by apply Hrun in E.
Qed.

Lemma dispatchTrace_with_never_raises run prev a c e :
  (∀ plain fr p c e, run plain fr p c ≠ Raise e) →
  dispatchTrace_with options run prev a c ≠ Raise e.
Proof.
  intros Hrun. unfold dispatchTrace_with.
  destruct (target c) as [tg|] eqn:Ht; [|done].
  cbn [new_promise]. fields.
  destruct (getNextTrace _ a prev (traces c)) as [[l h]|e0|] eqn:G;
    [|done|done].
  unfold dispatchEvent. fields. rewrite Ht.
  destruct (call_listeners _ _ _ _ _) as [c1|e1|] eqn:E; [done| |done].
  by apply call_listeners_never_raises in E.
Qed.

Lemma exec_never_raises n :
  ∀ plain fr p c e, exec options n plain fr p c ≠ Raise e.
Proof.
  induction n as [|n IH]; intros plain fr p c e; [done|].
  destruct p as [v|e0|a k|q k]; cbn [exec]; [done|by destruct plain| |done].
  destruct (dispatchTrace_with _ _ _ _ _) as [[q c1]|e1|] eqn:E;
    [apply IH| |done].
  by apply dispatchTrace_with_never_raises in E.
Qed.

(** X1.  Whatever the effects do, no dispatch (by the hook or trace-bound),
    no run of an effect body and no turn of the microtask queue ends with
    an exception: an exception of an effect and an error of the guard end
    up in a promise. The one call into the hook that can throw is
    [addEffect], and it throws in one case only: a [TypeError] for an
    action that is the name of a member of [Object.prototype] and has no
    entry in the registry. *)
Theorem dispatch_never_throws (n : nat) (c : config) (e : error) :
  (∀ prev a, dispatchTrace options n prev a c ≠ Raise e) ∧
  (∀ plain fr p, exec options n plain fr p c ≠ Raise e) ∧
  tick options n c ≠ Raise e ∧
  (∀ o, apply_op options n o c = Raise e ↔
        ∃ a effect,
          o = Op_addEffect a effect ∧ inherited a = true ∧
          allEffectsArray c !! a = None ∧
          e = TypeError "handlers.includes is not a function").
Proof.
  assert (∀ c prev a e, dispatchTrace options n prev a c ≠ Raise e) as Hd.
  { intros c0 prev a e0. apply dispatchTrace_with_never_raises.
    apply exec_never_raises. }
  assert (∀ c, tick options n c ≠ Raise e) as Ht.
  { intros c0. unfold tick. destruct (microtasks c0) as [|[fr p|fr o] q];
      cbn [run_task]; [done| |done].
    apply exec_never_raises. }
  split; [intros; apply Hd|]. split; [intros; apply exec_never_raises|].
  split; [apply Ht|]. intros o. split.
  - destruct o as [a|a effect| |]; cbn [apply_op]; [| |done|].
    + unfold dispatch.
      destruct (dispatchTrace options n None a c) as [[q c1]|e1|] eqn:E;
        [done| |done].
      by apply Hd in E.
    + destruct (addEffect_error a c) as [e1|] eqn:E; [|done].
      intros [= ->]. apply addEffect_error_Some in E as (-> & Hi & Hn).
      by exists a, effect.
    + intros H. by apply Ht in H.
  - intros (a & effect & -> & Hi & Hn & ->). cbn [apply_op].
    unfold addEffect_error, inherits. by rewrite Hn, Hi.
Qed.

End Never_raises.

(** ** The listeners a dispatch calls *)

Section Roll.

Variable options : option EffectStateOptions.
Variable p : pid.
Variable L : list invocation.

Lemma roll_inv_transfer stk0 c0 stk1 c1 :
  (p ∈ dom (promises c0) → p ∈ dom (promises c1)) →
  invoked c1 = invoked c0 →
  (count (publishing_for p) stk1 ≤ count (publishing_for p) stk0)%nat →
  roll_inv p L stk0 c0 → roll_inv p L stk1 c1.
Proof.
  intros Hd Hi Hs (Q1 & Q2 & Q3). unfold roll_inv, invocations_for in *.
  rewrite Hi. repeat split; [auto|done|lia].
Qed.

Lemma roll_invoke stk fr a l c :
  roll_inv p L (Publishing fr :: stk) c →
  roll_inv p L (Running fr :: Publishing fr :: stk)
    (log_invoked {| i_action := a; i_effect := eff_ref (l_effect l);
                    i_listener := l_id l; i_promise := f_promise fr |} c).
Proof.
  intros (Q1 & Q2 & Q3). unfold roll_inv, invocations_for in *. fields.
  rewrite count_cons in Q3. cbn [publishing_for] in Q3.
  rewrite List.filter_app, (count_cons _ (Running fr)),
    (count_cons _ (Publishing fr)).
  cbn [List.filter]. unfold invoked_for at 2.
  cbn [i_promise publishing_for]. revert Q3.
  destruct (Nat.eqb (f_promise fr) p); intros Q3; [exfalso; lia|].
  split; [done|]. split; [|lia]. by rewrite app_nil_r.
Qed.

Lemma roll_sync :
  (∀ fr stk v c,
     roll_inv p L (Running fr :: stk) c →
     roll_inv p L stk (enqueue (TAfter fr (Fulfilled v)) (log_returned v c))) ∧
  (∀ fr stk e c,
     roll_inv p L (Running fr :: stk) c →
     roll_inv p L stk (enqueue (TAfter fr (Rejected e)) c)) ∧
  (∀ fr stk q k0 c,
     roll_inv p L (Running fr :: stk) c → roll_inv p L stk (await fr q k0 c)) ∧
  (∀ fr stk e c,
     roll_inv p L (Running fr :: stk) c →
     roll_inv p L stk (reject (f_promise fr) e c)) ∧
  (∀ stk a c l h,
     roll_inv p L stk c →
     roll_inv p L
       (Publishing {| f_promise := fresh (dom (promises c)); f_trace := l |}
          :: stk)
       (log_guarded {| g_trace := l; g_action := a;
                       g_promise := fresh (dom (promises c));
                       g_error := None |}
          (with_traces h (new_promise c).2))) ∧
  (∀ stk a c l e,
     roll_inv p L stk c →
     roll_inv p L stk
       (reject (fresh (dom (promises c))) e
          (log_guarded {| g_trace := l; g_action := a;
                          g_promise := fresh (dom (promises c));
                          g_error := Some e |} (new_promise c).2))) ∧
  (∀ stk fr c, roll_inv p L (Publishing fr :: stk) c → roll_inv p L stk c) ∧
  (∀ stk c, roll_inv p L stk c →
            roll_inv p L stk (promise_resolved VUndefined c).2).
Proof.
  split; [|split; [|split; [|split; [|split; [|split; [|split]]]]]].
  - intros fr stk v c. apply roll_inv_transfer; [done|done|].
    by rewrite count_cons.
  - intros fr stk e c. apply roll_inv_transfer; [done|done|].
    by rewrite count_cons.
  - intros fr stk q k0 c. apply roll_inv_transfer; [by prim|by prim|].
    by rewrite count_cons.
  - intros fr stk e c. unfold reject.
    apply roll_inv_transfer; [by rewrite settle_dom| |by rewrite count_cons].
    by destruct (settle_state (f_promise fr) (Rejected e) c)
      as (_ & _ & _ & -> & _).
  - intros stk a c l h Hc.
    assert (fresh (dom (promises c)) ≠ p) as Hne.
    { intros Heq. destruct Hc as (Q1 & _). rewrite <- Heq in Q1.
      by apply is_fresh in Q1. }
    revert Hc. apply roll_inv_transfer; [|done|].
    + unfold new_promise. fields. apply dom_insert_old.
    + rewrite count_cons. cbn [publishing_for f_promise].
      destruct (Nat.eqb_spec (fresh (dom (promises c))) p); [done|lia].
  - intros stk a c l e. unfold reject.
    apply roll_inv_transfer; [| |done].
    + rewrite settle_dom. unfold new_promise. fields. apply dom_insert_old.
    + by destruct (settle_state (fresh (dom (promises c))) (Rejected e)
                     (log_guarded
                        {| g_trace := l; g_action := a;
                           g_promise := fresh (dom (promises c));
                           g_error := Some e |} (new_promise c).2))
        as (_ & _ & _ & -> & _).
  - intros stk fr c. apply roll_inv_transfer; [done|done|].
    rewrite count_cons. lia.
  - intros stk c. apply roll_inv_transfer; [|done|done].
    unfold promise_resolved. fields. apply dom_insert_old.
Qed.

Lemma exec_roll n plain fr prog stk c c' :
  roll_inv p L (Running fr :: stk) c →
  exec options n plain fr prog c = Done c' →
  roll_inv p L stk c'.
Proof.
  destruct roll_sync as (H1 & H2 & H3 & H3' & H4 & H5 & H6 & H7).
  apply (exec_pres options (roll_inv p L)); eauto using roll_invoke.
Qed.

Lemma steps_roll c c' :
  roll_inv p L [] c → rtc (step options) c c' → roll_inv p L [] c'.
Proof.
  destruct roll_sync as (H1 & H2 & H3 & H3' & H4 & H5 & H6 & H7).
  apply (steps_pres options (roll_inv p L)); eauto using roll_invoke.
  - (* a listener finishes *)
    intros fr o q c0 Hc _. revert Hc. rewrite after_await_unfold.
    apply roll_inv_transfer; [| |done].
    + rewrite settle_dom. by destruct o as [v|e]; [destruct (truthy v)|].
    + match goal with
      | |- invoked (settle ?a ?b ?c) = _ =>
          destruct (settle_state a b c) as (_ & _ & _ & -> & _)
      end.
      by destruct o as [v|e]; [destruct (truthy v)|].
  - (* addEffect *)
    intros a effect c0.
    destruct (addEffect_fields a effect c0)
      as (_ & _ & _ & Hp & _ & _ & Hi & _).
    apply roll_inv_transfer; [by rewrite Hp|done|done].
  - (* cleanup *)
    intros c0. rewrite cleanup_only_target. by apply roll_inv_transfer.
Qed.

End Roll.

Lemma call_listeners_roll options n a fr ls : ∀ L c c',
  roll_inv (f_promise fr) L [] c →
  call_listeners (exec options n) a fr ls c = Done c' →
  roll_inv (f_promise fr) (L ++ (invocation_of a (f_promise fr) <$> ls)) [] c'.
Proof.
  induction ls as [|l ls IH]; intros L c c' Hc; cbn [call_listeners].
  - intros [= <-]. by rewrite app_nil_r.
  - destruct (call_listener _ a fr l c) as [c1| |] eqn:E; try done.
    intros Hls. unfold call_listener in E.
    rewrite fmap_cons, cons_middle, app_assoc.
    eapply IH; [|exact Hls].
    eapply (exec_roll options); [|exact E].
    destruct Hc as (Q1 & Q2 & _).
    unfold roll_inv, invocations_for in *. fields.
    rewrite List.filter_app, Q2. cbn [List.filter].
    unfold invoked_for. cbn [i_promise]. rewrite Nat.eqb_refl.
    split; [done|]. split; [done|]. rewrite count_cons. by cbn [publishing_for].
Qed.

(** X2.  A dispatch by the hook calls the listeners the event target has for
    the action, each once and in the order of their registration, and no
    other listener is ever called for the promise it returns. The call
    itself leaves the state and the registrations as they are: states change
    in microtasks only. *)
Theorem dispatch_calls_the_listeners_in_order
    (options : option EffectStateOptions) (s0 : value) (c : config)
    (tg : list (string * listener)) (a : action) (n : nat) (p : pid)
    (c' : config) :
  reachable options s0 c →
  target c = Some tg →
  dispatch options n a c = Done (p, c') →
  invocations_for p c' = invocation_of a p <$> listeners_for a tg ∧
  state c' = state c ∧ stateRef c' = stateRef c ∧
  (∀ c'', rtc (step options) c' c'' →
          invocations_for p c'' = invocation_of a p <$> listeners_for a tg).
Proof.
  intros Hr Ht Hd.
  destruct (dispatchTrace_state options n None a c p c' Hd) as [Hs Hsr].
  unfold dispatch, dispatchTrace, dispatchTrace_with in Hd.
  rewrite Ht in Hd. cbn [new_promise] in Hd. fields.
  rewrite getNextTrace_None in Hd. unfold dispatchEvent in Hd. fields.
  rewrite Ht in Hd.
  destruct (call_listeners _ _ _ _ _) as [c1| |] eqn:Hc; try done.
  injection Hd as <- <-.
  set (q := fresh (dom (promises c))) in *.
  destruct (fresh_promise_quiet options s0 c q Hr) as (_ & _ & I & _);
    [apply is_fresh|].
  apply (call_listeners_roll options n a
           {| f_promise := q; f_trace := fresh (dom (traces c)) |}
           (listeners_for a tg) []) in Hc.
  - cbn [f_promise app] in Hc. split; [by destruct Hc as (_ & ? & _)|].
    split; [done|]. split; [done|]. intros c'' H2.
    by destruct (steps_roll options q _ c1 c'' Hc H2) as (_ & ? & _).
  - unfold roll_inv, invocations_for, ninvoked, count in *. fields.
    split; [apply dom_insert_new|]. split; [|done].
    by apply length_zero_iff_nil.
Qed.

Lemma dispatch_calls_the_listeners_in_order_witness :
  let c := useEffectState (VObj ∅) [("A", effectA); ("A", effectB)] in
  let c' := after_op None 2 (Op_dispatch "A") c in
  let tg := [("A", {| l_id := 0; l_effect := effectA |});
             ("A", {| l_id := 1; l_effect := effectB |})] in
  invocations_for 0%nat c' = invocation_of "A" 0%nat <$> listeners_for "A" tg ∧
  state c' = state c ∧ stateRef c' = stateRef c ∧
  (∀ c'', rtc (step None) c' c'' →
          invocations_for 0%nat c''
            = invocation_of "A" 0%nat <$> listeners_for "A" tg).
Proof.
  intros c c' tg.
  apply (dispatch_calls_the_listeners_in_order None (VObj ∅) c tg "A" 2).
  - apply reachable_start.
  - vm_compute. reflexivity.
  - vm_compute. reflexivity.
Defined.

(** ** The registry against the event target *)

Lemma listeners_for_snoc a b l tg :
  listeners_for b (tg ++ [(a, l)])
    = listeners_for b tg ++ (if String.eqb a b then [l] else []).
Proof.
  rewrite listeners_for_app. f_equal. unfold listeners_for.
  cbn [List.filter fst]. by destruct (String.eqb a b).
Qed.

Lemma addEffect_mirror_inv a effect c :
  registry_inv c → mirror_inv c → mirror_inv (addEffect a effect c).
Proof.
  intros Hreg Hm. destruct (addEffect_error a c) as [e|] eqn:He;
    [by rewrite (addEffect_thrown a effect c e He)|].
  rewrite addEffect_unfold by done.
  intros tg' b. fields. intros Ht.
  destruct (target c) as [tg|] eqn:Htc; [|done].
  injection Ht as <-. rewrite listeners_for_snoc, (Hm tg b Htc).
  destruct (String.eqb_spec a b) as [<-|Hne].
  - by rewrite lookup_insert_eq.
  - rewrite lookup_insert_ne by done. by rewrite app_nil_r.
Qed.

Section Mirror.

Variable options : option EffectStateOptions.

Lemma reachable_mirror_inv s0 c :
  reachable options s0 c → registry_inv c ∧ mirror_inv c.
Proof.
  apply (reachable_pres options (λ _ c, registry_inv c ∧ mirror_inv c));
    try done.
  all: try (by split; [apply init_registry_inv|intros tg a [= <-]]).
  all: try (by intros ? ? ? [? ?];
            split; [apply addEffect_registry_inv|apply addEffect_mirror_inv]).
  all: try (intros ? [[? ?] ?]; rewrite cleanup_only_target;
            split; [split; [by fields|done]|by intros ? ?]).
  all: unfold mirror_inv, registry_inv, registered; intros; prim.
Qed.

End Mirror.

(** X3.  While the hook is mounted the registry and the event target agree:
    for every action the target has exactly the listeners of the registry
    entry, in the same order (none when there is no entry). *)
Theorem registry_mirrors_target (options : option EffectStateOptions)
    (s0 : value) (c : config) (tg : list (string * listener)) (a : action) :
  reachable options s0 c →
  target c = Some tg →
  listeners_for a tg = default [] (allEffectsArray c !! a).
Proof.
  intros Hr Ht. apply reachable_mirror_inv in Hr as [_ Hm]. by apply Hm.
Qed.

Lemma registry_mirrors_target_witness :
  let c := useEffectState (VObj ∅)
             [("A", effectA); ("B", effectB); ("A", zeroEffect)] in
  listeners_for "A" [("A", {| l_id := 0; l_effect := effectA |});
                     ("B", {| l_id := 1; l_effect := effectB |});
                     ("A", {| l_id := 2; l_effect := zeroEffect |})]
    = default [] (allEffectsArray c !! "A").
Proof.
  intros c.
  apply (registry_mirrors_target None (VObj ∅) c).
  - apply reachable_start.
  - vm_compute. reflexivity.
Defined.

Lemma addEffect_plain_registry a effect c :
  plain_registry c → plain_registry (addEffect a effect c).
Proof.
  intros Hp b Hb. unfold addEffect.
  destruct (addEffect_error a c) as [e|] eqn:He; [by apply Hp|].
  assert (a ≠ b) as Hne.
  { intros ->. unfold addEffect_error, inherits in He.
    by rewrite (Hp b Hb), Hb in He. }
  unfold getListener. fields.
  destruct (allEffectsArray c !! a) as [hs|]; [destruct (negb _)|]; fields;
    destruct (target c); fields; rewrite lookup_insert_ne by done;
    by apply Hp.
Qed.

Lemma init_plain_registry s0 : plain_registry (init s0).
Proof. intros a _. unfold init. fields. apply lookup_empty. Qed.

Section Plain.

Variable options : option EffectStateOptions.

Lemma reachable_plain_registry s0 c :
  reachable options s0 c → plain_registry c.
Proof.
  apply (reachable_pres options (λ _ c, plain_registry c)); try done.
  all: try (by apply init_plain_registry).
  all: try (by intros; apply addEffect_plain_registry).
  all: try (intros ? Hc; by rewrite cleanup_only_target).
  all: unfold plain_registry; intros; prim; auto.
Qed.

(** The event target has no listener for a name of the prototype. *)
Lemma reachable_plain_target s0 c tg a :
  reachable options s0 c → target c = Some tg →
  listeners_for a tg ≠ [] → inherited a = false.
Proof.
  intros Hr Ht Hl. pose proof (reachable_plain_registry s0 c Hr) as Hp.
  destruct (reachable_mirror_inv options s0 c Hr) as [_ Hm].
  rewrite (Hm tg a Ht) in Hl.
  destruct (inherited a) eqn:Hi; [|done].
  by rewrite (Hp a Hi) in Hl.
Qed.

End Plain.

(** X4.  [addEffect] never drops a handler. In every configuration the hook
    can reach, and for every action that is not a name of a member of
    [Object.prototype], it returns, and it appends the new listener to the
    registry entry of the action (the branch that overwrites the entry runs
    only when there is no entry yet) and, while the hook is mounted, to the
    event target; after teardown the registry still grows and nothing is
    attached. No other entry, and nothing else of the hook, changes. For a
    name of the prototype it throws a [TypeError] and leaves everything as
    it was. *)
Theorem addEffect_appends (options : option EffectStateOptions)
    (s0 : value) (c : config) (a : action) (effect : Effect) (n : nat) :
  reachable options s0 c →
  let l := {| l_id := next_listener c; l_effect := effect |} in
  let c' := addEffect a effect c in
  if inherited a
  then apply_op options n (Op_addEffect a effect) c
         = Raise (TypeError "handlers.includes is not a function") ∧
       c' = c
  else apply_op options n (Op_addEffect a effect) c = Done c' ∧
       allEffectsArray c' !! a
         = Some (default [] (allEffectsArray c !! a) ++ [l]) ∧
       (∀ b, b ≠ a → allEffectsArray c' !! b = allEffectsArray c !! b) ∧
       target c' = (λ tg, tg ++ [(a, l)]) <$> target c ∧
       next_listener c' = S (next_listener c) ∧
       state c' = state c ∧ stateRef c' = stateRef c ∧
       promises c' = promises c ∧ microtasks c' = microtasks c ∧
       waiting c' = waiting c ∧ traces c' = traces c.
Proof.
  intros Hr l c'. pose proof (reachable_plain_registry options s0 c Hr) as Hp.
  apply reachable_registry_inv in Hr.
  destruct (inherited a) eqn:Hi.
  - assert (addEffect_error a c
            = Some (TypeError "handlers.includes is not a function")) as He.
    { unfold addEffect_error, inherits. by rewrite (Hp a Hi), Hi. }
    cbn [apply_op]. rewrite He. split; [done|].
    by apply (addEffect_thrown a effect c _ He).
  - pose proof (addEffect_error_plain a c Hi) as He.
    cbn [apply_op]. rewrite He. split; [done|].
    unfold c'. rewrite (addEffect_unfold a effect c He Hr). fields.
    rewrite lookup_insert_eq. split; [done|]. split; [|done].
    intros b Hb. by rewrite lookup_insert_ne.
Qed.

Lemma addEffect_appends_witness :
  let c := cleanup (useEffectState (VObj ∅) [("A", effectA)]) in
  let l := {| l_id := next_listener c; l_effect := effectB |} in
  let c' := addEffect "A" effectB c in
  apply_op None 0 (Op_addEffect "A" effectB) c = Done c' ∧
  allEffectsArray c' !! "A"
    = Some (default [] (allEffectsArray c !! "A") ++ [l]) ∧
  (∀ b, b ≠ "A" → allEffectsArray c' !! b = allEffectsArray c !! b) ∧
  target c' = (λ tg, tg ++ [("A", l)]) <$> target c ∧
  next_listener c' = S (next_listener c) ∧
  state c' = state c ∧ stateRef c' = stateRef c ∧
  promises c' = promises c ∧ microtasks c' = microtasks c ∧
  waiting c' = waiting c ∧ traces c' = traces c.
Proof.
  intros c.
  apply (addEffect_appends None (VObj ∅) c "A" effectB 0).
  exists [("A", effectA)]. apply rtc_once. by exists 0%nat, Op_cleanup.
Defined.

(** ** Mounting *)

Lemma listeners_from_cons k e effs :
  listeners_from k (e :: effs)
    = (e.1, {| l_id := k; l_effect := e.2 |}) :: listeners_from (S k) effs.
Proof.
  unfold listeners_from. cbn [imap]. rewrite Nat.add_0_r. f_equal.
  apply imap_ext. intros i x _. cbn. do 3 f_equal. lia.
Qed.

Lemma mount_target effs : ∀ c tg,
  registry_inv c → plain_registry c → target c = Some tg →
  target (mount effs c)
    = Some (tg ++ listeners_from (next_listener c) (accepted_effects effs)) ∧
  next_listener (mount effs c)
    = (next_listener c + length (accepted_effects effs))%nat.
Proof.
  induction effs as [|[a e] effs IH]; intros c tg Hreg Hp Ht.
  - cbn. rewrite app_nil_r. split; [done|lia].
  - cbn [mount accepted_effects fst snd]. destruct (inherited a) eqn:Hi.
    + assert (addEffect_error a c
              = Some (TypeError "handlers.includes is not a function"))
        as He.
      { unfold addEffect_error, inherits. by rewrite (Hp a Hi), Hi. }
      rewrite He. cbn. rewrite app_nil_r. split; [done|lia].
    + pose proof (addEffect_error_plain a c Hi) as He. rewrite He.
      pose proof (addEffect_registry_inv a e c Hreg) as Hreg1.
      pose proof (addEffect_plain_registry a e c Hp) as Hp1.
      destruct (IH (addEffect a e c)
                   (tg ++ [(a, {| l_id := next_listener c; l_effect := e |})])
                   Hreg1 Hp1) as [H1 H2].
      { rewrite (addEffect_unfold a e c He Hreg). fields. by rewrite Ht. }
      assert (next_listener (addEffect a e c) = S (next_listener c)) as Hn
        by (by rewrite (addEffect_unfold a e c He Hreg)).
      rewrite Hn in H1, H2. rewrite H1, H2, listeners_from_cons.
      cbn [fst snd length]. rewrite <- app_assoc. split; [done|lia].
Qed.

Lemma mount_fields effs : ∀ c,
  state (mount effs c) = state c ∧ stateRef (mount effs c) = stateRef c ∧
  promises (mount effs c) = promises c ∧ traces (mount effs c) = traces c ∧
  microtasks (mount effs c) = microtasks c ∧
  waiting (mount effs c) = waiting c ∧ invoked (mount effs c) = invoked c.
Proof.
  induction effs as [|[a e] effs IH]; intros c; [done|].
  cbn [mount fst snd]. destruct (addEffect_error a c); [done|].
  destruct (IH (addEffect a e c)) as (-> & -> & -> & -> & -> & -> & ->).
  by destruct (addEffect_fields a e c)
    as (-> & -> & -> & -> & -> & -> & -> & _).
Qed.

(** [accepted_effects] is the longest prefix without a name of the
    prototype. *)
Lemma accepted_effects_spec effs :
  (∀ e, e ∈ accepted_effects effs → inherited e.1 = false) ∧
  ∃ rest, effs = accepted_effects effs ++ rest ∧
          match rest with
          | [] => True
          | e :: _ => inherited e.1 = true
          end.
Proof.
  induction effs as [|e effs [IH1 (rest & IH2 & IH3)]].
  - split; [by intros e H; apply elem_of_nil in H|]. by exists [].
  - cbn [accepted_effects]. destruct (inherited e.1) eqn:Hi.
    + split; [by intros e0 H; apply elem_of_nil in H|]. by exists (e :: effs).
    + split.
      * intros e0 [->|H]%elem_of_cons; auto.
      * exists rest. split; [|done]. cbn [app]. by rewrite <- IH2.
Qed.

(** X5.  The first render followed by the mount effect: the event target has
    one listener for every entry of [initialEffects] that comes before the
    first entry whose action is a name of a member of [Object.prototype]
    (for every entry when there is no such name), in the order of the
    entries, with the identities 0, 1, ...; at such a name [addEffect]
    throws, and neither that entry nor a later one is registered. The state
    is the initial state and there is no promise, no trace and nothing
    scheduled. *)
Theorem mount_registers_every_initial_effect (s0 : value)
    (effs : list (string * Effect)) :
  let c := useEffectState s0 effs in
  let regs := accepted_effects effs in
  target c = Some (listeners_from 0 regs) ∧
  next_listener c = length regs ∧
  (∀ a, default [] (allEffectsArray c !! a)
          = listeners_for a (listeners_from 0 regs)) ∧
  (∀ e, e ∈ regs → inherited e.1 = false) ∧
  (∃ rest, effs = regs ++ rest ∧
           match rest with
           | [] => True
           | e :: _ => inherited e.1 = true
           end) ∧
  state c = s0 ∧ stateRef c = s0 ∧
  promises c = ∅ ∧ traces c = ∅ ∧ microtasks c = [] ∧ waiting c = [] ∧
  invoked c = [].
Proof.
  intros c regs.
  destruct (mount_target effs (init s0) [] (init_registry_inv s0)
              (init_plain_registry s0) eq_refl) as [Ht Hn].
  cbn [app] in Ht. change (next_listener (init s0)) with O in Ht, Hn.
  fold (useEffectState s0 effs) in Ht, Hn. fold c regs in Ht, Hn.
  split; [done|]. split; [done|]. split; [|split; [|split]].
  - intros a. symmetry.
    destruct (reachable_mirror_inv None s0 c (reachable_start None s0 effs))
      as [_ Hm].
    by apply Hm.
  - apply accepted_effects_spec.
  - apply accepted_effects_spec.
  - destruct (mount_fields effs (init s0))
      as (H1 & H2 & H3 & H4 & H5 & H6 & H7).
    by repeat split.
Qed.

Lemma steps_after_op options n o c :
  rtc (step options) c (after_op options n o c).
Proof.
  unfold after_op. destruct (apply_op options n o c) as [c'| |] eqn:E;
    [|apply rtc_refl|apply rtc_refl].
  apply rtc_once. by exists n, o.
Qed.

(** ** After teardown *)

Section After_teardown.

Variable options : option EffectStateOptions.
Variable I : list invocation.
Variable G : list guard_event.
Variable T : gmap nat (gmap string Z).

Lemma unmounted_inv_transfer stk0 c0 stk1 c1 :
  target c1 = target c0 → invoked c1 = invoked c0 →
  guarded c1 = guarded c0 → traces c1 = traces c0 →
  (∀ fr, Publishing fr ∈ stk1 → Publishing fr ∈ stk0) →
  unmounted_inv I G T stk0 c0 → unmounted_inv I G T stk1 c1.
Proof.
  intros Ht Hi Hg Htr Hs (U1 & U2 & U3 & U4 & U5). unfold unmounted_inv.
  rewrite Ht, Hi, Hg, Htr. repeat split; try done.
  intros fr Hfr. by apply (U5 fr), Hs.
Qed.

Lemma unmounted_inv_settle stk p s c :
  unmounted_inv I G T stk c → unmounted_inv I G T stk (settle p s c).
Proof.
  destruct (settle_state p s c) as (_ & _ & _ & Hi & Htr & Hg & Ht).
  by apply unmounted_inv_transfer.
Qed.

Lemma steps_unmounted_inv c c' :
  unmounted_inv I G T [] c → rtc (step options) c c' →
  unmounted_inv I G T [] c'.
Proof.
  apply (steps_pres options (unmounted_inv I G T)).
  - (* return *)
    intros fr stk v c0. apply unmounted_inv_transfer; try done.
    intros fr0 H. by right.
  - (* throw *)
    intros fr stk e c0. apply unmounted_inv_transfer; try done.
    intros fr0 H. by right.
  - (* throw in a plain function *)
    intros fr stk e c0 H. apply unmounted_inv_settle. revert H.
    apply unmounted_inv_transfer; try done. intros fr0 H. by right.
  - (* await *)
    intros fr stk q k c0. apply unmounted_inv_transfer; try by prim.
    intros fr0 H. by right.
  - (* guard passes *)
    intros stk a c0 tg l h (U1 & _) Ht. congruence.
  - (* guard fails *)
    intros stk a c0 tg l e (U1 & _) Ht. congruence.
  - (* a listener is called *)
    intros stk fr a l c0 (_ & _ & _ & _ & U5). destruct (U5 fr). by left.
  - (* the event is published *)
    intros stk fr c0 (_ & _ & _ & _ & U5). destruct (U5 fr). by left.
  - (* unmounted *)
    intros stk c0 H _. revert H. by apply unmounted_inv_transfer.
  - (* a body resumes *)
    intros fr p q c0 H _. revert H. apply unmounted_inv_transfer; try done.
    intros fr0 H. apply list_elem_of_singleton in H. discriminate.
  - (* a listener finishes *)
    intros fr o q c0 H _. rewrite after_await_unfold.
    apply unmounted_inv_settle. revert H.
    apply unmounted_inv_transfer;
      by destruct o as [v|e]; [destruct (truthy v)|].
  - (* addEffect *)
    intros a effect c0 H.
    destruct (addEffect_fields a effect c0)
      as (_ & _ & Htr & _ & _ & _ & Hi & _ & _ & Hg).
    pose proof H as (U1 & _).
    revert H. apply unmounted_inv_transfer; try done.
    by rewrite addEffect_target_None.
  - (* cleanup *)
    intros c0. rewrite cleanup_only_target.
    intros (U1 & U2 & U3 & U4 & U5). by repeat split.
Qed.

End After_teardown.

(** X6.  After teardown no effect is ever called again and the guard is never
    evaluated again, whatever is dispatched, registered or still scheduled:
    effect bodies that were suspended go on, but their dispatches publish
    nothing, and an effect added after teardown is never attached. *)
Theorem nothing_is_called_after_teardown
    (options : option EffectStateOptions) (c c' : config) :
  rtc (step options) (cleanup c) c' →
  target c' = None ∧ invoked c' = invoked c ∧ guarded c' = guarded c ∧
  traces c' = traces c.
Proof.
  intros Hr.
  assert (unmounted_inv (invoked c) (guarded c) (traces c) [] (cleanup c))
    as Hu.
  { rewrite cleanup_only_target. repeat split; try done.
    intros fr H. by apply elem_of_nil in H. }
  destruct (steps_unmounted_inv options _ _ _ _ _ Hu Hr)
    as (U1 & U2 & U3 & U4 & _).
  done.
Qed.

Lemma nothing_is_called_after_teardown_witness :
  let c := useEffectState (VObj ∅) [("A", effectA)] in
  let c' := after_op None 2 (Op_dispatch "A")
              (addEffect "B" effectB (cleanup c)) in
  target c' = None ∧ invoked c' = invoked c ∧ guarded c' = guarded c ∧
  traces c' = traces c.
Proof.
  intros c c'.
  apply (nothing_is_called_after_teardown None c c').
  eapply rtc_l; [by exists 0%nat, (Op_addEffect "B" effectB)|].
  apply steps_after_op.
Defined.

(** X7.  Teardown writes the event target and nothing else: promises,
    scheduled microtasks, suspended effect bodies, the state and the
    registry are as before, so a dispatch in flight is not cancelled.
    Teardown is idempotent. A listener that finishes after teardown does to
    the snapshot, the promise and the queue what it would have done before
    teardown, but it no longer changes the observed state, which stays as
    it was at teardown. *)
Theorem teardown_discards_only_the_target (c : config) :
  cleanup c = with_target None c ∧
  cleanup (cleanup c) = cleanup c ∧
  ∀ fr o,
    let c1 := after_await fr o (cleanup c) in
    let c2 := cleanup (after_await fr o c) in
    state c1 = state c ∧
    stateRef c1 = stateRef c2 ∧ promises c1 = promises c2 ∧
    microtasks c1 = microtasks c2 ∧ waiting c1 = waiting c2 ∧
    settle_calls c1 = settle_calls c2 ∧ target c1 = target c2 ∧
    allEffectsArray c1 = allEffectsArray c2 ∧ traces c1 = traces c2 ∧
    next_listener c1 = next_listener c2 ∧ invoked c1 = invoked c2 ∧
    returned c1 = returned c2 ∧ guarded c1 = guarded c2.
Proof.
  split; [apply cleanup_only_target|]. split.
  - by rewrite !cleanup_only_target.
  - intros fr o. cbv zeta.
    rewrite !cleanup_only_target, !after_await_unfold.
    unfold settle. fields.
    destruct o as [v|e]; [destruct (truthy v)|]; fields;
      by destruct (promises c !! f_promise fr) as [[|s]|].
Qed.

(** ** The guard over time *)

Lemma getNextTrace_raises maxDepth a l h :
  trace_count h l a ≠ 0 → maxDepth < trace_count h l a →
  getNextTrace maxDepth a (Some l) h
    = Raise (MaxDepthError (trace_count h l a) a).
Proof.
  intros H0 Hm. unfold getNextTrace. rewrite (inherits_counted h l a H0).
  change (default 0 (default ∅ (h !! l) !! a)) with (trace_count h l a).
  destruct (Z.eqb_spec (trace_count h l a) 0); [done|].
  cbn [negb]. by destruct (Z.ltb_spec maxDepth (trace_count h l a)); [|lia].
Qed.

Section Guard_over_time.

Variable options : option EffectStateOptions.

(** A count above the maximum is final: the guard refuses every further
    dispatch of the action on that trace, and nothing else writes it. *)
Lemma steps_tripped_count (k : Z) (l : loc) (a : action) c c' :
  k ≠ 0 → maxTraceDepth options < k →
  trace_count (traces c) l a = k → rtc (step options) c c' →
  trace_count (traces c') l a = k.
Proof.
  intros Hk0 Hkm.
  assert (∀ p s c, traces (settle p s c) = traces c) as Hset.
  { intros p s c0.
    by destruct (settle_state p s c0) as (_ & _ & _ & _ & -> & _). }
  apply (steps_pres options (λ _ c, trace_count (traces c) l a = k)).
  - (* return *) by intros fr stk v c0.
  - (* throw *) by intros fr stk e c0.
  - (* throw in a plain function *)
    intros fr stk e c0. unfold reject. by rewrite Hset.
  - (* await *) intros fr stk q k0 c0 H. by prim.
  - (* guard passes *)
    intros stk a0 c0 tg l1 h H _ G. unfold new_promise. fields.
    destruct (getNextTrace_pass_count _ _ _ _ _ _ G) as (Hle & _ & Hother).
    rewrite Hother; [done|]. intros [-> ->]. rewrite H in Hle. lia.
  - (* guard fails *)
    intros stk a0 c0 tg l1 e H _ _ _. unfold reject, new_promise.
    rewrite Hset. by fields.
  - (* a listener is called *) by intros stk fr a0 l0 c0.
  - (* the event is published *) by intros stk fr c0.
  - (* unmounted *) by intros stk c0.
  - (* a body resumes *) by intros fr p q c0.
  - (* a listener finishes *)
    intros fr o q c0 H _. rewrite after_await_unfold, Hset.
    by destruct o as [v|e]; [destruct (truthy v)|].
  - (* addEffect *)
    intros a0 effect c0 H.
    by destruct (addEffect_fields a0 effect c0) as (_ & _ & -> & _).
  - (* cleanup *)
    intros c0 H. by rewrite cleanup_only_target.
Qed.

(** X8.  Once the guard has tripped for an action on a trace, it trips for
    that action on that trace at every later time, with the same error: a
    chain that has hit the maximum for an action can never dispatch it
    again. *)
Theorem tripped_guard_stays_tripped (s0 : value) (c c' : config)
    (l : loc) (a : action) (e : error) :
  reachable options s0 c →
  getNextTrace (maxTraceDepth options) a (Some l) (traces c) = Raise e →
  rtc (step options) c c' →
  getNextTrace (maxTraceDepth options) a (Some l) (traces c') = Raise e.
Proof.
  intros _ Hg Hs.
  apply getNextTrace_fail_count in Hg as (-> & H0 & Hm).
  pose proof (steps_tripped_count _ l a c c' H0 Hm eq_refl Hs) as Heq.
  rewrite <- Heq. apply getNextTrace_raises; rewrite Heq; done.
Qed.

(** X9.  For an action that is not a name of a member of
    [Object.prototype], the count a trace holds is the number of dispatches
    of that action on the trace, capped at one more than the maximum (at 1
    when the maximum is negative); so the error of the guard names exactly
    that cap. *)
Theorem trace_counts_are_capped (s0 : value) (c : config) (l : loc)
    (a : action) :
  reachable options s0 c →
  inherited a = false →
  let m := maxTraceDepth options in
  trace_count (traces c) l a
    = Z.min (Z.of_nat (count (same_chain l a) (guarded c))) (guard_limit m) ∧
  0 ≤ trace_count (traces c) l a ≤ guard_limit m ∧
  ∀ e, getNextTrace m a (Some l) (traces c) = Raise e →
       e = MaxDepthError (guard_limit m) a.
Proof.
  intros Hr Hplain m.
  destruct (reachable_guard_inv options s0 c Hr) as (Hc & _).
  specialize (Hc l a Hplain). fold m in Hc.
  pose proof (guard_limit_pos m) as Hpos.
  split; [done|]. split; [lia|]. intros e He.
  apply getNextTrace_fail_count in He as (-> & H0 & Hm). f_equal.
  unfold guard_limit in *. lia.
Qed.

End Guard_over_time.

Lemma tripped_guard_stays_tripped_witness :
  let options := Some {| dispatchMaxCircularCalls := Some 1 |} in
  let c := after_op options 6 (Op_dispatch "S")
             (useEffectState (VObj ∅) [("S", dispatchTimes 5 3 "U")]) in
  let c' := after_op options 6 Op_tick c in
  getNextTrace (maxTraceDepth options) "U" (Some 0%nat) (traces c')
    = Raise (MaxDepthError 2 "U").
Proof.
  intros options c c'.
  apply (tripped_guard_stays_tripped options (VObj ∅) c c').
  - apply reachable_after_op, reachable_start.
  - vm_compute. reflexivity.
  - apply steps_after_op.
Defined.

Lemma trace_counts_are_capped_witness :
  let options := Some {| dispatchMaxCircularCalls := Some 1 |} in
  let c := after_op options 6 (Op_dispatch "S")
             (useEffectState (VObj ∅) [("S", dispatchTimes 5 3 "U")]) in
  let m := maxTraceDepth options in
  trace_count (traces c) 0%nat "U"
    = Z.min (Z.of_nat (count (same_chain 0%nat "U") (guarded c)))
            (guard_limit m) ∧
  0 ≤ trace_count (traces c) 0%nat "U" ≤ guard_limit m ∧
  ∀ e, getNextTrace m "U" (Some 0%nat) (traces c) = Raise e →
       e = MaxDepthError (guard_limit m) "U".
Proof.
  intros options c.
  apply (trace_counts_are_capped options (VObj ∅) c 0%nat "U").
  - apply reachable_after_op, reachable_start.
  - reflexivity.
Defined.

(** ** Several handlers for one action *)

(** X10.  The promise of a dispatch holds the value of the first call of
    [resolve] or [reject] made for it; later calls, by other listeners of
    the same dispatch, change nothing. There are never more calls than
    listeners called for the dispatch (one call when the guard rejected it). *)
Theorem first_settlement_wins (options : option EffectStateOptions)
    (s0 : value) (c : config) (p : pid) (s : settlement)
    (rest : list settlement) :
  reachable options s0 c →
  calls_for p c = s :: rest →
  promises c !! p = Some (Settled s) ∧
  (length (s :: rest) ≤ ninvoked c p + nrejected c p)%nat.
Proof.
  intros Hr Hc.
  destruct (reachable_ledger_inv options s0 c Hr) as [(A & _) (_ & F)].
  split; [by eapply F|]. specialize (A p). rewrite Hc in A. lia.
Qed.

Lemma first_settlement_wins_witness :
  let c := after_op None 2 Op_tick
             (after_op None 2 Op_tick
                (after_op None 2 (Op_dispatch "A")
                   (useEffectState (VObj ∅)
                      [("A", effectA); ("A", effectB)]))) in
  promises c !! 0%nat = Some (Settled (Fulfilled (VObj {[ "a" := 1 ]}))) ∧
  (length [Fulfilled (VObj {[ "a" := 1%Z ]});
           Fulfilled (VObj {[ "b" := 2%Z ]})]
   ≤ ninvoked c 0 + nrejected c 0)%nat.
Proof.
  intros c.
  apply (first_settlement_wins None (VObj ∅) c 0%nat
           (Fulfilled (VObj {[ "a" := 1%Z ]}))
           [Fulfilled (VObj {[ "b" := 2%Z ]})]).
  - do 3 apply reachable_after_op. apply reachable_start.
  - vm_compute. reflexivity.
Defined.

(** X11.  Two handlers of one action do not build on each other. Both are
    called during the dispatch with the state of that moment; when both
    return a (truthy) state, the first microtask sets the state to the
    result of the first and resolves the promise with it, and the second
    microtask overwrites the state with the result of the second, which was
    computed from the old state. The promise keeps the result of the first. *)
Theorem two_handlers_do_not_compose (options : option EffectStateOptions)
    (c : config) (tg : list (string * listener)) (a : action)
    (l1 l2 : listener) (v1 v2 : value) (n : nat) :
  target c = Some tg →
  listeners_for a tg = [l1; l2] →
  microtasks c = [] →
  eff_body (l_effect l1) (stateRef c) = Return v1 →
  eff_body (l_effect l2) (stateRef c) = Return v2 →
  truthy v1 = true → truthy v2 = true →
  ∃ p c1 c2 c3,
    dispatch options (S n) a c = Done (p, c1) ∧
    tick options n c1 = Done c2 ∧
    tick options n c2 = Done c3 ∧
    state c1 = state c ∧
    state c2 = v1 ∧ promises c2 !! p = Some (Settled (Fulfilled v1)) ∧
    state c3 = v2 ∧ promises c3 !! p = Some (Settled (Fulfilled v1)).
Proof.
  intros Ht Hl Hm H1 H2 T1 T2.
  set (p := fresh (dom (promises c))).
  set (fr := {| f_promise := p; f_trace := fresh (dom (traces c)) |}).
  assert (∃ c1, dispatch options (S n) a c = Done (p, c1) ∧
                state c1 = state c ∧
                promises c1 !! p = Some Pending ∧
                microtasks c1 = [TAfter fr (Fulfilled v1);
                                 TAfter fr (Fulfilled v2)] ∧
                target c1 = Some tg)
    as (c1 & Hd & Hs1 & Hp1 & Hm1 & Htg1).
  { unfold dispatch, dispatchTrace, dispatchTrace_with. rewrite Ht.
    cbn [new_promise]. fields. rewrite getNextTrace_None.
    unfold dispatchEvent. fields. rewrite Ht, Hl.
    cbn [call_listeners]. unfold call_listener. fields. rewrite H1.
    cbn [exec]. unfold enqueue at 1. fields. rewrite H2. cbn [exec].
    eexists. split; [reflexivity|]. unfold enqueue. fields.
    rewrite Hm, lookup_insert_eq. done. }
  set (c2 := after_await fr (Fulfilled v1)
               (with_microtasks [TAfter fr (Fulfilled v2)] c1)).
  assert (tick options n c1 = Done c2) as Ht1
    by (unfold tick; by rewrite Hm1).
  assert (state c2 = v1 ∧ promises c2 !! p = Some (Settled (Fulfilled v1)) ∧
          target c2 = Some tg ∧
          ∃ q, microtasks c2 = TAfter fr (Fulfilled v2) :: q)
    as (Hs2 & Hp2 & Htg2 & q & Hm2).
  { unfold c2. rewrite after_await_unfold. unfold settlement_of.
    rewrite T1. cbn [f_promise fr].
    set (c1' := with_state v1 _).
    assert (state c1' = v1 ∧ target c1' = Some tg) as [Hs1' Ht1'].
    { unfold c1'. fields. by rewrite Htg1. }
    destruct (settle_state p (Fulfilled v1) c1')
      as (-> & _ & _ & _ & _ & _ & ->).
    split; [done|]. split; [by apply settle_lookup_pending|].
    split; [done|].
    destruct (settle_microtasks p (Fulfilled v1) c1') as (ws & ->).
    by eexists. }
  set (c3 := after_await fr (Fulfilled v2) (with_microtasks q c2)).
  assert (tick options n c2 = Done c3) as Ht2
    by (unfold tick; by rewrite Hm2).
  exists p, c1, c2, c3. repeat (split; [done|]).
  unfold c3. rewrite after_await_unfold. unfold settlement_of.
  rewrite T2. cbn [f_promise fr].
  set (c2' := with_state v2 _).
  assert (state c2' = v2) as Hs2'.
  { unfold c2'. fields. by rewrite Htg2. }
  destruct (settle_state p (Fulfilled v2) c2') as (-> & _).
  split; [done|]. by apply settle_lookup_settled.
Qed.

Lemma two_handlers_do_not_compose_witness :
  let c := useEffectState (VObj ∅) [("A", effectA); ("A", effectB)] in
  ∃ p c1 c2 c3,
    dispatch None 1 "A" c = Done (p, c1) ∧
    tick None 0 c1 = Done c2 ∧
    tick None 0 c2 = Done c3 ∧
    state c1 = state c ∧
    state c2 = VObj {[ "a" := 1 ]} ∧
    promises c2 !! p = Some (Settled (Fulfilled (VObj {[ "a" := 1 ]}))) ∧
    state c3 = VObj {[ "b" := 2 ]} ∧
    promises c3 !! p = Some (Settled (Fulfilled (VObj {[ "a" := 1 ]}))).
Proof.
  intros c.
  apply (two_handlers_do_not_compose None c
           [("A", {| l_id := 0; l_effect := effectA |});
            ("A", {| l_id := 1; l_effect := effectB |})] "A"
           {| l_id := 0; l_effect := effectA |}
           {| l_id := 1; l_effect := effectB |}
           (VObj {[ "a" := 1%Z ]}) (VObj {[ "b" := 2%Z ]}) 0).
  - vm_compute. reflexivity.
  - vm_compute. reflexivity.
  - vm_compute. reflexivity.
  - vm_compute. reflexivity.
  - vm_compute. reflexivity.
  - reflexivity.
  - reflexivity.
Defined.

(** ** Every call into the hook returns *)

Lemma sum_list_fmap_le {A} (f g : A → nat) (l : list A) :
  (∀ x, x ∈ l → (f x ≤ g x)%nat) →
  (sum_list (f <$> l) ≤ sum_list (g <$> l))%nat.
Proof.
  induction l as [|x l IH]; intros H; cbn; [lia|].
  assert (f x ≤ g x)%nat by (apply H; by left).
  assert (sum_list (f <$> l) ≤ sum_list (g <$> l))%nat; [|lia].
  apply IH. intros y Hy. apply H. by right.
Qed.

Lemma sum_list_fmap_lt {A} (f g : A → nat) (l : list A) x :
  (∀ y, y ∈ l → (f y ≤ g y)%nat) → x ∈ l → (f x < g x)%nat →
  (sum_list (f <$> l) < sum_list (g <$> l))%nat.
Proof.
  induction l as [|y l IH]; intros H Hx Hlt; [by apply elem_of_nil in Hx|].
  cbn. apply elem_of_cons in Hx as [->|Hx].
  - assert (sum_list (f <$> l) ≤ sum_list (g <$> l))%nat; [|lia].
    apply sum_list_fmap_le. intros z Hz. apply H. by right.
  - assert (f y ≤ g y)%nat by (apply H; by left).
    assert (sum_list (f <$> l) < sum_list (g <$> l))%nat; [|lia].
    apply IH; [|done|done]. intros z Hz. apply H. by right.
Qed.

Lemma listeners_for_nonempty a tg :
  listeners_for a tg ≠ [] → ∃ l, (a, l) ∈ tg.
Proof.
  unfold listeners_for. induction tg as [|[b l] tg IH]; [done|].
  cbn [List.filter fst]. destruct (String.eqb_spec b a) as [->|Hne].
  - intros _. exists l. by left.
  - intros H. destruct (IH H) as (l' & Hl'). exists l'. by right.
Qed.

Lemma slack_advanced maxDepth l c c' :
  advanced l c c' → (slack maxDepth l c' ≤ slack maxDepth l c)%nat.
Proof.
  intros [Ht H]. unfold slack. rewrite Ht.
  destruct (target c) as [tg|]; [|done].
  apply sum_list_fmap_le. intros [b lst] _. cbn [fst].
  specialize (H b). lia.
Qed.

Lemma plain_target_advanced l c c' :
  advanced l c c' → plain_target c → plain_target c'.
Proof. intros [Ht _] Hp tg a. rewrite Ht. apply Hp. Qed.

(** A dispatch that passes the guard and has a listener uses up slack. *)
Lemma slack_pass maxDepth a l c tg h c' :
  target c = Some tg → target c' = Some tg → traces c' = h →
  getNextTrace maxDepth a (Some l) (traces c) = Done (l, h) →
  listeners_for a tg ≠ [] → inherited a = false →
  (slack maxDepth l c' < slack maxDepth l c)%nat.
Proof.
  intros Ht Ht' Htr G Hls Hplain. unfold slack. rewrite Ht, Ht', Htr.
  destruct (listeners_for_nonempty a tg Hls) as (lst & Hin).
  destruct (getNextTrace_pass_count maxDepth a (Some l) _ l h G)
    as (Hold & Hnew & _).
  apply (sum_list_fmap_lt _ _ tg (a, lst)); [|done|].
  - intros [b lst'] _. cbn [fst].
    pose proof (getNextTrace_counts_grow maxDepth a (Some l) _ l h l b G).
    lia.
  - cbn [fst]. rewrite (Hnew Hplain). unfold guard_limit.
    destruct (Z.eqb_spec (trace_count (traces c) l a) 0); lia.
Qed.

Section Termination.

Variable options : option EffectStateOptions.

(** More fuel does not change a result. *)
Lemma call_listeners_run_mono
    (run1 run2 : bool → frame → prog → config → result config) a fr ls :
  (∀ plain fr p c c',
     run1 plain fr p c = Done c' → run2 plain fr p c = Done c') →
  ∀ c c', call_listeners run1 a fr ls c = Done c' →
          call_listeners run2 a fr ls c = Done c'.
Proof.
  intros Hrun. induction ls as [|l ls IH]; intros c c';
    cbn [call_listeners]; [done|].
  destruct (call_listener run1 a fr l c) as [c1| |] eqn:E; try done.
  unfold call_listener in *. rewrite (Hrun _ _ _ _ _ E). apply IH.
Qed.

Lemma dispatchTrace_with_run_mono
    (run1 run2 : bool → frame → prog → config → result config) prev a c r :
  (∀ plain fr p c c',
     run1 plain fr p c = Done c' → run2 plain fr p c = Done c') →
  dispatchTrace_with options run1 prev a c = Done r →
  dispatchTrace_with options run2 prev a c = Done r.
Proof.
  intros Hrun. unfold dispatchTrace_with.
  destruct (target c) as [tg|] eqn:Ht; [|done].
  cbn [new_promise]. fields.
  destruct (getNextTrace _ a prev (traces c)) as [[l h]|e|]; [|done|done].
  unfold dispatchEvent. fields. rewrite Ht.
  destruct (call_listeners run1 _ _ _ _) as [c1| |] eqn:E; try done.
  by rewrite (call_listeners_run_mono run1 run2 _ _ _ Hrun _ _ E).
Qed.

Lemma exec_fuel_mono n : ∀ m plain fr p c c',
  (n ≤ m)%nat →
  exec options n plain fr p c = Done c' →
  exec options m plain fr p c = Done c'.
Proof.
  induction n as [|n IH]; intros m plain fr p c c' Hle; [done|].
  destruct m as [|m]; [lia|].
  destruct p as [v|e|a k|q k]; cbn [exec]; try done.
  destruct (dispatchTrace_with options (exec options n) _ a c)
    as [[q c1]| |] eqn:E; try done.
  intros He.
  rewrite (dispatchTrace_with_run_mono (exec options n) (exec options m)
             _ _ _ _ (λ plain fr p c c', IH m plain fr p c c' ltac:(lia)) E).
  apply IH; [lia|done].
Qed.

Lemma exec_slack n plain fr p c c' l :
  exec options n plain fr p c = Done c' →
  (slack (maxTraceDepth options) l c' ≤ slack (maxTraceDepth options) l c)%nat.
Proof.
  intros He. apply slack_advanced.
  eapply exec_advanced; [|exact He]. by apply advanced_refl.
Qed.

(** If effect bodies end when the slack is at most [m], so does the loop
    over the listeners of an event. *)
Lemma call_listeners_terminates m a fr ls :
  (∀ p plain c,
     plain_target c →
     (slack (maxTraceDepth options) (f_trace fr) c ≤ m)%nat →
     ∃ n c', exec options n plain fr p c = Done c') →
  ∀ c, plain_target c →
       (slack (maxTraceDepth options) (f_trace fr) c ≤ m)%nat →
       ∃ n c', call_listeners (exec options n) a fr ls c = Done c' ∧
               advanced (f_trace fr) c c'.
Proof.
  intros Hexec. induction ls as [|l ls IH]; intros c Hp Hc.
  - exists O, c. split; [done|]. by apply advanced_refl.
  - set (c0 := log_invoked
                 {| i_action := a; i_effect := eff_ref (l_effect l);
                    i_listener := l_id l; i_promise := f_promise fr |} c).
    assert (advanced (f_trace fr) c c0) as Ha0 by (by apply advanced_refl).
    assert (slack (maxTraceDepth options) (f_trace fr) c0 ≤ m)%nat as Hc0
      by done.
    destruct (Hexec (eff_body (l_effect l) (stateRef c0))
                (negb (eff_async (l_effect l))) c0
                (plain_target_advanced _ _ _ Ha0 Hp) Hc0)
      as (n1 & c1 & He).
    pose proof (exec_advanced options (f_trace fr) c _ _ _ _ _ _ Ha0 He) as Ha1.
    pose proof (slack_advanced (maxTraceDepth options) _ _ _ Ha1) as Hs1.
    destruct (IH c1 (plain_target_advanced _ _ _ Ha1 Hp) ltac:(lia))
      as (n2 & c2 & Hls & Ha2).
    exists (Nat.max n1 n2), c2. split; [|by eapply advanced_trans].
    cbn [call_listeners]. unfold call_listener. fold c0.
    rewrite (exec_fuel_mono n1 (Nat.max n1 n2) _ _ _ _ _ ltac:(lia) He).
    apply (call_listeners_run_mono (exec options n2)); [|done].
    intros plain fr0 p c3 c4. apply exec_fuel_mono. lia.
Qed.

(** The run of an effect body ends: every dispatch it makes that passes
    the guard and reaches a listener uses up slack of its trace. *)
Lemma exec_terminates m : ∀ p plain fr c,
  plain_target c →
  (slack (maxTraceDepth options) (f_trace fr) c ≤ m)%nat →
  ∃ n c', exec options n plain fr p c = Done c'.
Proof.
  induction m as [m IHm] using lt_wf_ind.
  induction p as [v|e|a k IHk|q k _]; intros plain fr c Hp Hc.
  - by exists 1%nat, (enqueue (TAfter fr (Fulfilled v)) (log_returned v c)).
  - exists 1%nat. cbn [exec]. destruct plain; by eexists.
  - assert (∃ n1 q c1,
              dispatchTrace_with options (exec options n1)
                (Some (f_trace fr)) a c = Done (q, c1) ∧
              advanced (f_trace fr) c c1)
      as (n1 & q & c1 & Hd & Ha1).
    { unfold dispatchTrace_with.
      destruct (target c) as [tg|] eqn:Ht.
      - cbn [new_promise]. fields.
        destruct (getNextTrace _ a (Some (f_trace fr)) (traces c))
          as [[l h]|e|] eqn:G.
        + destruct (getNextTrace_Some_Done _ _ _ _ _ _ G) as [-> _].
          set (p := fresh (dom (promises c))).
          set (c0 := log_guarded _ _).
          unfold dispatchEvent.
          assert (target c0 = Some tg) as Ht0 by done.
          rewrite Ht0.
          assert (advanced (f_trace fr) c c0) as Ha.
          { split; [by rewrite Ht0|]. intros b. unfold c0. fields.
            by eapply getNextTrace_counts_grow. }
          destruct (listeners_for a tg) as [|l0 ls] eqn:Hls.
          * by exists O, p, c0.
          * assert (listeners_for a tg ≠ []) as Hne by (by rewrite Hls).
            assert (slack (maxTraceDepth options) (f_trace fr) c0
                    < slack (maxTraceDepth options) (f_trace fr) c)%nat
              as Hlt.
            { apply (slack_pass _ a _ c tg h c0); try done.
              by apply (Hp tg). }
            destruct (call_listeners_terminates (m - 1) a
                        {| f_promise := p; f_trace := f_trace fr |}
                        (l0 :: ls)) with (c := c0)
              as (n1 & c1 & Hcl & Ha1).
            -- intros p0 plain0 c2 Hp2 Hc2.
               apply (IHm (m - 1)%nat ltac:(lia) p0 plain0
                        {| f_promise := p; f_trace := f_trace fr |} c2 Hp2
                        Hc2).
            -- by apply (plain_target_advanced _ _ _ Ha).
            -- cbn [f_trace]. lia.
            -- exists n1, p, c1. rewrite Hcl. split; [done|].
               cbn [f_trace] in Ha1. by eapply advanced_trans.
        + eexists O, _, _. split; [reflexivity|].
          unfold reject. eapply advanced_trans; [|apply advanced_settle].
          by apply advanced_refl.
        + by apply getNextTrace_never_times_out in G.
      - eexists O, _, _. split; [reflexivity|]. by apply advanced_refl. }
    pose proof (slack_advanced (maxTraceDepth options) _ _ _ Ha1) as Hs1.
    destruct (IHk q plain fr c1 (plain_target_advanced _ _ _ Ha1 Hp)
                ltac:(lia)) as (n2 & c2 & He).
    exists (S (Nat.max n1 n2)), c2. cbn [exec].
    rewrite (dispatchTrace_with_run_mono (exec options n1)
               (exec options (Nat.max n1 n2)) _ _ _ _
               (λ plain fr p c c',
                  exec_fuel_mono n1 (Nat.max n1 n2) plain fr p c c'
                    ltac:(lia)) Hd).
    apply (exec_fuel_mono n2); [lia|done].
  - by exists 1%nat, (await fr q k c).
Qed.

(** X12.  No call into the hook hangs. In every configuration the hook can
    reach, whatever effects are registered (effect bodies being finite
    sequences of returns, throws, dispatches and awaits), a dispatch, a
    registration, a teardown and a turn of the microtask queue each end,
    and from some amount of fuel on the result does not depend on the fuel:
    the call returns, or it is an [addEffect] for a name of a member of
    [Object.prototype] and throws its [TypeError]. Effects that dispatch
    each other synchronously in a circle are cut off by the guard. *)
Theorem every_call_returns (s0 : value) (o : op) (c : config) :
  reachable options s0 c →
  ∃ n r,
    (∀ n', (n ≤ n')%nat → apply_op options n' o c = r) ∧
    match r with
    | Done _ => True
    | Raise e =>
        ∃ a effect,
          o = Op_addEffect a effect ∧ inherited a = true ∧
          e = TypeError "handlers.includes is not a function"
    | Timeout => False
    end.
Proof.
  intros Hr.
  assert (plain_target c) as Hp.
  { intros tg a. by apply (reachable_plain_target options s0). }
  assert (∀ fr p plain c0, plain_target c0 → ∃ n c',
            ∀ n', (n ≤ n')%nat → exec options n' plain fr p c0 = Done c')
    as Hexec.
  { intros fr p plain c0 Hp0.
    destruct (exec_terminates _ p plain fr c0 Hp0 (le_n _)) as (n & c' & He).
    exists n, c'. intros n' Hle. by apply (exec_fuel_mono n). }
  destruct o as [a|a effect| |]; cbn [apply_op].
  - assert (∃ n r, ∀ n', (n ≤ n')%nat → dispatch options n' a c = Done r)
      as (n & [q c'] & Hd).
    { unfold dispatch, dispatchTrace, dispatchTrace_with.
      destruct (target c) as [tg|] eqn:Ht; [|by eexists O, _].
      cbn [new_promise]. fields. rewrite getNextTrace_None.
      unfold dispatchEvent. fields. rewrite Ht.
      set (fr := {| f_promise := fresh (dom (promises c));
                    f_trace := fresh (dom (traces c)) |}).
      set (c0 := log_guarded _ _).
      assert (plain_target c0) as Hp0.
      { intros tg0 a0. unfold c0. fields. apply Hp. }
      destruct (call_listeners_terminates
                  (slack (maxTraceDepth options) (f_trace fr) c0) a fr
                  (listeners_for a tg)) with (c := c0)
        as (n & c1 & Hcl & _); [|done|done|].
      - intros p plain c2 Hp2 Hc2. by eapply exec_terminates.
      - exists n, (fresh (dom (promises c)), c1). intros n' Hle.
        rewrite (call_listeners_run_mono (exec options n) (exec options n')
                   _ _ _ (λ plain fr p c c',
                            exec_fuel_mono n n' plain fr p c c' Hle)
                   _ _ Hcl).
        done. }
    exists n, (Done c'). split; [|done]. intros n' Hle.
    by rewrite (Hd n' Hle).
  - destruct (addEffect_error a c) as [e|] eqn:He.
    + exists O, (Raise e). split; [done|].
      apply addEffect_error_Some in He as (-> & Hi & _). by exists a, effect.
    + by exists O, (Done (addEffect a effect c)).
  - by exists O, (Done (cleanup c)).
  - unfold tick. destruct (microtasks c) as [|[fr p|fr s] q]; cbn [run_task].
    + by exists O, (Done c).
    + destruct (Hexec fr p false (with_microtasks q c)) as (n & c' & He).
      { intros tg a. fields. apply Hp. }
      by exists n, (Done c').
    + by eexists O, (Done _).
Qed.

End Termination.

Lemma every_call_returns_witness :
  let options := Some {| dispatchMaxCircularCalls := Some 2 |} in
  let c := useEffectState (VObj ∅) [("S", dispatchTimes 5 1 "S")] in
  ∃ n r,
    (∀ n', (n ≤ n')%nat → apply_op options n' (Op_dispatch "S") c = r) ∧
    match r with
    | Done _ => True
    | Raise e =>
        ∃ a effect,
          Op_dispatch "S" = Op_addEffect a effect ∧ inherited a = true ∧
          e = TypeError "handlers.includes is not a function"
    | Timeout => False
    end.
Proof.
  intros options c.
  apply (every_call_returns options (VObj ∅) (Op_dispatch "S") c).
  apply reachable_start.
Defined.

(** ** A dispatch does not resolve before it returns *)

Lemma not_fulfilled_fields p c c' :
  promises c' = promises c → not_fulfilled p c → not_fulfilled p c'.
Proof. intros H. unfold not_fulfilled. by rewrite H. Qed.

Lemma not_fulfilled_reject p q e c :
  not_fulfilled p c → not_fulfilled p (settle q (Rejected e) c).
Proof.
  intros [H|(e0 & H)].
  - destruct (decide (q = p)) as [->|Hne].
    + right. exists e. by apply settle_lookup_pending.
    + left. by rewrite settle_lookup_ne.
  - right. exists e0. by apply settle_lookup_settled.
Qed.

Lemma not_fulfilled_alloc p st c c' :
  promises c' = <[fresh (dom (promises c)) := st]> (promises c) →
  not_fulfilled p c → not_fulfilled p c'.
Proof.
  intros Hp H. unfold not_fulfilled. rewrite Hp.
  destruct H as [H|(e & H)];
    [left|right; exists e]; rewrite lookup_insert_ne; try done;
    by eapply fresh_promise_ne.
Qed.

Lemma exec_not_fulfilled options p n plain fr prog c c' :
  not_fulfilled p c →
  exec options n plain fr prog c = Done c' →
  not_fulfilled p c'.
Proof.
  intros H He.
  refine (exec_pres options (λ _ c, not_fulfilled p c) _ _ _ _ _ _ _ _ _
            n plain fr prog [] c c' H He).
  - intros fr0 stk v c0. by apply not_fulfilled_fields.
  - intros fr0 stk e c0. by apply not_fulfilled_fields.
  - intros fr0 stk e c0. apply not_fulfilled_reject.
  - intros fr0 stk q k c0. apply not_fulfilled_fields. by prim.
  - intros stk a c0 tg l h H0 _ _. revert H0.
    by apply (not_fulfilled_alloc p Pending).
  - intros stk a c0 tg l e H0 _ _ _. unfold reject.
    apply not_fulfilled_reject. revert H0.
    by apply (not_fulfilled_alloc p Pending).
  - intros stk fr0 a l c0. by apply not_fulfilled_fields.
  - by intros stk fr0 c0.
  - intros stk c0 H0 _. revert H0.
    by apply (not_fulfilled_alloc p (Settled (Fulfilled VUndefined))).
Qed.

(** X13.  While the hook is mounted, no dispatch function returns a promise
    that is already resolved: whatever the listeners do during the call, the
    promise is pending when the call returns, or rejected (by the guard or
    by a plain effect that threw). A value arrives no sooner than the next
    microtask. *)
Theorem dispatch_never_resolves_at_once
    (options : option EffectStateOptions) (n : nat) (prev : option loc)
    (a : action) (c : config) (tg : list (string * listener)) (p : pid)
    (c' : config) :
  target c = Some tg →
  dispatchTrace options n prev a c = Done (p, c') →
  not_fulfilled p c'.
Proof.
  intros Ht. unfold dispatchTrace, dispatchTrace_with. rewrite Ht.
  cbn [new_promise]. fields.
  destruct (getNextTrace _ a prev (traces c)) as [[l h]|e|] eqn:G;
    [| |done].
  - unfold dispatchEvent. fields. rewrite Ht.
    destruct (call_listeners _ _ _ _ _) as [c1| |] eqn:E; try done.
    intros [= <- <-].
    set (q := fresh (dom (promises c))) in *.
    set (c0 := log_guarded _ _) in E.
    assert (not_fulfilled q c0) as H0
      by (left; unfold c0; fields; apply lookup_insert_eq).
    clearbody c0. revert c0 c1 E H0.
    induction (listeners_for a tg) as [|l0 ls IH]; intros c0 c1 E H0;
      cbn [call_listeners] in E; [by injection E as <-|].
    destruct (call_listener _ a _ l0 c0) as [c2| |] eqn:E2; try done.
    eapply IH; [exact E|]. unfold call_listener in E2.
    eapply exec_not_fulfilled; [|exact E2].
    revert H0. by apply not_fulfilled_fields.
  - intros [= <- <-]. right. exists e. unfold reject.
    apply settle_lookup_pending.
    destruct prev as [l|]; fields; apply lookup_insert_eq.
Qed.

Lemma dispatch_never_resolves_at_once_witness :
  let c := useEffectState (VObj ∅) [("A", effectA); ("A", throwingEffect)] in
  not_fulfilled 0%nat (after_op None 2 (Op_dispatch "A") c).
Proof.
  intros c.
  apply (dispatch_never_resolves_at_once None 2 None "A" c
           [("A", {| l_id := 0; l_effect := effectA |});
            ("A", {| l_id := 1; l_effect := throwingEffect |})]).
  - vm_compute. reflexivity.
  - vm_compute. reflexivity.
Defined.

(** * The first version of the hook: its map of promises *)

Module V1_facts.

Import V1.

Ltac fields1 :=
  cbn [stateRef state target promises allEffectsArray table microtasks
       next_symbol next_listener issued
       with_state with_target with_promises with_allEffectsArray with_table
       with_microtasks with_next_listener fst snd] in *.

Lemma settle_fields p s c :
  promises (settle p s c) = promises c ∧ issued (settle p s c) = issued c ∧
  microtasks (settle p s c) = microtasks c ∧
  next_symbol (settle p s c) = next_symbol c ∧
  target (settle p s c) = target c ∧ state (settle p s c) = state c.
Proof. unfold settle. by destruct (table c !! p) as [[|s0]|]. Qed.

Lemma settle_table_ne p s c q :
  q ≠ p → table (settle p s c) !! q = table c !! q.
Proof.
  intros Hne. unfold settle. destruct (table c !! p) as [[|s0]|]; try done.
  fields1. by rewrite lookup_insert_ne.
Qed.

Lemma settle_table_pending p s c :
  table c !! p = Some Pending →
  table (settle p s c) !! p = Some (Settled s).
Proof.
  intros H. unfold settle. rewrite H. fields1. by rewrite lookup_insert_eq.
Qed.

Lemma settle_table_settled p s c q s0 :
  table c !! q = Some (Settled s0) →
  table (settle p s c) !! q = Some (Settled s0).
Proof.
  intros H. unfold settle. destruct (table c !! p) as [[|s1]|] eqn:E;
    try done.
  fields1. rewrite lookup_insert_ne; [done|]. congruence.
Qed.

Lemma settle_keeps_dom p s c q :
  q ∈ dom (table c) → q ∈ dom (table (settle p s c)).
Proof.
  intros H. unfold settle. destruct (table c !! p) as [[|s1]|]; try done.
  fields1. by apply dom_insert_old.
Qed.

(** What [finish] writes: the map loses the symbol, the promise of the
    record gets one call, and the state follows a truthy result. *)
Lemma finish_fields sym r o c :
  promises (finish sym r o c) = delete sym (promises c) ∧
  table (finish sym r o c) = table (settle_opt r (settlement_of o) c) ∧
  issued (finish sym r o c) = issued c ∧
  microtasks (finish sym r o c) = microtasks c ∧
  next_symbol (finish sym r o c) = next_symbol c ∧
  target (finish sym r o c) = target c.
Proof.
  unfold finish, settlement_of, settle_opt. fields1.
  destruct o as [v|e]; [destruct (truthy v)|]; destruct r as [p|];
    try done.
  all: match goal with
       | |- context [settle ?p ?s ?c0] =>
           destruct (settle_fields p s c0) as (-> & -> & -> & -> & -> & _)
       end; try done.
  unfold settle. fields1. by destruct (table c !! p) as [[|s0]|].
Qed.

Lemma finish_records_inv sym r o c :
  records_inv c →
  match r with
  | Some p => (sym, p) ∈ issued c
  | None => promises c !! sym = None
  end →
  records_inv (finish sym r o c).
Proof.
  intros (I1 & I2 & I3 & I4 & I5) Hr.
  destruct (finish_fields sym r o c) as (Hp & Ht & Hi & Hm & Hn & _).
  unfold records_inv. rewrite Hp, Ht, Hi, Hm, Hn.
  assert (∀ q, q ∈ dom (table c) →
               q ∈ dom (table (settle_opt r (settlement_of o) c))) as Hdom.
  { intros q Hq. destruct r as [p|]; [by apply settle_keeps_dom|done]. }
  assert (∀ q s0, table c !! q = Some (Settled s0) →
                  table (settle_opt r (settlement_of o) c) !! q
                    = Some (Settled s0)) as Hkeep.
  { intros q s0 Hq. destruct r as [p|]; [by apply settle_table_settled|done]. }
  split; [|split; [|split; [|split]]].
  - intros sym' p' Hin. destruct (I1 sym' p' Hin). split; [done|].
    by apply Hdom.
  - done.
  - intros sym' p' Hl. apply lookup_delete_Some in Hl as [Hne Hl].
    destruct (I3 sym' p' Hl) as [Hin Hpend]. split; [done|].
    destruct r as [p|]; [|done]. cbn [settle_opt].
    rewrite settle_table_ne; [done|].
    intros ->. apply Hne. by apply (I2 sym p sym' p).
  - intros sym' p' Hin Hl. apply lookup_delete_None in Hl as [Heq|Hl].
    + subst sym'. destruct (promises c !! sym) as [p0|] eqn:E.
      * destruct (I3 sym p0 E) as [Hin0 Hpend].
        assert (p0 = p') as -> by (by apply (I2 sym p0 sym p')).
        destruct r as [p|]; [|congruence]. cbn [settle_opt].
        assert (p = p') as -> by (by apply (I2 sym p sym p')).
        eexists. by apply settle_table_pending.
      * destruct (I4 sym p' Hin E) as (s0 & Hs0). eauto.
    + destruct (I4 sym' p' Hin Hl) as (s0 & Hs0). eauto.
  - intros t Hin. destruct (I5 t Hin) as [Hlt Hrec]. split; [done|].
    destruct (t_record t) as [p|]; [done|].
    apply lookup_delete_None. by right.
Qed.

Lemma call_listener_fields sym l c :
  next_symbol (call_listener sym l c) = next_symbol c ∧
  target (call_listener sym l c) = target c ∧
  issued (call_listener sym l c) = issued c.
Proof.
  unfold call_listener.
  destruct (eff_body (l_effect l) (stateRef c)) as [v|e]; [done|].
  destruct (eff_async (l_effect l)); [done|].
  by destruct (finish_fields sym (promises c !! sym) (Rejected e) c)
    as (_ & _ & -> & _ & -> & ->).
Qed.

Lemma enqueue_records_inv sym o c :
  records_inv c → (sym < next_symbol c)%nat →
  records_inv (enqueue {| t_symbol := sym; t_record := promises c !! sym;
                          t_outcome := o |} c).
Proof.
  intros (I1 & I2 & I3 & I4 & I5) Hlt.
  split; [|split; [|split; [|split]]]; try done.
  intros t Hin. unfold enqueue in Hin. fields1.
  apply elem_of_app in Hin as [Hin|Hin]; [by apply I5|].
  apply list_elem_of_singleton in Hin as ->. cbn [t_symbol t_record].
  split; [done|].
  destruct (promises c !! sym) as [p|] eqn:E; [|done]. by apply I3.
Qed.

Lemma call_listener_records_inv sym l c :
  records_inv c → (sym < next_symbol c)%nat →
  records_inv (call_listener sym l c).
Proof.
  intros Hinv Hlt. unfold call_listener.
  destruct (eff_body (l_effect l) (stateRef c)) as [v|e];
    [by apply enqueue_records_inv|].
  destruct (eff_async (l_effect l)); [by apply enqueue_records_inv|].
  apply finish_records_inv; [done|].
  destruct (promises c !! sym) as [p|] eqn:E; [|done].
  by apply Hinv.
Qed.

Lemma call_listeners_records_inv sym ls : ∀ c,
  records_inv c → (sym < next_symbol c)%nat →
  records_inv (foldl (λ c l, call_listener sym l c) c ls).
Proof.
  induction ls as [|l ls IH]; intros c Hinv Hlt; [done|].
  cbn [foldl]. apply IH; [by apply call_listener_records_inv|].
  by destruct (call_listener_fields sym l c) as (-> & _).
Qed.

Lemma new_dispatch_records_inv c :
  records_inv c → records_inv (new_dispatch c).2.
Proof.
  intros (I1 & I2 & I3 & I4 & I5). unfold new_dispatch. cbn [snd].
  set (sym := next_symbol c). set (p := fresh (dom (table c))).
  assert (p ∉ dom (table c)) as Hfresh by apply is_fresh.
  assert (∀ sym' p', (sym', p') ∈ issued c → sym' ≠ sym ∧ p' ≠ p) as Hold.
  { intros sym' p' Hin. destruct (I1 sym' p' Hin) as [Hlt Hd].
    split; [unfold sym; lia|]. intros ->. by apply Hfresh. }
  split; [|split; [|split; [|split]]]; fields1.
  - intros sym' p' Hin. apply elem_of_app in Hin as [Hin|Hin].
    + destruct (I1 sym' p' Hin). split; [lia|]. by apply dom_insert_old.
    + apply list_elem_of_singleton in Hin as [= -> ->].
      split; [unfold sym; lia|]. apply dom_insert_new.
  - intros s1 p1 s2 p2 H1 H2.
    apply elem_of_app in H1 as [H1|H1]; apply elem_of_app in H2 as [H2|H2].
    + by apply I2.
    + apply list_elem_of_singleton in H2 as [= -> ->].
      destruct (Hold s1 p1 H1). split; intros; congruence.
    + apply list_elem_of_singleton in H1 as [= -> ->].
      destruct (Hold s2 p2 H2). split; intros; congruence.
    + apply list_elem_of_singleton in H1 as [= -> ->].
      by apply list_elem_of_singleton in H2 as [= -> ->].
  - intros sym' p' Hl. destruct (decide (sym' = sym)) as [->|Hne].
    + rewrite lookup_insert_eq in Hl. injection Hl as <-.
      split; [|by rewrite lookup_insert_eq].
      apply elem_of_app. right. by apply list_elem_of_singleton.
    + rewrite lookup_insert_ne in Hl by done.
      destruct (I3 sym' p' Hl) as [Hin Hpend].
      split; [apply elem_of_app; by left|].
      rewrite lookup_insert_ne; [done|]. intros <-.
      by destruct (Hold sym' p Hin).
  - intros sym' p' Hin Hl. apply elem_of_app in Hin as [Hin|Hin].
    + destruct (Hold sym' p' Hin) as [Hs Hp].
      rewrite lookup_insert_ne in Hl by done.
      destruct (I4 sym' p' Hin Hl) as (s0 & Hs0). exists s0.
      by rewrite lookup_insert_ne.
    + apply list_elem_of_singleton in Hin as [= -> ->].
      by rewrite lookup_insert_eq in Hl.
  - intros t Hin. destruct (I5 t Hin) as [Hlt Hrec]. split; [lia|].
    destruct (t_record t) as [p'|].
    + apply elem_of_app. by left.
    + rewrite lookup_insert_ne; [done|]. unfold sym. lia.
Qed.

Lemma dispatch_records_inv a c :
  records_inv c → records_inv (dispatch a c).2.
Proof.
  intros Hinv. unfold dispatch. destruct (target c) as [tg|]; [|done].
  pose proof (new_dispatch_records_inv c Hinv) as Hnew.
  unfold new_dispatch in *. cbn [snd] in *.
  apply call_listeners_records_inv; [done|]. fields1. lia.
Qed.

Lemma tick_records_inv c : records_inv c → records_inv (tick c).
Proof.
  intros Hinv. unfold tick. destruct (microtasks c) as [|t q] eqn:Hm;
    [done|].
  destruct Hinv as (I1 & I2 & I3 & I4 & I5).
  destruct (I5 t) as [Hlt Hrec]; [rewrite Hm; by left|].
  apply finish_records_inv; [|done].
  split; [|split; [|split; [|split]]]; try done.
  intros t' Hin. fields1. apply I5. rewrite Hm. by right.
Qed.

(** [addEffect] and [cleanup] leave the promises alone. *)
Lemma addEffect_keeps a effect c :
  promises (addEffect a effect c) = promises c ∧
  table (addEffect a effect c) = table c ∧
  issued (addEffect a effect c) = issued c ∧
  microtasks (addEffect a effect c) = microtasks c ∧
  next_symbol (addEffect a effect c) = next_symbol c ∧
  state (addEffect a effect c) = state c ∧
  (target c = None → target (addEffect a effect c) = None).
Proof.
  unfold addEffect. destruct (addEffect_error a c); [done|].
  unfold getListener. fields1.
  destruct (allEffectsArray c !! a) as [hs|]; fields1;
    [destruct (negb _)|]; fields1;
    destruct (target c) as [tg|] eqn:Ht; fields1; by repeat split.
Qed.

Lemma cleanup_fields c :
  promises (cleanup c) = promises c ∧ table (cleanup c) = table c ∧
  issued (cleanup c) = issued c ∧ microtasks (cleanup c) = microtasks c ∧
  next_symbol (cleanup c) = next_symbol c ∧ state (cleanup c) = state c ∧
  target (cleanup c) = None.
Proof.
  unfold cleanup. fields1.
  generalize (map_to_list (allEffectsArray c)). intros es.
  assert (∀ a ls c0,
            let c1 := foldl (λ c l,
                               match target c with
                               | Some tg =>
                                   with_target
                                     (Some (removeEventListener a l tg)) c
                               | None => c
                               end) c0 ls in
            promises c1 = promises c0 ∧ table c1 = table c0 ∧
            issued c1 = issued c0 ∧ microtasks c1 = microtasks c0 ∧
            next_symbol c1 = next_symbol c0 ∧ state c1 = state c0) as Hin.
  { intros a ls. induction ls as [|l ls IH]; intros c0; [done|].
    cbn [foldl]. destruct (target c0) as [tg|]; [|apply IH].
    destruct (IH (with_target (Some (removeEventListener a l tg)) c0))
      as (-> & -> & -> & -> & -> & ->). done. }
  revert c. induction es as [|[a ls] es IH]; intros c; [done|].
  cbn [foldl fst snd].
  destruct (IH (foldl (λ c l,
                         match target c with
                         | Some tg =>
                             with_target
                               (Some (removeEventListener a l tg)) c
                         | None => c
                         end) c ls))
    as (-> & -> & -> & -> & -> & -> & _).
  destruct (Hin a ls c) as (-> & -> & -> & -> & -> & ->). done.
Qed.

Lemma records_inv_fields c c' :
  promises c' = promises c → table c' = table c → issued c' = issued c →
  microtasks c' = microtasks c → next_symbol c' = next_symbol c →
  records_inv c → records_inv c'.
Proof.
  intros Hp Ht Hi Hm Hn. unfold records_inv. by rewrite Hp, Ht, Hi, Hm, Hn.
Qed.

Lemma step_records_inv c c' : records_inv c → step c c' → records_inv c'.
Proof.
  intros Hinv [[a|a effect| |] <-]; cbn [apply_op].
  - by apply dispatch_records_inv.
  - destruct (addEffect_keeps a effect c) as (? & ? & ? & ? & ? & _).
    by apply (records_inv_fields c).
  - destruct (cleanup_fields c) as (? & ? & ? & ? & ? & _).
    by apply (records_inv_fields c).
  - by apply tick_records_inv.
Qed.

Lemma reachable_records_inv s0 c : reachable s0 c → records_inv c.
Proof.
  intros (effs & Hr).
  assert (records_inv (useEffectState s0 effs)) as Hinit.
  { clear Hr. unfold useEffectState.
    assert (records_inv (init s0)) as H0.
    { split; [|split; [|split; [|split]]]; unfold init; fields1;
        by intros; set_solver. }
    revert H0. generalize (init s0).
    induction effs as [|[a e] effs IH]; intros c0 H0; [done|].
    cbn [mount fst snd]. destruct (addEffect_error a c0); [done|].
    apply IH.
    destruct (addEffect_keeps a e c0) as (? & ? & ? & ? & ? & _).
    by apply (records_inv_fields c0). }
  revert Hr Hinit. generalize (useEffectState s0 effs). intros c0 Hr.
  induction Hr as [|c1 c2 c3 Hs _ IH]; intros H; [done|].
  apply IH. by eapply step_records_inv.
Qed.

(** X14.  The map [promises] holds exactly the unresolved dispatches. Every
    entry of the map belongs to a dispatch that was made and its promise is
    pending; and every dispatch that was made is either in the map with its
    promise pending, or has left the map and its promise is settled. *)
Theorem promises_map_holds_the_unresolved (s0 : value) (c : config) :
  reachable s0 c →
  (∀ sym p, promises c !! sym = Some p →
            (sym, p) ∈ issued c ∧ table c !! p = Some Pending) ∧
  (∀ sym p, (sym, p) ∈ issued c →
            (promises c !! sym = Some p ∧ table c !! p = Some Pending) ∨
            (promises c !! sym = None ∧
             ∃ s, table c !! p = Some (Settled s))).
Proof.
  intros Hr. destruct (reachable_records_inv s0 c Hr)
    as (I1 & I2 & I3 & I4 & I5).
  split; [done|]. intros sym p Hin.
  destruct (promises c !! sym) as [p0|] eqn:E.
  - left. destruct (I3 sym p0 E) as [Hin0 Hpend].
    assert (p0 = p) as -> by (by apply (I2 sym p0 sym p)).
    done.
  - right. split; [done|]. by apply (I4 sym p).
Qed.

Lemma stuck_inv_step sym p c c' :
  stuck_inv sym p c → step c c' → stuck_inv sym p c'.
Proof.
  intros (Hinv & Hl & Hq) Hs.
  split; [by eapply step_records_inv|].
  assert (sym < next_symbol c)%nat as Hlt.
  { destruct Hinv as (I1 & _ & I3 & _).
    destruct (I3 sym p Hl) as [Hin _]. by destruct (I1 sym p Hin). }
  destruct Hs as [[a|a effect| |] <-]; cbn [apply_op].
  - unfold dispatch. destruct (target c) as [tg|]; [|done].
    unfold new_dispatch. cbn [snd].
    set (c0 := {| stateRef := stateRef c |}).
    assert (promises c0 !! sym = Some p ∧
            (∀ t, t ∈ microtasks c0 → t_symbol t ≠ sym)) as H0.
    { unfold c0. fields1. rewrite lookup_insert_ne by lia. done. }
    clearbody c0. revert c0 H0.
    induction (listeners_for a tg) as [|l ls IH]; intros c0 H0; [done|].
    cbn [foldl]. apply IH. destruct H0 as [H1 H2].
    unfold call_listener.
    destruct (eff_body (l_effect l) (stateRef c0)) as [v|e].
    + split; [done|]. intros t Hin. unfold enqueue in Hin. fields1.
      apply elem_of_app in Hin as [Hin|Hin]; [by apply H2|].
      apply list_elem_of_singleton in Hin as ->. cbn [t_symbol]. lia.
    + destruct (eff_async (l_effect l)).
      * split; [done|]. intros t Hin. unfold enqueue in Hin. fields1.
        apply elem_of_app in Hin as [Hin|Hin]; [by apply H2|].
        apply list_elem_of_singleton in Hin as ->. cbn [t_symbol]. lia.
      * destruct (finish_fields (next_symbol c)
                    (promises c0 !! next_symbol c) (Rejected e) c0)
          as (-> & _ & _ & -> & _).
        split; [|done]. rewrite lookup_delete_ne by lia. done.
  - destruct (addEffect_keeps a effect c) as (-> & _ & _ & -> & _). done.
  - destruct (cleanup_fields c) as (-> & _ & _ & -> & _). done.
  - unfold tick. destruct (microtasks c) as [|t q] eqn:Hm; [by rewrite Hm|].
    destruct (finish_fields (t_symbol t) (t_record t) (t_outcome t)
                (with_microtasks q c)) as (-> & _ & _ & -> & _).
    fields1. assert (t_symbol t ≠ sym) as Hne by (apply Hq; by left).
    rewrite lookup_delete_ne by done. split; [done|].
    intros t' Hin. apply Hq. by right.
Qed.

(** X15.  A dispatch of an action that has no listener is never settled and
    its record never leaves the map: every such dispatch leaves an entry in
    [promises] for as long as the hook lives. *)
Theorem unhandled_dispatch_keeps_its_record (s0 : value) (c : config)
    (tg : list (string * listener)) (a : action) :
  reachable s0 c →
  target c = Some tg →
  listeners_for a tg = [] →
  ∃ p c1,
    dispatch a c = (Some p, c1) ∧
    ∀ c2, rtc step c1 c2 →
          promises c2 !! next_symbol c = Some p ∧
          table c2 !! p = Some Pending.
Proof.
  intros Hr Ht Hl. apply reachable_records_inv in Hr.
  pose proof (dispatch_records_inv a c Hr) as Hinv1.
  unfold dispatch in *. rewrite Ht in *. unfold new_dispatch in *.
  rewrite Hl in *. cbn [foldl snd] in *.
  eexists _, _. split; [reflexivity|].
  set (c1 := {| stateRef := stateRef c |}) in *.
  intros c2 H2.
  assert (stuck_inv (next_symbol c) (fresh (dom (table c))) c1) as Hs.
  { split; [done|]. unfold c1. fields1. rewrite lookup_insert_eq.
    split; [done|]. intros t Hin.
    destruct Hr as (_ & _ & _ & _ & I5). destruct (I5 t Hin). lia. }
  assert (stuck_inv (next_symbol c) (fresh (dom (table c))) c2)
    as ((_ & _ & I3 & _) & Hl2 & _).
  { clear -Hs H2. induction H2 as [|x y z Hxy _ IH]; [done|].
    apply IH. by eapply stuck_inv_step. }
  split; [done|]. by destruct (I3 _ _ Hl2).
Qed.

Lemma unhandled_dispatch_keeps_its_record_witness :
  let f := {| eff_ref := 0; eff_async := false;
              eff_body := λ _, Returns VUndefined |} in
  let c := useEffectState (VNum 1) [("A", f)] in
  ∃ p c1,
    dispatch "B" c = (Some p, c1) ∧
    ∀ c2, rtc step c1 c2 →
          promises c2 !! next_symbol c = Some p ∧
          table c2 !! p = Some Pending.
Proof.
  intros f c.
  apply (unhandled_dispatch_keeps_its_record (VNum 1) c
           [("A", {| l_id := 0; l_effect := f |})] "B").
  - exists [("A", f)]. apply rtc_refl.
  - reflexivity.
  - reflexivity.
Defined.

Lemma promises_map_holds_the_unresolved_witness :
  let f := {| eff_ref := 0; eff_async := false;
              eff_body := λ _, Returns (VNum 2) |} in
  let c := tick (dispatch "A" (useEffectState (VNum 1) [("A", f)])).2 in
  (∀ sym p, promises c !! sym = Some p →
            (sym, p) ∈ issued c ∧ table c !! p = Some Pending) ∧
  (∀ sym p, (sym, p) ∈ issued c →
            (promises c !! sym = Some p ∧ table c !! p = Some Pending) ∨
            (promises c !! sym = None ∧
             ∃ s, table c !! p = Some (Settled s))).
Proof.
  intros f c.
  apply (promises_map_holds_the_unresolved (VNum 1) c).
  exists [("A", f)].
  eapply rtc_l; [by exists (Op_dispatch "A")|].
  apply rtc_once. by exists Op_tick.
Defined.

(** X16.  After teardown [dispatch] returns [undefined], not a promise, and
    changes nothing, at every later time. (The later version returns a
    promise resolved with [undefined] instead.) *)
Theorem dispatch_after_teardown_returns_nothing (c c' : config)
    (a : action) :
  rtc step (cleanup c) c' → dispatch a c' = (None, c').
Proof.
  intros Hr.
  assert (target c' = None) as Ht.
  { assert (target (cleanup c) = None) as H0
      by (by destruct (cleanup_fields c) as (_ & _ & _ & _ & _ & _ & ?)).
    revert Hr H0. generalize (cleanup c). intros c0 Hr.
    induction Hr as [|x y z Hs _ IH]; intros H0; [done|]. apply IH.
    destruct Hs as [[b|b effect| |] <-]; cbn [apply_op].
    - unfold dispatch. by rewrite H0.
    - by apply addEffect_keeps.
    - by destruct (cleanup_fields x) as (_ & _ & _ & _ & _ & _ & ?).
    - unfold tick. destruct (microtasks x) as [|t q]; [done|].
      by destruct (finish_fields (t_symbol t) (t_record t) (t_outcome t)
                     (with_microtasks q x)) as (_ & _ & _ & _ & _ & ->). }
  unfold dispatch. by rewrite Ht.
Qed.

Lemma dispatch_after_teardown_returns_nothing_witness :
  let f := {| eff_ref := 0; eff_async := false;
              eff_body := λ _, Returns (VNum 2) |} in
  let c := useEffectState (VNum 1) [("A", f)] in
  dispatch "A" (addEffect "B" f (cleanup c))
    = (None, addEffect "B" f (cleanup c)).
Proof.
  intros f c.
  apply (dispatch_after_teardown_returns_nothing c).
  apply rtc_once. by exists (Op_addEffect "B" f).
Defined.

(** X17.  A dispatch that rejects can still change the state. When a plain
    handler throws, the listener rejects the promise and removes the record
    from the map during the dispatch itself; a later handler of the same
    event then finds no record, so [resolve?.(...)] calls nothing, but its
    truthy result becomes the state all the same. *)
Theorem rejected_dispatch_still_sets_the_state (c : config)
    (tg : list (string * listener)) (a : action) (l1 l2 : listener)
    (e : error) (v : value) :
  target c = Some tg →
  listeners_for a tg = [l1; l2] →
  microtasks c = [] →
  eff_async (l_effect l1) = false →
  eff_body (l_effect l1) (stateRef c) = Throws e →
  eff_body (l_effect l2) (stateRef c) = Returns v →
  truthy v = true →
  ∃ p c1,
    dispatch a c = (Some p, c1) ∧
    table c1 !! p = Some (Settled (Rejected e)) ∧
    promises c1 !! next_symbol c = None ∧
    microtasks c1 = [{| t_symbol := next_symbol c; t_record := None;
                        t_outcome := Fulfilled v |}] ∧
    state c1 = state c ∧
    state (tick c1) = v ∧
    table (tick c1) !! p = Some (Settled (Rejected e)).
Proof.
  intros Ht Hl Hm Ha H1 H2 Hv.
  unfold dispatch. rewrite Ht, Hl. unfold new_dispatch.
  cbn [foldl]. unfold call_listener at 2. fields1. rewrite H1, Ha.
  rewrite lookup_insert_eq.
  set (c0 := {| stateRef := stateRef c |}).
  set (sym := next_symbol c). set (p := fresh (dom (table c))).
  assert (table c0 !! p = Some Pending) as Hp0
    by (unfold c0; fields1; apply lookup_insert_eq).
  assert (finish sym (Some p) (Rejected e) c0
          = with_promises (delete sym (promises c0))
              (with_table (<[p := Settled (Rejected e)]> (table c0)) c0))
    as Hf.
  { unfold finish, settle_opt, settle. by rewrite Hp0. }
  fold sym p. rewrite Hf. unfold call_listener. fields1.
  change (stateRef c0) with (stateRef c). rewrite H2.
  rewrite lookup_delete_eq.
  eexists _, _. split; [reflexivity|]. unfold enqueue. fields1.
  rewrite lookup_insert_eq. change (microtasks c0) with (microtasks c).
  rewrite Hm. cbn [app].
  split; [done|]. split; [apply lookup_delete_eq|].
  split; [done|]. split; [done|].
  unfold tick. fields1. cbn [t_symbol t_record t_outcome].
  unfold finish, settle_opt. rewrite Hv. fields1.
  change (target c0) with (target c). rewrite Ht.
  by rewrite lookup_insert_eq.
Qed.

Lemma rejected_dispatch_still_sets_the_state_witness :
  let f1 := {| eff_ref := 0; eff_async := false;
               eff_body := λ _, Throws (Thrown (VStr "no")) |} in
  let f2 := {| eff_ref := 1; eff_async := false;
               eff_body := λ _, Returns (VNum 2) |} in
  let c := useEffectState (VNum 1) [("A", f1); ("A", f2)] in
  ∃ p c1,
    dispatch "A" c = (Some p, c1) ∧
    table c1 !! p = Some (Settled (Rejected (Thrown (VStr "no")))) ∧
    promises c1 !! next_symbol c = None ∧
    microtasks c1 = [{| t_symbol := next_symbol c; t_record := None;
                        t_outcome := Fulfilled (VNum 2) |}] ∧
    state c1 = state c ∧
    state (tick c1) = VNum 2 ∧
    table (tick c1) !! p = Some (Settled (Rejected (Thrown (VStr "no")))).
Proof.
  intros f1 f2 c.
  apply (rejected_dispatch_still_sets_the_state c
           [("A", {| l_id := 0; l_effect := f1 |});
            ("A", {| l_id := 1; l_effect := f2 |})] "A"
           {| l_id := 0; l_effect := f1 |} {| l_id := 1; l_effect := f2 |}).
  - reflexivity.
  - reflexivity.
  - reflexivity.
  - reflexivity.
  - reflexivity.
  - reflexivity.
  - reflexivity.
Defined.

End V1_facts.

(** * The hook with payloads: what its dispatch does *)

Module Payload_facts.

Import Payload.

Ltac fields3 :=
  cbn [stateRef state target closures promises microtasks waiting invoked
       with_state with_target with_closures with_promises with_microtasks
       with_waiting log_invoked fst snd] in *.

Lemma firstDispatch_idle s0 n act c :
  idle_inv s0 c →
  let p := fresh (dom (promises c)) in
  ∃ c',
    firstDispatch n act c = Done (p, c') ∧
    promises c' !! p = Some (Settled (Rejected TypeError)) ∧
    target c' = target c ∧
    idle_inv s0 c'.
Proof.
  intros (I1 & I2 & I3 & I4 & I5 & I6) p.
  unfold firstDispatch, call_dispatch. fields3. rewrite I1.
  cbn [default next_trace_of]. fold p.
  eexists. split; [reflexivity|].
  unfold settle. fields3. rewrite lookup_insert_eq. fields3.
  rewrite lookup_insert_eq, I3, I4. by repeat split.
Qed.

Lemma step_idle s0 c c' : idle_inv s0 c → step c c' → idle_inv s0 c'.
Proof.
  intros Hi (n & [act|a effect|] & Ho); cbn [apply_op] in Ho.
  - destruct (firstDispatch_idle s0 n act c Hi) as (c1 & Hd & _ & _ & H1).
    rewrite Hd in Ho. by injection Ho as <-.
  - by injection Ho as <-.
  - unfold tick in Ho. destruct Hi as (I1 & I2 & I3 & I4 & I5 & I6).
    rewrite I3 in Ho. by injection Ho as <-.
Qed.

Lemma reachable_idle s0 c : reachable s0 c → idle_inv s0 c.
Proof.
  unfold reachable.
  assert (idle_inv s0 (useEffectState s0)) as H0 by done.
  revert H0. generalize (useEffectState s0). intros c0 H0 Hr.
  induction Hr as [|x y z Hs _ IH]; [done|].
  apply IH. by eapply step_idle.
Qed.

(** X18.  The dispatch function the hook returns never delivers anything. Its
    variable [trace] is [undefined], so the executor of every call throws a
    [TypeError] before the event is published: the promise is rejected with
    that error, no effect is called, nothing is scheduled, and the state of
    the hook is its initial state for ever, whatever effects are added. *)
Theorem first_dispatch_always_rejects (s0 : value) (c : config) (n : nat)
    (act : ActionObject) :
  reachable s0 c →
  state c = s0 ∧ invoked c = [] ∧ microtasks c = [] ∧
  ∃ p c',
    firstDispatch n act c = Done (p, c') ∧
    promises c' !! p = Some (Settled (Rejected TypeError)) ∧
    invoked c' = [] ∧ microtasks c' = [] ∧ state c' = s0 ∧
    target c' = target c.
Proof.
  intros Hr. apply reachable_idle in Hr.
  destruct (firstDispatch_idle s0 n act c Hr)
    as (c' & Hd & Hp & Ht & (_ & J2 & J3 & _ & J5 & _)).
  destruct Hr as (_ & I2 & I3 & _ & I5 & _).
  split; [done|]. split; [done|]. split; [done|].
  by eexists _, c'.
Qed.

Lemma first_dispatch_always_rejects_witness :
  let f := {| eff_async := false;
              eff_body := λ _ _, Return (VNum 2) |} in
  let c := addEffect "A" f (useEffectState (VNum 1)) in
  state c = VNum 1 ∧ invoked c = [] ∧ microtasks c = [] ∧
  ∃ p c',
    firstDispatch 3 {| type := "A"; payload := VNull |} c = Done (p, c') ∧
    promises c' !! p = Some (Settled (Rejected TypeError)) ∧
    invoked c' = [] ∧ microtasks c' = [] ∧ state c' = VNum 1 ∧
    target c' = target c.
Proof.
  intros f c.
  apply (first_dispatch_always_rejects (VNum 1) c 3
           {| type := "A"; payload := VNull |}).
  apply rtc_once. by exists 0%nat, (Op_addEffect "A" f).
Defined.

Lemma next_trace_new (t : gmap string Z) ty :
  inherited ty = false → t !! ty = None → next_trace t ty = {[ ty := 1 ]}.
Proof.
  intros Hi H. unfold next_trace. rewrite (inherits_plain t ty Hi).
  by rewrite H.
Qed.

Lemma default_last_cons {A} (a b : A) (l : list A) :
  default a (last (b :: l)) = default b (last l).
Proof.
  destruct l as [|b' l]; [done|]. rewrite last_cons_cons.
  destruct (last (b' :: l)) eqn:E; [done|]. by apply last_None in E.
Qed.

Lemma trace_after_replicate a : ∀ k n,
  0 < n →
  trace_after {[ a := n ]} (replicate k a) = {[ a := n + Z.of_nat k ]}.
Proof.
  induction k as [|k IH]; intros n Hn; cbn [replicate].
  - unfold trace_after. cbn [foldl]. by rewrite Z.add_0_r.
  - unfold trace_after in *. cbn [foldl].
    assert (next_trace {[ a := n ]} a = {[ a := n + 1 ]}) as ->.
    { unfold next_trace, inherits. rewrite lookup_singleton_eq.
      cbn [default id].
      destruct (Z.eqb_spec n 0); [lia|]. cbn [negb].
      by rewrite insert_singleton_eq. }
    rewrite IH by lia. f_equal. lia.
Qed.

(** X19.  For types that are not names of members of [Object.prototype],
    the trace counts only immediate repetition. A type that the trace does
    not count yet replaces the trace by a new one, so in a chain of nested
    dispatches in which no type follows itself the trace always holds the
    last type alone, with count 1: a cycle A, B, A, B, ... is never counted.
    A type dispatched [k] more times in a row is counted [1 + k]. A type
    that is a name of the prototype and is not counted yet does neither: it
    leaves all counts as they are. *)
Theorem trace_counts_only_repetition (a : action) (tys : list action)
    (k : nat) :
  no_repeat a tys = true →
  forallb (λ b, negb (inherited b)) tys = true →
  trace_after {[ a := 1 ]} tys = {[ default a (last tys) := 1 ]} ∧
  trace_after {[ a := 1 ]} (replicate k a) = {[ a := 1 + Z.of_nat k ]} ∧
  ∀ (t : gmap string Z) b,
    inherited b = true → t !! b = None → next_trace t b = t.
Proof.
  intros H Hp. split; [|split; [by apply trace_after_replicate|]].
  - revert a H Hp. induction tys as [|b tys IH]; intros a H Hp; [done|].
    cbn [no_repeat] in H. apply andb_true_iff in H as [Hab Hrest].
    cbn [forallb] in Hp. apply andb_true_iff in Hp as [Hb Hp].
    apply negb_true_iff in Hab, Hb.
    destruct (String.eqb_spec a b) as [|Hne]; [done|].
    unfold trace_after in *. cbn [foldl].
    rewrite next_trace_new by (done || by apply lookup_singleton_ne).
    by rewrite (IH b Hrest Hp), default_last_cons.
  - intros t b Hi Hn. unfold next_trace, inherits. by rewrite Hn, Hi.
Qed.

Lemma trace_counts_only_repetition_witness :
  trace_after {[ "A" := 1 ]} ["B"; "A"; "B"; "A"]
    = {[ default "A" (last ["B"; "A"; "B"; "A"]) := 1 ]} ∧
  trace_after {[ "A" := 1 ]} (replicate 3 "A")
    = {[ "A" := 1 + Z.of_nat 3 ]} ∧
  ∀ (t : gmap string Z) b,
    inherited b = true → t !! b = None → next_trace t b = t.
Proof.
  apply (trace_counts_only_repetition "A" ["B"; "A"; "B"; "A"] 3).
  - reflexivity.
  - reflexivity.
Defined.

End Payload_facts.
